(** * Rust diagnostic messages: build, cross-links, window index

    A shallow embedding of [rust/messages.py].  The JSON diagnostics of
    rustc are records, a [Message] object is a record, the per-window
    store [WINDOW_MESSAGES] is a finite map from window ids to an
    insertion-ordered association list of paths.  Python's in-place
    updates are written as explicit state passing. *)

From Stdlib Require Import ZArith Lia Bool.
From Stdlib Require OrderedTypeEx.
From stdpp Require Import base list strings gmap pretty sorting.

Local Open Scope string_scope.
Local Open Scope Z_scope.
Local Open Scope list_scope.

(** ** Python helpers *)

(** [sub in s] on strings. *)
Fixpoint contains (sub s : string) : bool :=
  String.prefix sub s
  || match s with
     | EmptyString => false
     | String _ s' => contains sub s'
     end.

(** [s.startswith(p)]. *)
Definition startswith (s p : string) : bool := String.prefix p s.

(** Truth value of an optional string: [None] and the empty string are
    false. *)
Definition truthy (o : option string) : bool :=
  match o with
  | Some s => negb (String.eqb s EmptyString)
  | None => false
  end.

Definition MACROS : string := "macros>".

(** ** The JSON shape of a diagnostic *)

(** A span of the compiler's JSON.  [line_start] is optional because the
    code builds spans that only carry a file name and overwrites
    [line_start] with [None]; [span_text] holds the ['text'] fields of
    the list under the key ['text']. *)
Inductive Span : Type := mkSpan {
  file_name : string;
  line_start : option Z;
  column_start : Z;
  line_end : Z;
  column_end : Z;
  is_primary : bool;
  span_text : list string;
  label : option string;
  suggested_replacement : option string;
  expansion : option Expansion }
with Expansion : Type := mkExpansion {
  exp_span : Span;
  macro_decl_name : string;
  def_site_span : option Span }.

Record Code := { code_code : string; code_explanation : option string }.

#[warnings="-register-all"]
Inductive Info : Type := mkInfo {
  info_message : string;
  info_level : string;
  info_code : option Code;
  info_spans : list Span;
  info_children : list Info }.

(** ** Messages *)

Definition Pos : Type := Z * Z.
Definition Region : Type := Pos * Pos.

(** The fields of class [Message].  [id] stands for the uuid, [parent] is
    the id of the primary message a child belongs to.  The [children]
    list lives in [MessageTree]: children cannot have children. *)
Record Message := {
  id : nat;
  region_key : option string;
  text : option string;
  minihtml_text : option string;
  level : option string;
  span : option Region;
  path : option string;
  code : option string;
  back_link : option string;
  primary : bool;
  parent : option nat;
  hidden : bool }.

(** [Message()]: the class defaults. *)
Definition new_Message (i : nat) : Message :=
  {| id := i; region_key := None; text := None; minihtml_text := None;
     level := None; span := None; path := None; code := None;
     back_link := None; primary := true; parent := None; hidden := false |}.

(** A message with its [children] list. *)
Record MessageTree := { root : Message; children : list Message }.

(** [Message.__iter__]: the message, then its children. *)
Definition iter (t : MessageTree) : list Message := root t :: children t.

Definition NO_LINE : Z := 999999999.

(** [Message.lineno]. *)
Definition lineno (m : Message) : Z :=
  match span m with
  | Some r => fst (fst r)
  | None => NO_LINE
  end.

(** [Message.is_similar]: the keys path, span, level and text agree. *)
Definition is_similar (self other : Message) : bool :=
  bool_decide (path other = path self)
  && bool_decide (span other = span self)
  && bool_decide (level other = level self)
  && bool_decide (text other = text self).

(** ** Span resolution *)

(** [find_span_r]: follow the expansions to the span without one; the
    second component is the last expansion that was followed. *)
Fixpoint find_span_r (span0 : Span) (expansion0 : option Expansion)
  : Span * option Expansion :=
  match span0 with
  | mkSpan _ _ _ _ _ _ _ _ _ (Some (mkExpansion s _ _ as e)) =>
      find_span_r s (Some e)
  | mkSpan _ _ _ _ _ _ _ _ _ None => (span0, expansion0)
  end.

(** [updated = target_span.copy()] with the three keys of the original
    span written over it. *)
Definition updated_span (target_span span0 : Span) : Span :=
  {| file_name := file_name target_span;
     line_start := line_start target_span;
     column_start := column_start target_span;
     line_end := line_end target_span;
     column_end := column_end target_span;
     is_primary := is_primary span0;
     span_text := span_text target_span;
     label := label span0;
     suggested_replacement := suggested_replacement span0;
     expansion := expansion target_span |}.

(** The span the loop body goes on with after the macro block: spans of
    a macro file are replaced by their root, others are kept. *)
Definition resolve_span (span0 : Span) : Span :=
  if contains MACROS (file_name span0)
  then updated_span (fst (find_span_r span0 None)) span0
  else span0.

(** [make_span_region]. *)
Definition make_span_region (s : Span) : option Region :=
  match line_start s with
  | Some l =>
      if l =? 0 then None
      else Some ((l - 1, column_start s - 1), (line_end s - 1, column_end s - 1))
  | None => None
  end.

(** ** What the module takes from its host *)

(** The functions of Python's library and of [util] that the module
    calls, and the settings it reads with [util.get_setting]. *)
Record Env := {
  (** [os.path.realpath(os.path.join(base_path, file_name))] *)
  realpath_join : string -> string -> string;
  (** [os.path.basename] *)
  basename : string -> string;
  (** the template of a suggested replacement after
      [util.multiline_fix], filled with the urlencoded id and
      replacement and with the escaped replacement *)
  replacement_markup : nat -> string -> string;
  (** the link template after [util.multiline_fix], formatted with
      url, filename and lineno *)
  link_markup : string -> string -> string -> string;
  (** the text of a message split on [LINK_PATTERN], escaped and
      joined, given the indentation *)
  escape_and_link : string -> string -> string;
  (** setting [rust_syntax_hide_warnings] *)
  rust_syntax_hide_warnings : bool;
  (** setting [rust_sort_messages] *)
  rust_sort_messages : bool;
  (** setting [rust_phantom_style] is ['normal'] *)
  rust_phantom_style_normal : bool }.

(** ** Collecting the messages of one diagnostic *)

(** The state [_collect_rust_messages] works on: the [message] object
    it fills, the messages given to [msg_cb] so far, and the next
    fresh id. *)
Record Collect := {
  message : MessageTree;
  console : list Message;
  next_id : nat }.

(** [parent_info] is a dict that is empty or has the one key ['span'];
    it is passed next to the state because the span loop reads what
    [set_primary_message] wrote into it. *)
Abbreviation ParentInfo := (option Span).

Section Collecting.

Variable E : Env.
Variable base_path : string.
Variable target_path : option string.
Variable msg_cb : bool.

Definition make_span_path (s : Span) : string :=
  realpath_join E base_path (file_name s).

Definition set_primary_message (info : Info) (span0 : Span) (txt : string)
    (st : Collect) : ParentInfo * Collect :=
  let m := root (message st) in
  let c :=
    match info_code info with
    | Some c => if truthy (code_explanation c) then Some (code_code c) else code m
    | None => code m
    end in
  let m' :=
    {| id := id m; region_key := region_key m; text := Some txt;
       minihtml_text := minihtml_text m; level := Some (info_level info);
       span := make_span_region span0; path := Some (make_span_path span0);
       code := c; back_link := back_link m; primary := primary m;
       parent := parent m; hidden := hidden m |} in
  (Some span0,
   {| message := {| root := m'; children := children (message st) |};
      console := console st; next_id := next_id st |}).

(** The child object [add_additional] creates; [markup] is the
    [minihtml_text] the caller writes into the child it gets back. *)
Definition new_child (st : Collect) (span0 : Span) (txt : option string)
    (lvl : string) (markup : option string) : Message :=
  {| id := next_id st; region_key := None; text := txt;
     minihtml_text := markup; level := Some lvl;
     span := make_span_region span0; path := Some (make_span_path span0);
     code := None; back_link := None; primary := false;
     parent := Some (id (root (message st))); hidden := false |}.

Definition append_child (child : Message) (st : Collect) : Collect :=
  {| message := {| root := root (message st);
                   children := children (message st) ++ [child] |};
     console := console st; next_id := S (next_id st) |}.

Definition add_additional (span0 : Span) (txt : option string) (lvl : string)
    (st : Collect) : Collect :=
  append_child (new_child st span0 txt lvl None) st.

(** [{'file_name': target_path}] *)
Definition fake_span (p : string) : Span :=
  mkSpan p None 0 0 0 false [] None None None.

(** The message handed to [msg_cb] for a global message without a
    place. *)
Definition tmp_msg (st : Collect) (info : Info) : Message :=
  {| id := next_id st; region_key := None; text := Some (info_message info);
     minihtml_text := None; level := Some (info_level info);
     span := None; path := None; code := None; back_link := None;
     primary := true; parent := None; hidden := false |}.

Definition call_msg_cb (m : Message) (st : Collect) : Collect :=
  {| message := message st; console := console st ++ [m];
     next_id := S (next_id st) |}.

(** The branch for [len(info['spans']) == 0]. *)
Definition no_spans (info : Info) (pi : ParentInfo) (st : Collect)
    : ParentInfo * Collect :=
  match pi with
  | Some ps =>
      (pi, add_additional ps (Some (info_message info)) (info_level info) st)
  | None =>
      let imsg := info_message info in
      if negb (startswith imsg "aborting due to"
               || startswith imsg "cannot continue")
      then
        match target_path with
        | Some tp =>
            if truthy target_path
            then set_primary_message info (fake_span tp) imsg st
            else if msg_cb then (pi, call_msg_cb (tmp_msg st info) st)
            else (pi, st)
        | None =>
            if msg_cb then (pi, call_msg_cb (tmp_msg st info) st)
            else (pi, st)
        end
      else (pi, st)
  end.

(** The macro block at the head of the span loop: the span the body
    goes on with, and the state. *)
Definition macro_block (info : Info) (span0 : Span) (st : Collect)
    : Span * Collect :=
  if contains MACROS (file_name span0) then
    let '(target_span, expansion1) := find_span_r span0 None in
    let span1 := updated_span target_span span0 in
    if contains MACROS (file_name span1) then
      let macro_name := file_name span1 in
      let span2 :=
        match target_path with
        | Some tp =>
            if truthy target_path
            then mkSpan tp None (column_start span1) (line_end span1)
                   (column_end span1) (is_primary span1) (span_text span1)
                   (label span1) (suggested_replacement span1)
                   (expansion span1)
            else span1
        | None => span1
        end in
      let st1 :=
        add_additional span2
          (Some ("Errors occurred in macro " +:+ macro_name
                 +:+ " from external crate"))
          (info_level info) st in
      let st2 :=
        add_additional span2
          (Some ("Macro text: " +:+ String.concat EmptyString (span_text span2)))
          (info_level info) st1 in
      (span2, st2)
    else
      let outside :=
        match expansion1 with
        | None => true
        | Some e =>
            match def_site_span e with
            | None => true
            | Some d => contains MACROS (file_name d)
            end
        end in
      if outside
      then (span1,
            add_additional span1
              (Some "this error originates in a macro outside of the current crate")
              (info_level info) st)
      else (span1, st)
  else (span0, st).

(** The message for the macro invocation site. *)
Definition invocation_site (span1 : Span) (st : Collect) : Collect :=
  match expansion span1 with
  | Some e =>
      if negb (contains MACROS (file_name span1))
         && negb (startswith (macro_decl_name e) "#[")
      then add_additional (fst (find_span_r span1 None))
             (Some "in this macro invocation") "help" st
      else st
  | None => st
  end.

(** [if span['is_primary']: ...] *)
Definition primary_span (info : Info) (span1 : Span) (pi : ParentInfo)
    (st : Collect) : ParentInfo * Collect :=
  if is_primary span1 then
    match pi with
    | Some _ =>
        (pi, add_additional span1 (Some (info_message info)) (info_level info) st)
    | None =>
        if negb (truthy (path (root (message st))))
        then set_primary_message info span1 (info_message info) st
        else (pi, st)
    end
  else (pi, st).

(** [if label is not None: ...] *)
Definition label_child (info : Info) (span1 : Span) (st : Collect) : Collect :=
  match label span1 with
  | Some l => add_additional span1 (Some l) (info_level info) st
  | None => st
  end.

(** [if span['suggested_replacement']: ...] *)
Definition replacement_child (span1 : Span) (st : Collect) : Collect :=
  match suggested_replacement span1 with
  | Some r =>
      if truthy (suggested_replacement span1)
      then append_child
             (new_child st span1 None "help"
                (Some (replacement_markup E (next_id st) r))) st
      else st
  | None => st
  end.

(** The body of [for span in info['spans']]. *)
Definition span_body (info : Info) (ps : ParentInfo * Collect) (span0 : Span)
    : ParentInfo * Collect :=
  let '(span1, st1) := macro_block info span0 (snd ps) in
  let st2 := invocation_site span1 st1 in
  let '(pi3, st3) := primary_span info span1 (fst ps) st2 in
  let st4 := label_child info span1 st3 in
  (pi3, replacement_child span1 st4).

(** The gate on warnings at the head of [_collect_rust_messages]. *)
Definition hide_gate (info : Info) (pi : ParentInfo) : bool :=
  negb (String.eqb (info_level info) "error")
  && rust_syntax_hide_warnings E
  && negb (bool_decide (is_Some pi)).

(** What one call does before it recurses into the children. *)
Definition collect_own (info : Info) (pi : ParentInfo) (st : Collect)
    : ParentInfo * Collect :=
  let ps :=
    match info_spans info with
    | [] => no_spans info pi st
    | _ :: _ => (pi, st)
    end in
  foldl (span_body info) ps (info_spans info).

Fixpoint _collect_rust_messages (info : Info) (parent_info : ParentInfo)
    (st : Collect) {struct info} : Collect :=
  if hide_gate info parent_info then st
  else
    let ps := collect_own info parent_info st in
    match info with
    | mkInfo _ _ _ _ cs =>
        (fix each_child (cs : list Info) (st : Collect) : Collect :=
           match cs with
           | [] => st
           | child :: cs' =>
               each_child cs' (_collect_rust_messages child (fst ps) st)
           end) cs (snd ps)
    end.

(** The loop over [info['children']], each with a copy of
    [parent_info]. *)
Definition collect_children (cs : list Info) (parent_info : ParentInfo)
    (st : Collect) : Collect :=
  foldl (fun st child => _collect_rust_messages child parent_info st) st cs.

(** What a call does for the record itself, the gate included. *)
Definition own_step (info : Info) (parent_info : ParentInfo) (st : Collect)
    : ParentInfo * Collect :=
  if hide_gate info parent_info then (parent_info, st)
  else collect_own info parent_info st.

End Collecting.

(** ** Cross links *)

Definition dq : string := String (Ascii.ascii_of_nat 34) EmptyString.

(** [s.replace(a, b)] for single characters. *)
Fixpoint replace_char (a b : Ascii.ascii) (s : string) : string :=
  match s with
  | EmptyString => EmptyString
  | String c s' =>
      String (if Ascii.eqb c a then b else c) (replace_char a b s')
  end.

(** The path of a message that has one.  [add_additional] and
    [set_primary_message] always set it, and [add_rust_messages] stops
    before the links when the primary message has none. *)
Definition path_of (m : Message) : string := default EmptyString (path m).

Definition make_file_path (m : Message) : string :=
  match span m with
  | Some r =>
      "file:///"
      +:+ replace_char (Ascii.ascii_of_nat 92) (Ascii.ascii_of_nat 47) (path_of m)
      +:+ ":" +:+ pretty (fst (fst r) + 1) +:+ ":" +:+ pretty (snd (fst r) + 1)
  | None => "file:///" +:+ path_of m +:+ ":999999999"
  end.

Definition make_back_link (primary_message : Message) : string :=
  "<a href=" +:+ dq +:+ make_file_path primary_message +:+ dq +:+ ">←</a>".

(** Whether a child is far away from the primary message. *)
Definition far_away (primary_message child : Message) : bool :=
  negb (bool_decide (path child = path primary_message))
  || bool_decide (5 < Z.abs (lineno child - lineno primary_message)).

Definition seen_key (child : Message) : option string * Z :=
  (path child, lineno child).

Definition set_back_link (child : Message) (b : string) : Message :=
  {| id := id child; region_key := region_key child; text := text child;
     minihtml_text := minihtml_text child; level := level child;
     span := span child; path := path child; code := code child;
     back_link := Some b; primary := primary child; parent := parent child;
     hidden := hidden child |}.

(** The state of the loop over the children: the keys seen, the link
    texts, and the children gone through (with their back links). *)
Record LinkLoop := {
  link_set : gset (option string * Z);
  links : list string;
  done_children : list Message }.

Section CrossLinks.

Variable E : Env.

Definition link_text (primary_message child : Message) : string :=
  let lineno_text :=
    match span child with
    | Some _ => ":" +:+ pretty (lineno child + 1)
    | None => EmptyString
    end in
  let filename :=
    if bool_decide (path child = path primary_message) then
      if bool_decide (lineno child < lineno primary_message) then "↑" else "↓"
    else basename E (path_of child) in
  link_markup E (make_file_path child) filename lineno_text.

Definition link_step (primary_message : Message) (acc : LinkLoop)
    (child : Message) : LinkLoop :=
  if far_away primary_message child then
    if bool_decide (seen_key child ∈ link_set acc) then
      {| link_set := link_set acc; links := links acc;
         done_children := done_children acc ++ [child] |}
    else
      {| link_set := {[ seen_key child ]} ∪ link_set acc;
         links := links acc ++ [link_text primary_message child];
         done_children :=
           done_children acc
           ++ [set_back_link child (make_back_link primary_message)] |}
  else
    {| link_set := link_set acc; links := links acc;
       done_children := done_children acc ++ [child] |}.

(** The message object made for one link text. *)
Definition link_message (primary_message : Message) (i : nat)
    (link_text0 : string) : Message :=
  {| id := i; region_key := None; text := None;
     minihtml_text := Some link_text0; level := level primary_message;
     span := span primary_message; path := path primary_message;
     code := None; back_link := None; primary := false;
     parent := Some (id primary_message); hidden := false |}.

(** The messages of the second loop, with ids from [next] on. *)
Definition link_messages (primary_message : Message) (next : nat)
    (texts : list string) : list Message :=
  imap (fun k t => link_message primary_message (next + k)%nat t) texts.

Definition cross_link_loop (t : MessageTree) : LinkLoop :=
  foldl (link_step (root t))
    {| link_set := ∅; links := []; done_children := [] |} (children t).

Definition _create_cross_links (t : MessageTree) (next : nat)
    : MessageTree * nat :=
  let r := cross_link_loop t in
  ({| root := root t;
      children := done_children r ++ link_messages (root t) next (links r) |},
   (next + length (links r))%nat).

End CrossLinks.

(** ** Markup of a message and its children *)

Definition set_minihtml_text (m : Message) (t : string) : Message :=
  {| id := id m; region_key := region_key m; text := text m;
     minihtml_text := Some t; level := level m;
     span := span m; path := path m; code := code m;
     back_link := back_link m; primary := primary m; parent := parent m;
     hidden := hidden m |}.

Fixpoint repeat_string (s : string) (n : nat) : string :=
  match n with
  | O => EmptyString
  | S n' => s +:+ repeat_string s n'
  end.

Definition level_class (l : option string) : string :=
  match l with
  | Some "error" => "rust-error"
  | Some "warning" => "rust-warning"
  | Some "note" => "rust-note"
  | Some "help" => "rust-help"
  | _ => "rust-error"
  end.

Section Minihtml.

Variable E : Env.

Definition help_link (primary_message : Message) : string :=
  if truthy (code primary_message) then
    " <a href=" +:+ dq +:+ "https://doc.rust-lang.org/error-index.html#"
    +:+ default EmptyString (code primary_message) +:+ dq +:+ ">?</a>"
  else EmptyString.

(** One turn of the loop of [_create_minihtml]; the state is
    [(last_level, last_path)] and the messages gone through. *)
Definition minihtml_step (primary_message : Message)
    (acc : (option string * option string) * list Message) (msg : Message)
    : (option string * option string) * list Message :=
  let '((last_level, last_path), out) := acc in
  if truthy (minihtml_text msg) || negb (truthy (text msg)) then
    ((last_level, last_path), out ++ [msg])
  else
    let lvl := default EmptyString (level msg) in
    let indent := repeat_string "&nbsp;" (String.length lvl + 2) in
    let level_text :=
      if bool_decide (level msg = last_level)
         && bool_decide (path msg = last_path)
      then indent else lvl +:+ ": " in
    let close_link :=
      if primary msg
      then "<a href=" +:+ dq +:+ "hide" +:+ dq +:+ ">×</a>"
      else EmptyString in
    let content :=
      "<div class=" +:+ dq +:+ level_class (level msg) +:+ dq +:+ ">"
      +:+ level_text
      +:+ escape_and_link E indent (default EmptyString (text msg))
      +:+ help_link primary_message
      +:+ default EmptyString (back_link msg)
      +:+ close_link +:+ "</div>" in
    ((level msg, path msg), out ++ [set_minihtml_text msg content]).

Definition _create_minihtml (t : MessageTree) : MessageTree :=
  match snd (foldl (minihtml_step (root t)) ((None, None), []) (iter t)) with
  | r :: cs => {| root := r; children := cs |}
  | [] => t
  end.

End Minihtml.

(** ** The messages of the windows *)

(** [collections.OrderedDict] from paths to lists: an association list
    in insertion order, one pair per key. *)
Abbreviation OrderedDict A := (list (string * A)).

Fixpoint od_get {A} (d : OrderedDict A) (k : string) : option A :=
  match d with
  | [] => None
  | (k', v) :: d' => if String.eqb k' k then Some v else od_get d' k
  end.

(** [d.setdefault(k, v)], the dict afterwards. *)
Fixpoint setdefault {A} (d : OrderedDict A) (k : string) (v : A)
    : OrderedDict A :=
  match d with
  | [] => [(k, v)]
  | (k', x) :: d' =>
      if String.eqb k' k then d else (k', x) :: setdefault d' k v
  end.

(** An update in place of the value under [k]. *)
Fixpoint od_alter {A} (f : A -> A) (k : string) (d : OrderedDict A)
    : OrderedDict A :=
  match d with
  | [] => []
  | (k', x) :: d' =>
      if String.eqb k' k then (k', f x) :: d' else (k', x) :: od_alter f k d'
  end.

(** The value of [WINDOW_MESSAGES] for one window. *)
Record WindowInfo := {
  paths : OrderedDict (list Message);
  msg_index : Z * Z }.

Definition new_WindowInfo : WindowInfo :=
  {| paths := []; msg_index := (-1, -1) |}.

(** The global state: [WINDOW_MESSAGES], the messages handed to
    [msg_cb] so far, and the next fresh id. *)
Record World := {
  WINDOW_MESSAGES : gmap nat WindowInfo;
  callbacks : list Message;
  fresh : nat }.

Definition set_region_key (m : Message) (k : string) : Message :=
  {| id := id m; region_key := Some k; text := text m;
     minihtml_text := minihtml_text m; level := level m;
     span := span m; path := path m; code := code m;
     back_link := back_link m; primary := primary m; parent := parent m;
     hidden := hidden m |}.

(** [add_message].  The result is [None] where Python raises: the test
    ['macros>' in message.path] on a message without a path.  The
    phantom drawn in an open view is outside the model. *)
Definition add_message (msg_cb : bool) (wid : nat) (m : Message) (w : World)
    : option World :=
  match path m with
  | None => None
  | Some p =>
      if contains MACROS p then Some w
      else
        let wm :=
          match WINDOW_MESSAGES w !! wid with
          | Some _ => WINDOW_MESSAGES w
          | None => <[wid := new_WindowInfo]> (WINDOW_MESSAGES w)
          end in
        let info := default new_WindowInfo (wm !! wid) in
        let messages_by_path := setdefault (paths info) p [] in
        let messages := default [] (od_get messages_by_path p) in
        if existsb (fun other => is_similar m other) messages then
          Some {| WINDOW_MESSAGES :=
                    <[wid := {| paths := messages_by_path;
                                msg_index := msg_index info |}]> wm;
                  callbacks := callbacks w; fresh := fresh w |}
        else
          let m' :=
            set_region_key m ("rust-" +:+ pretty (S (length messages))) in
          Some {| WINDOW_MESSAGES :=
                    <[wid := {| paths :=
                                  od_alter (fun l => l ++ [m']) p
                                    messages_by_path;
                                msg_index := msg_index info |}]> wm;
                  callbacks :=
                    if msg_cb then callbacks w ++ [m'] else callbacks w;
                  fresh := fresh w |}
  end.

(** [for msg in primary_message: add_message(window, msg, msg_cb)] *)
Fixpoint add_messages (msg_cb : bool) (wid : nat) (ms : list Message)
    (w : World) : option World :=
  match ms with
  | [] => Some w
  | m :: ms' =>
      match add_message msg_cb wid m w with
      | Some w' => add_messages msg_cb wid ms' w'
      | None => None
      end
  end.

(** What cargo or rustc emit: a bare diagnostic, or one wrapped with a
    ['reason'] ([cargo_message] is read only for ['compiler-message']). *)
Inductive Raw : Type :=
| Rustc (info : Info)
| Cargo (reason : string) (cargo_message : Info).

Definition add_rust_messages (E : Env) (wid : nat) (base_path : string)
    (raw : Raw) (target_path : option string) (msg_cb : bool) (w : World)
    : option World :=
  let unwrapped :=
    match raw with
    | Rustc info => Some info
    | Cargo reason info =>
        if String.eqb reason "compiler-message" then Some info else None
    end in
  match unwrapped with
  | None => Some w
  | Some info =>
      let st0 :=
        {| message := {| root := new_Message (fresh w); children := [] |};
           console := callbacks w; next_id := S (fresh w) |} in
      let st := _collect_rust_messages E base_path target_path msg_cb info None st0 in
      if negb (truthy (path (root (message st)))) then
        Some {| WINDOW_MESSAGES := WINDOW_MESSAGES w;
                callbacks := console st; fresh := next_id st |}
      else
        let '(t1, n1) := _create_cross_links E (message st) (next_id st) in
        let t2 := _create_minihtml E t1 in
        add_messages msg_cb wid (iter t2)
          {| WINDOW_MESSAGES := WINDOW_MESSAGES w;
             callbacks := console st; fresh := n1 |}
  end.

(** [clear_messages], without the erasing in the views. *)
Definition clear_messages (wid : nat) (w : World) : World :=
  {| WINDOW_MESSAGES := delete wid (WINDOW_MESSAGES w);
     callbacks := callbacks w; fresh := fresh w |}.

(** *** Dismissing *)

Definition set_hidden (b : bool) (m : Message) : Message :=
  {| id := id m; region_key := region_key m; text := text m;
     minihtml_text := minihtml_text m; level := level m;
     span := span m; path := path m; code := code m;
     back_link := back_link m; primary := primary m; parent := parent m;
     hidden := b |}.

(** The primary message [dismiss] ends up at: the parent, if any. *)
Definition dismiss_root (m : Message) : nat :=
  match parent m with
  | Some p => p
  | None => id m
  end.

(** Whether a message object is the primary message [r] or one of its
    children. *)
Definition in_tree_of (r : nat) (x : Message) : bool :=
  bool_decide (id x = r) || bool_decide (parent x = Some r).

(** [Message.dismiss]: the primary message and all its children get
    [hidden = True].  The lists of the window hold the same objects as
    the primary message's [children], so the flag shows on every stored
    message of that tree; the erasing in the views is outside the
    model. *)
Definition dismiss (m : Message) (info : WindowInfo) : WindowInfo :=
  {| paths :=
       (fun pm : string * list Message =>
          (fst pm,
           (fun x => if in_tree_of (dismiss_root m) x
                     then set_hidden true x else x) <$> snd pm))
       <$> paths info;
     msg_index := msg_index info |}.

(** *** Sorting *)

Definition level_rank (l : option string) : Z :=
  match l with
  | Some "error" => 0
  | Some "warning" => 1
  | Some "note" => 2
  | Some "help" => 3
  | _ => 0
  end.

(** The tuples [(level, path, message.lineno(), message)]. *)
Definition Item : Type := Z * string * Z * Message.

Definition item_path (it : Item) : string := snd (fst (fst it)).
Definition item_message (it : Item) : Message := snd it.

(** [x[:3]] *)
Definition item_key (it : Item) : Z * string * Z := fst it.

(** Python's [<=] on the key tuples: by level, then path, then line. *)
Definition key_le (k1 k2 : Z * string * Z) : bool :=
  let '(l1, p1, n1) := k1 in
  let '(l2, p2, n2) := k2 in
  (l1 <? l2)
  || ((l1 =? l2)
      && (String.ltb p1 p2 || (String.eqb p1 p2 && (n1 <=? n2)))).

(** [list.sort] is stable: equal keys keep their order.  Insertion from
    the right gives that order. *)
Fixpoint insert_item (x : Item) (l : list Item) : list Item :=
  match l with
  | [] => [x]
  | y :: l' =>
      if key_le (item_key x) (item_key y) then x :: l
      else y :: insert_item x l'
  end.

Definition sort_items (l : list Item) : list Item := foldr insert_item [] l.

(** The items of the messages of one path. *)
Definition path_items (pm : string * list Message) : list Item :=
  (fun m => (level_rank (level m), fst pm, lineno m, m)) <$> snd pm.

Definition items_of (d : OrderedDict (list Message)) : list Item :=
  flat_map path_items d.

(** [messages_by_path.setdefault(path, []).append(message)] *)
Definition regroup_step (d : OrderedDict (list Message)) (it : Item)
    : OrderedDict (list Message) :=
  od_alter (fun l => l ++ [item_message it]) (item_path it)
    (setdefault d (item_path it) []).

Definition sorted_paths (d : OrderedDict (list Message))
    : OrderedDict (list Message) :=
  foldl regroup_step [] (sort_items (items_of d)).

Definition _sort_messages (E : Env) (wid : nat) (w : World) : World :=
  if negb (rust_sort_messages E) then w
  else
    match WINDOW_MESSAGES w !! wid with
    | None => w
    | Some window_info =>
        {| WINDOW_MESSAGES :=
             <[wid := {| paths := sorted_paths (paths window_info);
                         msg_index := msg_index window_info |}]>
               (WINDOW_MESSAGES w);
           callbacks := callbacks w; fresh := fresh w |}
    end.

(** *** Next and previous message *)

Definition _is_matching_level (levels : string) (m : Message) : bool :=
  if negb (primary m) then false
  else if String.eqb levels "all" then true
  else if String.eqb levels "error" && bool_decide (level m = Some "error")
  then true
  else if String.eqb levels "warning"
          && negb (bool_decide (level m = Some "error"))
  then true
  else false.

(** The inner loop [while msg_idx < len(messages)], on the messages
    from [msg_idx] on. *)
Fixpoint first_match (levels : string) (rest : list Message) (msg_idx : nat)
    : option nat :=
  match rest with
  | [] => None
  | msg :: rest' =>
      if _is_matching_level levels msg then Some msg_idx
      else first_match levels rest' (S msg_idx)
  end.

(** The outer loop [while path_idx < len(paths)], on the paths from
    [path_idx] on. *)
Fixpoint scan_paths (levels : string) (rest : OrderedDict (list Message))
    (path_idx msg_idx : nat) : option (nat * nat) :=
  match rest with
  | [] => None
  | (_, messages) :: rest' =>
      match first_match levels (drop msg_idx messages) msg_idx with
      | Some i => Some (path_idx, i)
      | None => scan_paths levels rest' (S path_idx) 0
      end
  end.

(** Where the scan starts, from the stored index. *)
Definition next_start (idx : Z * Z) : nat * nat :=
  if fst idx =? -1 then (0%nat, 0%nat)
  else (Z.to_nat (fst idx), Z.to_nat (snd idx + 1)).

Definition next_scan (levels : string) (info : WindowInfo)
    : option (nat * nat) :=
  let '(path_idx, msg_idx) := next_start (msg_index info) in
  scan_paths levels (drop path_idx (paths info)) path_idx msg_idx.

Definition set_msg_index (wid : nat) (info : WindowInfo) (idx : Z * Z)
    (w : World) : World :=
  {| WINDOW_MESSAGES :=
       <[wid := {| paths := paths info; msg_index := idx |}]>
         (WINDOW_MESSAGES w);
     callbacks := callbacks w; fresh := fresh w |}.

(** The body of [_advance_next_message]; [again] is the call it makes
    on itself with [wrap_around=True]. *)
Definition advance_next_body (levels : string) (wrap_around : bool)
    (again : World -> option (Z * Z) * World) (wid : nat) (w : World)
    : option (Z * Z) * World :=
  match WINDOW_MESSAGES w !! wid with
  | None => (None, w)
  | Some win_info =>
      match next_scan levels win_info with
      | Some (path_idx, msg_idx) =>
          let current_idx := (Z.of_nat path_idx, Z.of_nat msg_idx) in
          (Some current_idx, set_msg_index wid win_info current_idx w)
      | None =>
          if wrap_around then (None, w)
          else again (set_msg_index wid win_info (-1, -1) w)
      end
  end.

(** The call with [wrap_around=True] never calls itself. *)
Definition _advance_next_message_wrapped (levels : string) (wid : nat)
    (w : World) : option (Z * Z) * World :=
  advance_next_body levels true (fun w' => (None, w')) wid w.

Definition _advance_next_message (levels : string) (wid : nat) (w : World)
    : option (Z * Z) * World :=
  advance_next_body levels false (_advance_next_message_wrapped levels wid)
    wid w.

(** What a backward scan comes to: an index, nothing, or a Python
    exception (an index past the end of a list). *)
Inductive Outcome : Type :=
| Found (idx : nat * nat)
| NotFound
| Raised.

(** The inner loop [while msg_idx >= 0], with [n = msg_idx + 1]. *)
Fixpoint last_match (levels : string) (messages : list Message) (n : nat)
    : option (option nat) :=
  match n with
  | O => Some None
  | S i =>
      match messages !! i with
      | None => None
      | Some msg =>
          if _is_matching_level levels msg then Some (Some i)
          else last_match levels messages i
      end
  end.

(** The outer loop [while path_idx >= 0], with [np = path_idx + 1] and
    [nm = msg_idx + 1]. *)
Fixpoint scan_paths_back (levels : string) (d : OrderedDict (list Message))
    (np nm : nat) : Outcome :=
  match np with
  | O => NotFound
  | S p =>
      match d !! p with
      | None => Raised
      | Some (_, messages) =>
          match last_match levels messages nm with
          | None => Raised
          | Some (Some i) => Found (p, i)
          | Some None =>
              scan_paths_back levels d p
                (match p with
                 | O => O
                 | S p' => length (default [] (snd <$> d !! p'))
                 end)
          end
      end
  end.

Definition prev_scan (levels : string) (info : WindowInfo) : Outcome :=
  let d := paths info in
  if fst (msg_index info) =? -1 then
    match length d with
    | O => Raised
    | S p => scan_paths_back levels d (S p) (length (default [] (snd <$> d !! p)))
    end
  else
    scan_paths_back levels d (Z.to_nat (fst (msg_index info) + 1))
      (Z.to_nat (snd (msg_index info))).

(** The body of [_advance_prev_message]; the outer [None] is a raised
    exception. *)
Definition advance_prev_body (levels : string) (wrap_around : bool)
    (again : World -> option (option (Z * Z) * World)) (wid : nat) (w : World)
    : option (option (Z * Z) * World) :=
  match WINDOW_MESSAGES w !! wid with
  | None => Some (None, w)
  | Some win_info =>
      match prev_scan levels win_info with
      | Raised => None
      | Found (path_idx, msg_idx) =>
          let current_idx := (Z.of_nat path_idx, Z.of_nat msg_idx) in
          Some (Some current_idx, set_msg_index wid win_info current_idx w)
      | NotFound =>
          if wrap_around then Some (None, w)
          else again (set_msg_index wid win_info (-1, -1) w)
      end
  end.

Definition _advance_prev_message_wrapped (levels : string) (wid : nat)
    (w : World) : option (option (Z * Z) * World) :=
  advance_prev_body levels true (fun w' => Some (None, w')) wid w.

Definition _advance_prev_message (levels : string) (wid : nat) (w : World)
    : option (option (Z * Z) * World) :=
  advance_prev_body levels false (_advance_prev_message_wrapped levels wid)
    wid w.

(** *** The list of all messages *)

(** [jump_to] and [panel_items] of [list_messages], entry by entry: the
    index, the text and the path label.  [relative_path] stands for
    [_relative_path(window, path)]. *)
Definition list_entries (relative_path : string -> string)
    (d : OrderedDict (list Message))
    : list ((nat * nat) * (option string * string)) :=
  concat
    (imap (fun path_idx (pm : string * list Message) =>
             omap (fun x => x)
               (imap (fun msg_idx (m : Message) =>
                        if negb (primary m) then None
                        else
                          Some ((path_idx, msg_idx),
                                (text m,
                                 match span m with
                                 | Some r =>
                                     relative_path (fst pm) +:+ ":"
                                     +:+ pretty (fst (fst r) + 1)
                                 | None => relative_path (fst pm)
                                 end)))
                     (snd pm)))
          d).

(** [list_messages]: [None] is the panel "No messages available". *)
Definition list_messages (relative_path : string -> string) (wid : nat)
    (w : World) : option (list ((nat * nat) * (option string * string))) :=
  list_entries relative_path <$> (paths <$> WINDOW_MESSAGES w !! wid).

(** [has_message_for_path]: [path in paths]. *)
Definition has_message_for_path (wid : nat) (p : string) (w : World) : bool :=
  match WINDOW_MESSAGES w !! wid with
  | Some info => bool_decide (is_Some (od_get (paths info) p))
  | None => false
  end.

(** ** What is drawn in a view *)

(** A call of [_sublime_add_phantom]: the key, the span the region is
    made from, and the markup handed to [_wrap_css]. *)
Record Phantom := {
  ph_key : option string;
  ph_span : option Region;
  ph_content : string }.

(** [_show_phantom]: the phantom that is added, if one is. *)
Definition _show_phantom (E : Env) (m : Message) : option Phantom :=
  if negb (rust_phantom_style_normal E) then None
  else if hidden m || negb (truthy (minihtml_text m)) then None
  else Some {| ph_key := region_key m; ph_span := span m;
               ph_content := default EmptyString (minihtml_text m) |}.

(** The settings [_draw_region_highlights] reads, and the name of the
    package. *)
Record Style := {
  (** setting [rust_region_style] is ['none'] *)
  rust_region_style_none : bool;
  (** setting [rust_gutter_style] *)
  rust_gutter_style : string;
  (** [__package__.split('.')[0]] *)
  package_name : string }.

(** A call of [_sublime_add_regions]: the key, the span the region is
    made from, the scope and the icon. *)
Record RegionCall := {
  rc_key : option string;
  rc_span : option Region;
  rc_scope : string;
  rc_icon : string }.

(** [message.level in regions] *)
Definition in_regions (l : option string) : bool :=
  match l with
  | Some s => bool_decide (s ∈ ["error"; "warning"; "note"; "help"])
  | None => false
  end.

Definition set_level (m : Message) (l : string) : Message :=
  {| id := id m; region_key := region_key m; text := text m;
     minihtml_text := minihtml_text m; level := Some l;
     span := span m; path := path m; code := code m;
     back_link := back_link m; primary := primary m; parent := parent m;
     hidden := hidden m |}.

(** What the first loop makes of a message: a hidden one is passed
    over, one with an unknown level gets the level ['error']. *)
Definition draw_step (m : Message) : Message :=
  if hidden m then m
  else if in_regions (level m) then m
  else set_level m "error".

(** [regions[level]] after the first loop over the messages [ms], which
    are the messages as the loop left them. *)
Definition regions_at (lvl : string) (ms : list Message) : list Message :=
  filter (fun m => hidden m = false /\ level m = Some lvl) ms.

Definition icon_of (S : Style) (lvl : string) : string :=
  if String.eqb (rust_gutter_style S) "none" then EmptyString
  else "Packages/" +:+ package_name S +:+ "/images/gutter/"
       +:+ rust_gutter_style S +:+ "-" +:+ lvl +:+ ".png".

Definition region_call (S : Style) (lvl : string) (m : Message) : RegionCall :=
  {| rc_key := region_key m; rc_span := span m;
     rc_scope := if String.eqb lvl "error" then "invalid" else "info";
     rc_icon := icon_of S lvl |}.

(** [_draw_region_highlights]: the calls of [_sublime_add_regions] in
    their order, and the messages, whose levels the first loop may
    have written. *)
Definition _draw_region_highlights (S : Style) (ms : list Message)
    : list RegionCall * list Message :=
  if rust_region_style_none S then ([], ms)
  else
    let ms' := draw_step <$> ms in
    (flat_map (fun lvl => region_call S lvl <$> regions_at lvl ms')
       ["help"; "note"; "warning"; "error"],
     ms').

(** [_show_messages_for_view] for the messages of a path: the
    phantoms, the region calls, and the messages afterwards. *)
Definition _show_messages_for_view (E : Env) (S : Style) (ms : list Message)
    : list Phantom * list RegionCall * list Message :=
  (omap (_show_phantom E) ms,
   fst (_draw_region_highlights S ms),
   snd (_draw_region_highlights S ms)).

(** ** The syntax check on save *)

(** The fields of [RustSyntaxCheckThread] that [get_rustc_messages]
    and [on_json] write. *)
Record Thread := {
  this_view_found : bool;
  current_target_src : option string }.

Section SyntaxCheck.

Variable E : Env.
(** [self.window], [self.cwd] and [self.triggered_file_name] *)
Variable wid : nat.
Variable cwd : string.
Variable triggered_file_name : string.
(** The JSON objects the process of a command prints. *)
Variable output_of : list string -> list Raw.
(** settings [rust_syntax_checking_method] and
    [rust_syntax_checking_include_tests] *)
Variable method : string.
Variable include_tests : bool.

Definition on_json (obj : Raw) (s : Thread * World) : option (Thread * World) :=
  match add_rust_messages E wid cwd obj (current_target_src (fst s)) false
          (snd s) with
  | Some w' =>
      Some ({| this_view_found :=
                 if has_message_for_path wid triggered_file_name w' then true
                 else this_view_found (fst s);
               current_target_src := current_target_src (fst s) |},
            w')
  | None => None
  end.

(** [p.run(self.window, cmd, self.cwd, self); p.wait()]: [on_json] for
    every object of the output.  A check that is cancelled
    ([ProcessTerminatedError]) is outside the model. *)
Fixpoint run_proc (objs : list Raw) (s : Thread * World)
    : option (Thread * World) :=
  match objs with
  | [] => Some s
  | obj :: objs' =>
      match on_json obj s with
      | Some s' => run_proc objs' s'
      | None => None
      end
  end.

(** The command for one target. *)
Definition target_command (target_args : list string) : list string :=
  if String.eqb method "check" then
    ["cargo"; "check"; "--message-format=json"] ++ target_args
  else
    ["cargo"; "rustc"] ++ target_args
    ++ ["--"; "-Zno-trans"; "-Zunstable-options"; "--error-format=json"]
    ++ (if include_tests
           && negb (bool_decide ("--test" ∈ target_args)
                    || bool_decide ("--bench" ∈ target_args))
        then ["--test"] else []).

(** The loop over the targets: the commands that were run, and the
    state. *)
Fixpoint check_targets (targets : list (string * list string))
    (s : Thread * World) : option (list (list string) * (Thread * World)) :=
  match targets with
  | [] => Some ([], s)
  | (target_src, target_args) :: targets' =>
      let cmd := target_command target_args in
      let s0 := ({| this_view_found := this_view_found (fst s);
                    current_target_src := Some target_src |}, snd s) in
      match run_proc (output_of cmd) s0 with
      | Some s1 =>
          if this_view_found (fst s1) then Some ([cmd], s1)
          else
            match check_targets targets' s1 with
            | Some (cmds, s2) => Some (cmd :: cmds, s2)
            | None => None
            end
      | None => None
      end
  end.

(** [get_rustc_messages], given the targets of
    [td.determine_targets(self.triggered_file_name)]. *)
Definition get_rustc_messages (targets : list (string * list string))
    (s : Thread * World) : option (list (list string) * (Thread * World)) :=
  if String.eqb method "clippy" then
    let cmd := ["cargo"; "+nightly"; "clippy"; "--message-format=json"] in
    match run_proc (output_of cmd) s with
    | Some s' => Some ([cmd], s')
    | None => None
    end
  else check_targets targets s.

End SyntaxCheck.

(** * Notions the properties are stated with *)

(** ** A host for the examples *)

(** Paths are joined as on a POSIX system without symbolic links; the
    templates are kept short. *)
Definition posix (hide_warnings : bool) : Env :=
  {| realpath_join :=
       fun base name =>
         if String.prefix "/" name then name else base +:+ "/" +:+ name;
     basename := fun p => p;
     replacement_markup := fun i r => "replace:" +:+ pretty i +:+ ":" +:+ r;
     link_markup := fun url filename l => "Note: " +:+ filename +:+ l;
     escape_and_link := fun indent t => t;
     rust_syntax_hide_warnings := hide_warnings;
     rust_sort_messages := true;
     rust_phantom_style_normal := true |}.

(** A span of one line, columns 5 to 8. *)
Definition span_at (name : string) (line : Z) (prim : bool)
    (lab : option string) (e : option Expansion) : Span :=
  mkSpan name (Some line) 5 line 8 prim [] lab None e.

(** The state [add_rust_messages] starts the collection in. *)
Definition start (i : nat) : Collect :=
  {| message := {| root := new_Message i; children := [] |};
     console := []; next_id := S i |}.

(** ** Span resolution *)

(** [expansion_chain leaf root]: following the expansions from [leaf]
    ends at [root], the only span of the chain without an expansion. *)
Inductive expansion_chain : Span -> Span -> Prop :=
| chain_root s : expansion s = None -> expansion_chain s s
| chain_step s e r :
    expansion s = Some e -> expansion_chain (exp_span e) r ->
    expansion_chain s r.

Definition location (s : Span) : string * option Z * Z * Z * Z :=
  (file_name s, line_start s, column_start s, line_end s, column_end s).

Definition content_flags (s : Span) : bool * option string * option string :=
  (is_primary s, label s, suggested_replacement s).

(** The resolved span has the root's location and the leaf's flags. *)
Definition resolves_to_root (leaf root0 : Span) : Prop :=
  location (resolve_span leaf) = location root0
  /\ content_flags (resolve_span leaf) = content_flags leaf.

(** A leaf in a local file with a macro invocation one file away. *)
Definition local_root : Span := span_at "src/main.rs" 3 false None None.
Definition local_leaf : Span :=
  span_at "src/lib.rs" 10 true (Some "expected u32")
    (Some (mkExpansion local_root "m!" None)).

(** A leaf in a macro file, two expansions away from its root. *)
Definition std_root : Span := span_at "src/main.rs" 7 false None None.
Definition std_mid : Span :=
  span_at "<std macros>" 2 false None
    (Some (mkExpansion std_root "println!" None)).
Definition std_leaf : Span :=
  span_at "<std macros>" 1 true (Some "expected u32")
    (Some (mkExpansion std_mid "print!" None)).

(** ** The entries of one diagnostic *)

(** What [is_similar] compares: path, span, level and text. *)
Definition Content : Type :=
  option string * option Region * option string * option string.

Definition content (m : Message) : Content :=
  (path m, span m, level m, text m).

(** [st'] has the root of [st] and its children, then maybe more. *)
Definition extends (st st' : Collect) : Prop :=
  root (message st') = root (message st)
  /\ children (message st) `prefix_of` children (message st').

(** The contents of the children [st'] has after those of [st]. *)
Definition new_contents (st st' : Collect) : list Content :=
  content <$> drop (length (children (message st))) (children (message st')).

Section Entries.

Variable E : Env.
Variable base_path : string.
Variable target_path : option string.
Variable msg_cb : bool.

(** An entry at a span, with a level and a text. *)
Definition entry_at (s : Span) (lvl : string) (txt : option string) : Content :=
  (Some (make_span_path E base_path s), make_span_region s, Some lvl, txt).

(** The span the loop body goes on with after the macro block. *)
Definition macro_span (span0 : Span) : Span :=
  let span1 := resolve_span span0 in
  if contains MACROS (file_name span0) && contains MACROS (file_name span1)
  then
    match target_path with
    | Some tp =>
        if truthy target_path
        then mkSpan tp None (column_start span1) (line_end span1)
               (column_end span1) (is_primary span1) (span_text span1)
               (label span1) (suggested_replacement span1) (expansion span1)
        else span1
    | None => span1
    end
  else span1.

(** The state of the loop body just before the label of the span is
    looked at. *)
Definition before_label (info : Info) (pi : ParentInfo) (st : Collect)
    (s : Span) : Collect :=
  snd (primary_span E base_path info (macro_span s) pi
         (invocation_site E base_path (macro_span s)
            (snd (macro_block E base_path target_path info s st)))).

(** The entry for the label of a span, under a rule that says which
    labels get one. *)
Definition label_entries (rule : string -> string -> bool) (info : Info)
    (s1 : Span) : list Content :=
  match label s1 with
  | Some l =>
      if rule l (info_message info)
      then [entry_at s1 (info_level info) (Some l)]
      else []
  | None => []
  end.

(** Every label that is present. *)
Definition any_label (l main : string) : bool := true.

(** The labels that are not empty and differ from the main message. *)
Definition nonempty_distinct_label (l main : string) : bool :=
  negb (String.eqb l EmptyString) && negb (String.eqb l main).

Definition replacement_entries (s1 : Span) : list Content :=
  if truthy (suggested_replacement s1) then [entry_at s1 "help" None] else [].

(** The loop body adds, after what the steps before the label added,
    the label entry of the rule and then the replacement entry. *)
Definition label_rule_holds (rule : string -> string -> bool) (info : Info)
    (pi : ParentInfo) (st : Collect) (s : Span) : Prop :=
  new_contents st (snd (span_body E base_path target_path info (pi, st) s))
  = new_contents st (before_label info pi st s)
    ++ label_entries rule info (macro_span s)
    ++ replacement_entries (macro_span s).

(** The first primary span of a top-level record is the primary
    message, every later primary span is a child with the main
    message. *)
Definition first_primary_is_entry (info : Info) (st : Collect) : Prop :=
  forall pre s post,
    info_spans info = pre ++ s :: post ->
    Forall (fun x => is_primary x = false) pre ->
    is_primary s = true ->
    let t :=
      message (_collect_rust_messages E base_path target_path msg_cb info
                 None st) in
    content (root t)
    = entry_at (macro_span s) (info_level info) (Some (info_message info))
    /\ forall s2, s2 ∈ post -> is_primary s2 = true ->
         exists c, c ∈ children t
           /\ content c
              = entry_at (macro_span s2) (info_level info)
                  (Some (info_message info))
           /\ primary c = false.

(** Whether the text of a global message is on the list of the
    uninteresting ones. *)
Definition uninteresting (imsg : string) : bool :=
  startswith imsg "aborting due to" || startswith imsg "cannot continue".

(** What a top-level record without spans comes to: nothing for the
    uninteresting texts; else the primary message at the target path
    without a region, when there is a target path; else only the
    callback, with level and text, and nothing in the tree. *)
Definition global_message_outcome (info : Info) (st : Collect) : Prop :=
  let st' := snd (own_step E base_path target_path msg_cb info None st) in
  if uninteresting (info_message info) then st' = st
  else
    match target_path with
    | Some tp =>
        if truthy target_path then
          content (root (message st'))
          = (Some (realpath_join E base_path tp), None,
             Some (info_level info), Some (info_message info))
          /\ primary (root (message st')) = true
          /\ children (message st') = children (message st)
          /\ console st' = console st
        else
          message st' = message st
          /\ console st'
             = console st ++ (if msg_cb then [tmp_msg st info] else [])
    | None =>
        message st' = message st
        /\ console st'
           = console st ++ (if msg_cb then [tmp_msg st info] else [])
    end.

End Entries.

(** The number of messages stored for a window. *)
Definition entry_count (wid : nat) (w : World) : nat :=
  match WINDOW_MESSAGES w !! wid with
  | Some info => length (concat (snd <$> paths info))
  | None => O
  end.

(** Records for the examples: two primary spans, the second with an
    empty label. *)
Definition two_primary (lvl : string) : Info :=
  mkInfo "cannot borrow" lvl None
    [span_at "src/main.rs" 10 true None None;
     span_at "src/main.rs" 20 true (Some EmptyString) None] [].

(** A global message. *)
Definition no_main (lvl : string) : Info :=
  mkInfo "main function not found" lvl None [] [].

(** A span with an empty label, as rustc gives for messages with
    several spans. *)
Definition empty_label_span : Span :=
  span_at "src/main.rs" 20 false (Some EmptyString) None.

(** ** The links of a tree *)

(** The keys of the children that are far away. *)
Definition far_keys (p : Message) (cs : list Message)
    : gset (option string * Z) :=
  list_to_set (seen_key <$> filter (fun c => far_away p c = true) cs).

(** No child before number [i] has the path and line of [c]. *)
Definition first_with_key (cs : list Message) (i : nat) (c : Message) : bool :=
  bool_decide (seen_key c ∉ seen_key <$> take i cs).

(** Rules that say which children get a back link. *)
Definition every_far_child (p : Message) (cs : list Message) (i : nat)
    (c : Message) : bool :=
  far_away p c.

Definition first_far_child (p : Message) (cs : list Message) (i : nat)
    (c : Message) : bool :=
  far_away p c && first_with_key cs i c.

(** The children that get a back link under the rule
    [first_far_child], in their order: of the children far away, the
    first one at each path and line. *)
Definition first_far_children (p : Message) (cs : list Message)
    : list Message :=
  omap (fun o : option Message => o)
    (imap (fun i c => if first_far_child p cs i c then Some c else None) cs).

(** The entry that leads from the primary message [p] to the child
    [c]: it sits at the place of [p], with the level of [p], as a child
    of [p] that is not primary, and its markup is the link to the place
    of [c]. *)
Definition forward_link (E : Env) (p : Message) (i : nat) (c : Message)
    : Message :=
  {| id := i; region_key := None; text := None;
     minihtml_text := Some (link_text E p c); level := level p;
     span := span p; path := path p; code := None; back_link := None;
     primary := false; parent := Some (id p); hidden := false |}.

(** The children keep their places; those the rule picks get the back
    link to the primary message, the others are left as they are; then
    come the forward links, one for each child of
    [first_far_children], in their order. *)
Definition links_follow
    (rule : Message -> list Message -> nat -> Message -> bool)
    (E : Env) (t : MessageTree) (next : nat) : Prop :=
  let t' := fst (_create_cross_links E t next) in
  (forall i c, children t !! i = Some c ->
     children t' !! i
     = Some (if rule (root t) (children t) i c
             then set_back_link c (make_back_link (root t))
             else c))
  /\ drop (length (children t)) (children t')
     = imap (fun k c => forward_link E (root t) (next + k) c)
         (first_far_children (root t) (children t)).

(** A message of the examples: a child at a line of [src/main.rs]. *)
Definition note_at (i : nat) (line : Z) (txt : string) : Message :=
  {| id := i; region_key := None; text := Some txt; minihtml_text := None;
     level := Some "note"; span := Some ((line, 0), (line, 1));
     path := Some "/p/src/main.rs"; code := None; back_link := None;
     primary := false; parent := Some O; hidden := false |}.

(** A primary message at line 0 of [src/main.rs]. *)
Definition error_at_top (lvl : string) (path0 : string) (i : nat) : Message :=
  {| id := i; region_key := None; text := Some "cannot borrow";
     minihtml_text := None; level := Some lvl;
     span := Some ((0, 0), (0, 1)); path := Some path0; code := None;
     back_link := None; primary := true; parent := None; hidden := false |}.

(** Two children on the same far line, one child nearby. *)
Definition same_line_tree : MessageTree :=
  {| root := error_at_top "error" "/p/src/main.rs" 0;
     children := [note_at 1 10 "first"; note_at 2 10 "second";
                  note_at 3 3 "near"] |}.

(** Two children far away on different lines. *)
Definition two_far_tree : MessageTree :=
  {| root := error_at_top "error" "/p/src/main.rs" 0;
     children := [note_at 1 10 "first"; note_at 2 20 "second"] |}.

(** ** The store *)

(** The messages stored for a window under a path. *)
Definition stored_at (wid : nat) (p : string) (w : World) : list Message :=
  match WINDOW_MESSAGES w !! wid with
  | Some info => default [] (od_get (paths info) p)
  | None => []
  end.

(** [add_message] has nothing to do for a message: its path is that of
    a macro of another crate, or a similar message is stored under its
    path. *)
Definition blocked (wid : nat) (m : Message) (w : World) : bool :=
  match path m with
  | Some p => contains MACROS p || existsb (fun other => is_similar m other)
                                     (stored_at wid p w)
  | None => false
  end.

(** No window has messages. *)
Definition no_windows : World :=
  {| WINDOW_MESSAGES := ∅; callbacks := []; fresh := O |}.

(** ** Going through the messages *)

(** The indices of the messages of one list that match, counted from
    [i]. *)
Fixpoint matches_in (levels : string) (ms : list Message) (i : nat)
    : list nat :=
  match ms with
  | [] => []
  | m :: ms' =>
      (if _is_matching_level levels m then [i] else [])
      ++ matches_in levels ms' (S i)
  end.

(** The indices [(path_idx, msg_idx)] of the matching messages, path
    by path and message by message, with paths counted from
    [path_idx]. *)
Fixpoint matching_from (levels : string) (d : OrderedDict (list Message))
    (path_idx : nat) : list (nat * nat) :=
  match d with
  | [] => []
  | (_, ms) :: d' =>
      (pair path_idx <$> matches_in levels ms 0)
      ++ matching_from levels d' (S path_idx)
  end.

Definition matching_indices (levels : string) (d : OrderedDict (list Message))
    : list (nat * nat) :=
  matching_from levels d 0.

Definition index_Z (i : nat * nat) : Z * Z := (Z.of_nat (fst i), Z.of_nat (snd i)).

(** The results of [n] calls of [_advance_next_message] in a row. *)
Fixpoint next_calls (levels : string) (wid : nat) (n : nat) (w : World)
    : list (option (Z * Z)) * World :=
  match n with
  | O => ([], w)
  | S n' =>
      let r := _advance_next_message levels wid w in
      let rs := next_calls levels wid n' (snd r) in
      (fst r :: fst rs, snd rs)
  end.

(** [i] is at [s] or after it, in the order of the scan. *)
Definition at_or_after (s i : nat * nat) : Prop :=
  (fst s < fst i \/ (fst s = fst i /\ snd s <= snd i))%nat.

#[global] Instance at_or_after_dec s i : Decision (at_or_after s i).
Proof. unfold at_or_after. apply _. Defined.

(** [x] comes before [y] in the order of the scan. *)
Definition before (x y : nat * nat) : Prop :=
  (fst x < fst y \/ (fst x = fst y /\ snd x < snd y))%nat.

#[global] Instance before_dec x y : Decision (before x y).
Proof. unfold before. apply _. Defined.

(** A window with an error, a note that is a child, and a warning in
    one file, and an error in another. *)
Definition child_note : Message := note_at 2 4 "borrow ends here".

Definition two_files : OrderedDict (list Message) :=
  [("/p/src/a.rs",
    [error_at_top "error" "/p/src/a.rs" 1; child_note;
     error_at_top "warning" "/p/src/a.rs" 3]);
   ("/p/src/b.rs", [error_at_top "error" "/p/src/b.rs" 4])].

Definition two_files_world : World :=
  {| WINDOW_MESSAGES :=
       {[ 1%nat := {| paths := two_files; msg_index := (-1, -1) |} ]};
     callbacks := []; fresh := 5 |}.

(** The window of [wid] holds the paths [d], and its index is unset
    ([pos = None]) or is the matching index number [k]
    ([pos = Some k]). *)
Definition cursor_at (levels : string) (wid : nat)
    (d : OrderedDict (list Message)) (pos : option nat) (w : World) : Prop :=
  exists info,
    WINDOW_MESSAGES w !! wid = Some info
    /\ paths info = d
    /\ match pos with
       | None => msg_index info = (-1, -1)
       | Some k =>
           exists idx,
             matching_indices levels d !! k = Some idx
             /\ msg_index info = index_Z idx
       end.

(** ** Hidden messages *)

(** The window with the [hidden] flags set by [f], all else as it
    was. *)
Definition rehide (f : Message -> bool) (info : WindowInfo) : WindowInfo :=
  {| paths :=
       (fun pm : string * list Message =>
          (fst pm, (fun x => set_hidden (f x) x) <$> snd pm))
       <$> paths info;
     msg_index := msg_index info |}.

(** The world with [info] as the value for the window [wid]. *)
Definition put_window (wid : nat) (info : WindowInfo) (w : World) : World :=
  {| WINDOW_MESSAGES := <[wid := info]> (WINDOW_MESSAGES w);
     callbacks := callbacks w; fresh := fresh w |}.

(** The message an index stands for. *)
Definition message_at (d : OrderedDict (list Message)) (idx : Z * Z)
    : option Message :=
  d !! Z.to_nat (fst idx) ≫= fun pm => snd pm !! Z.to_nat (snd idx).

(** The paths with the ids of the messages stored under them. *)
Definition stored_ids (info : WindowInfo) : list (string * list nat) :=
  (fun pm : string * list Message => (fst pm, id <$> snd pm)) <$> paths info.

(** Next, previous and the list never give a hidden message. *)
Definition hidden_are_skipped (levels : string) (wid : nat) (w : World)
    : Prop :=
  forall info, WINDOW_MESSAGES w !! wid = Some info ->
    (forall idx m,
       fst (_advance_next_message levels wid w) = Some idx ->
       message_at (paths info) idx = Some m -> hidden m = false)
    /\ (forall idx m w',
          _advance_prev_message levels wid w = Some (Some idx, w') ->
          message_at (paths info) idx = Some m -> hidden m = false)
    /\ (forall e m,
          e ∈ list_entries (fun p => p) (paths info) ->
          message_at (paths info) (index_Z (fst e)) = Some m ->
          hidden m = false).

(** A window with one error, dismissed. *)
Definition one_error : WindowInfo :=
  {| paths := [("/p/src/a.rs", [error_at_top "error" "/p/src/a.rs" 1])];
     msg_index := (-1, -1) |}.

Definition dismissed_world : World :=
  {| WINDOW_MESSAGES :=
       {[ 1%nat := dismiss (error_at_top "error" "/p/src/a.rs" 1) one_error ]};
     callbacks := []; fresh := 2 |}.

(** ** The order of the messages *)

(** The order the sort puts the items in. *)
Definition key_order (a b : Item) : Prop :=
  key_le (item_key a) (item_key b) = true.

(** All messages of the window, path by path, are in the order of the
    keys. *)
Definition in_total_order (d : OrderedDict (list Message)) : Prop :=
  StronglySorted key_order (items_of d).

(** The first item of each path. *)
Definition first_items (d : OrderedDict (list Message)) : list Item :=
  omap (fun pm => head (path_items pm)) d.

(** The messages of each path are in the order of the keys, and so
    are the first messages of the paths. *)
Definition in_grouped_order (d : OrderedDict (list Message)) : Prop :=
  Forall (fun pm => StronglySorted key_order (path_items pm)) d
  /\ StronglySorted key_order (first_items d).

(** The sort gives the order [order] and sorting again changes
    nothing. *)
Definition sort_gives (order : OrderedDict (list Message) -> Prop)
    (E : Env) (wid : nat) (w : World) : Prop :=
  (forall info, WINDOW_MESSAGES (_sort_messages E wid w) !! wid = Some info ->
     order (paths info))
  /\ _sort_messages E wid (_sort_messages E wid w) = _sort_messages E wid w.

(** An item is what [_sort_messages] makes of its message and path. *)
Definition proper_item (it : Item) : Prop :=
  it = (level_rank (level (item_message it)), item_path it,
        lineno (item_message it), item_message it).

(** Every child of the message under construction has a path. *)
Definition children_have_paths (st : Collect) : Prop :=
  Forall (fun m => is_Some (path m)) (children (message st)).

(** ** What collecting leaves alone *)

(** The host with the setting [rust_syntax_hide_warnings] set to [b]. *)
Definition with_hide_warnings (b : bool) (E : Env) : Env :=
  {| realpath_join := realpath_join E;
     basename := basename E;
     replacement_markup := replacement_markup E;
     link_markup := link_markup E;
     escape_and_link := escape_and_link E;
     rust_syntax_hide_warnings := b;
     rust_sort_messages := rust_sort_messages E;
     rust_phantom_style_normal := rust_phantom_style_normal E |}.

(** A child of the primary message with id [r], as [add_additional]
    makes it. *)
Definition child_of (r : nat) (c : Message) : Prop :=
  primary c = false /\ parent c = Some r /\ hidden c = false
  /\ region_key c = None /\ back_link c = None /\ is_Some (path c).

(** The fields of the primary message that [set_primary_message] does
    not write. *)
Definition untouched (m : Message)
    : nat * bool * option nat * bool * option string * option string
      * option string :=
  (id m, primary m, parent m, hidden m, region_key m, minihtml_text m,
   back_link m).

(** From [st] to [st'] the primary message kept these fields, the
    children of [st] are all there, and what came after them are
    children of the primary message. *)
Definition adds_children_only (st st' : Collect) : Prop :=
  untouched (root (message st')) = untouched (root (message st))
  /\ console st `prefix_of` console st'
  /\ exists new,
       children (message st') = children (message st) ++ new
       /\ Forall (child_of (id (root (message st)))) new.

(** An error with a primary span and a note without spans under it. *)
Definition error_with_note : Info :=
  mkInfo "cannot borrow" "error" None
    [span_at "src/main.rs" 10 true None None]
    [mkInfo "borrow ends here" "note" None [] []].

(** ** Well-formed windows *)

(** The region keys ['rust-1'] to ['rust-n']. *)
Definition numbered_keys (n : nat) : list (option string) :=
  (fun i : nat => Some ("rust-" +:+ pretty (S i))) <$> seq 0 n.

(** The messages under one path: there is one at least, the path is
    not that of a macro of another crate, each message has this path,
    no two are similar, and the region keys are ['rust-1'] to
    ['rust-n'] in some order. *)
Definition path_ok (pm : string * list Message) : Prop :=
  snd pm <> []
  /\ contains MACROS (fst pm) = false
  /\ Forall (fun m => path m = Some (fst pm)) (snd pm)
  /\ NoDup (content <$> snd pm)
  /\ region_key <$> snd pm ≡ₚ numbered_keys (length (snd pm)).

Definition store_ok (d : OrderedDict (list Message)) : Prop :=
  NoDup (fst <$> d) /\ Forall path_ok d.

(** A window that has an entry has a path, and its paths are well
    formed. *)
Definition window_ok (wid : nat) (w : World) : Prop :=
  forall info, WINDOW_MESSAGES w !! wid = Some info ->
    paths info <> [] /\ store_ok (paths info).

(** Every path of [d] has its place in [d'], and every message its
    place under it. *)
Definition lists_grow (d d' : OrderedDict (list Message)) : Prop :=
  forall i pm, d !! i = Some pm ->
    exists pm', d' !! i = Some pm' /\ fst pm' = fst pm
                /\ snd pm `prefix_of` snd pm'.

(** From [w] to [w'] the other windows are as they were, and the
    window [wid], if it had an entry, has its index and every stored
    message in its place. *)
Definition only_appends (wid : nat) (w w' : World) : Prop :=
  (forall wid', wid' <> wid ->
     WINDOW_MESSAGES w' !! wid' = WINDOW_MESSAGES w !! wid')
  /\ forall info, WINDOW_MESSAGES w !! wid = Some info ->
       exists info',
         WINDOW_MESSAGES w' !! wid = Some info'
         /\ msg_index info' = msg_index info
         /\ lists_grow (paths info) (paths info').

(** An error with a far note, as cargo wraps it. *)
Definition cargo_error : Raw :=
  Cargo "compiler-message"
    (mkInfo "cannot borrow" "error" None
       [span_at "src/main.rs" 10 true None None]
       [mkInfo "previous borrow" "note" None
          [span_at "src/main.rs" 30 false (Some "here") None] []]).
(** The window 1 after the error [cargo_error] came in. *)
Definition checked_world : World :=
  default no_windows
    (add_rust_messages (posix false) 1 "/p" cargo_error None false no_windows).

(** ** Going back through the messages *)

(** What a backward scan comes to when it ends at the last of the
    indices [l], if there is one. *)
Definition found_last (l : list (nat * nat)) : Outcome :=
  match last l with
  | Some i => Found i
  | None => NotFound
  end.

(** A warning in [a.rs]. *)
Definition warning_at (i : nat) (line : Z) : Message :=
  {| id := i; region_key := Some ("rust-" +:+ pretty i);
     text := Some "unused variable"; minihtml_text := None;
     level := Some "warning"; span := Some ((line, 0), (line, 1));
     path := Some "/p/src/a.rs"; code := None; back_link := None;
     primary := true; parent := None; hidden := false |}.

(** Three warnings in one file came in before an error in another. *)
Definition warnings_first_world : World :=
  {| WINDOW_MESSAGES :=
       {[ 1%nat :=
            {| paths :=
                 [("/p/src/a.rs",
                   [warning_at 1 3; warning_at 2 5; warning_at 3 8]);
                  ("/p/src/b.rs", [error_at_top "error" "/p/src/b.rs" 4])];
               msg_index := (-1, -1) |} ]};
     callbacks := []; fresh := 5 |}.

(** Next was called three times, and then the messages were sorted. *)
Definition stale_world : World :=
  _sort_messages (posix false) 1
    (snd (next_calls "all" 1 3 warnings_first_world)).

(** ** What sorting keeps *)

(** The items of the messages of a window, path by path. *)
Definition window_items (wid : nat) (w : World) : list Item :=
  match WINDOW_MESSAGES w !! wid with
  | Some info => items_of (paths info)
  | None => []
  end.
(** ** The markup *)

(** A message [_create_minihtml] passes over: it has markup, or it has
    no text. *)
Definition passed_over (m : Message) : bool :=
  truthy (minihtml_text m) || negb (truthy (text m)).

(** What [_create_minihtml] makes of a message: one it passes over is
    left as it is, any other gets markup that is not empty and is left
    as it is otherwise. *)
Definition marked_up (m m' : Message) : Prop :=
  if passed_over m then m' = m
  else exists c, c <> EmptyString /\ m' = set_minihtml_text m c.
(** ** The check on save *)

(** The flag of the thread says whether the window has a message for
    the file that was saved. *)
Definition flag_is_right (wid : nat) (file : string) (s : Thread * World)
    : Prop :=
  this_view_found (fst s) = has_message_for_path wid file (snd s).

(** A gutter style for the examples. *)
Definition shape_style : Style :=
  {| rust_region_style_none := false; rust_gutter_style := "shape";
     package_name := "Rust Enhanced" |}.

(** ** Clicks on the links of the markup *)

(** [s[n:]] *)
Fixpoint string_drop (n : nat) (s : string) : string :=
  match n, s with
  | O, _ => s
  | S n', String _ s' => string_drop n' s'
  | S _, EmptyString => EmptyString
  end.

(** The branches of [_click_handler], each with what it hands on:
    ['hide'], a file to open, the query of a replacement, a url for the
    browser. *)
Inductive Click : Type :=
| ClickHide
| ClickOpen (target : string)
| ClickReplace (query : string)
| ClickBrowse (url : string).

Definition click_branch (url : string) : Click :=
  if String.eqb url "hide" then ClickHide
  else if startswith url "file:///" then ClickOpen (string_drop 8 url)
  else if startswith url "replace:" then ClickReplace (string_drop 8 url)
  else ClickBrowse url.

Section Clicks.

(** [urllib.parse.parse_qs]: the id and the replacement of a query. *)
Variable parse_qs : string -> nat * string.
(** Whether [view.get_regions(key)] has a region. *)
Variable get_regions : option string -> bool.
(** [view.window().id()] and [view.file_name()] *)
Variable wid : nat.
Variable file_name0 : string.

(** [_accept_replace]: whether the replacement is made, and the
    messages afterwards. *)
Definition _accept_replace (mid : nat) (w : World) : bool * World :=
  match WINDOW_MESSAGES w !! wid with
  | None => (false, w)
  | Some info =>
      match List.find (fun m => Nat.eqb (id m) mid)
              (default [] (od_get (paths info) file_name0)) with
      | None => (false, w)
      | Some msg =>
          if get_regions (region_key msg) then
            (true,
             {| WINDOW_MESSAGES :=
                  <[wid := dismiss msg info]> (WINDOW_MESSAGES w);
                callbacks := callbacks w; fresh := fresh w |})
          else (false, w)
      end
  end.

(** [_click_handler]: the branch taken and the messages afterwards. *)
Definition _click_handler (url : string) (w : World) : Click * World :=
  match click_branch url with
  | ClickHide => (ClickHide, clear_messages wid w)
  | ClickReplace query =>
      (ClickReplace query, snd (_accept_replace (fst (parse_qs query)) w))
  | c => (c, w)
  end.

End Clicks.

(** ** The stops of next and previous *)

(** The indices next and previous stop at with ['all'], for a
    window. *)
Definition stops (wid : nat) (w : World) : list (nat * nat) :=
  match WINDOW_MESSAGES w !! wid with
  | Some info => matching_indices "all" (paths info)
  | None => []
  end.

(** The link that closes a message, as [_create_minihtml] writes its
    opening tag. *)
Definition close_tag : string := "<a href=" +:+ dq +:+ "hide" +:+ dq +:+ ">".

(** ** Messages of macros of other crates *)

(** The path of a message is that of a macro of another crate. *)
Definition in_extern_macro (m : Message) : Prop :=
  exists p, path m = Some p /\ contains MACROS p = true.

(** An error in a macro of another crate: the span is in the file of
    the macro and has no expansion. *)
Definition extern_macro_error : Info :=
  mkInfo "mismatched types" "error" None
    [span_at "<std macros>" 1 true (Some "expected u32") None] [].

(** The messages of the tree made for [extern_macro_error] when the
    target path is not known. *)
Definition extern_macro_messages : list Message :=
  iter (_create_minihtml (posix false)
          (fst (_create_cross_links (posix false)
                  (message (_collect_rust_messages (posix false) "/p" None
                              true extern_macro_error None (start 0)))
                  5))).

(** ** The states of a window *)

(** The states the store of the window [wid] goes through: it starts
    without an entry for the window; then diagnostics come in
    ([add_rust_messages]), the messages are sorted ([_sort_messages]),
    the user goes to the next or the previous message, and the window
    is cleared ([clear_messages]). *)
Inductive session (E : Env) (wid : nat) : World -> Prop :=
| session_start w :
    WINDOW_MESSAGES w !! wid = None -> session E wid w
| session_add w w' base_path raw target_path msg_cb :
    session E wid w ->
    add_rust_messages E wid base_path raw target_path msg_cb w = Some w' ->
    session E wid w'
| session_sort w :
    session E wid w -> session E wid (_sort_messages E wid w)
| session_next w levels :
    session E wid w ->
    session E wid (snd (_advance_next_message levels wid w))
| session_prev w levels r w' :
    session E wid w ->
    _advance_prev_message levels wid w = Some (r, w') ->
    session E wid w'
| session_clear w :
    session E wid w -> session E wid (clear_messages wid w).

(** ** The targets of a check *)

Section CheckRuns.

Variable E : Env.
Variable wid : nat.
Variable cwd : string.
Variable triggered_file_name : string.
Variable output_of : list string -> list Raw.
Variable method : string.
Variable include_tests : bool.

(** The commands of the targets run one after the other, none left
    out, each with [current_target_src] set to its target. *)
Fixpoint run_targets (targets : list (string * list string))
    (s : Thread * World) : option (Thread * World) :=
  match targets with
  | [] => Some s
  | (target_src, target_args) :: targets' =>
      match run_proc E wid cwd triggered_file_name
              (output_of (target_command method include_tests target_args))
              ({| this_view_found := this_view_found (fst s);
                  current_target_src := Some target_src |}, snd s) with
      | Some s1 => run_targets targets' s1
      | None => None
      end
  end.

End CheckRuns.

(** * Properties *)

(** ** Span resolution *)

Lemma find_span_r_chain leaf root0 :
  expansion_chain leaf root0 -> forall e, fst (find_span_r leaf e) = root0.
Proof.
  induction 1 as [s Hs | s e r Hs Hc IH]; intros e0.
  - destruct s; simpl in *; subst; reflexivity.
  - destruct s; simpl in *; subst. destruct e as [s' n d]; simpl in *.
    apply IH.
Qed.

Lemma expansion_chain_total leaf : exists root0, expansion_chain leaf root0.
Proof.
  revert leaf.
  fix IH 1. intros [f l c le ce p t la sr [[s' n d] | ]].
  - destruct (IH s') as [r Hr]. exists r.
    eapply chain_step; [reflexivity | exact Hr].
  - eexists. apply chain_root. reflexivity.
Qed.

(** C6, the claim as stated fails: the leaf [local_leaf] is in a file
    of the project, its chain ends at [local_root], and the span is
    kept as it is; the primary message built from it sits at the leaf,
    not at the root. *)
Lemma local_macro_span_not_resolved :
  expansion_chain local_leaf local_root
  /\ ~ resolves_to_root local_leaf local_root
  /\ path (root (message
       (_collect_rust_messages (posix false) "/p" None false
          (mkInfo "mismatched types" "error" None [local_leaf] [])
          None (start 0))))
     = Some "/p/src/lib.rs".
Proof.
  split; [| split].
  - eapply chain_step; [reflexivity |]. apply chain_root. reflexivity.
  - intros [H _]. vm_compute in H. discriminate H.
  - vm_compute. reflexivity.
Qed.

(** C6 (amended): [find_span_r] walks every chain to its root; a span
    whose file name contains ['macros>'] is replaced by the root's
    location with the leaf's [is_primary], [label] and
    [suggested_replacement]; a span with any other file name is kept
    as it is, expansion or not. *)
Theorem macro_root_resolution leaf root0 :
  expansion_chain leaf root0 ->
  (forall e, fst (find_span_r leaf e) = root0)
  /\ (contains MACROS (file_name leaf) = true -> resolves_to_root leaf root0)
  /\ (contains MACROS (file_name leaf) = false -> resolve_span leaf = leaf).
Proof.
  intros Hc. split; [| split].
  - apply find_span_r_chain, Hc.
  - intros Hm. unfold resolves_to_root, resolve_span. rewrite Hm.
    rewrite (find_span_r_chain _ _ Hc). split; reflexivity.
  - intros Hm. unfold resolve_span. rewrite Hm. reflexivity.
Qed.

Lemma macro_root_resolution_witness :
  expansion_chain std_leaf std_root
  /\ (forall e, fst (find_span_r std_leaf e) = std_root)
  /\ (contains MACROS (file_name std_leaf) = true ->
      resolves_to_root std_leaf std_root)
  /\ (contains MACROS (file_name std_leaf) = false ->
      resolve_span std_leaf = std_leaf).
Proof.
  assert (Hc : expansion_chain std_leaf std_root).
  { eapply chain_step; [reflexivity |].
    eapply chain_step; [reflexivity |].
    apply chain_root. reflexivity. }
  split; [exact Hc | exact (macro_root_resolution std_leaf std_root Hc)].
Defined.

(** ** Collecting *)

Lemma Info_nested_ind (P : Info -> Prop) :
  (forall m l c ss cs, Forall P cs -> P (mkInfo m l c ss cs)) ->
  forall info, P info.
Proof.
  intros H. fix IH 1. intros [m l c ss cs]. apply H.
  induction cs as [| c0 cs IHcs]; constructor; [apply IH | exact IHcs].
Qed.

Section CollectingFacts.

Variable E : Env.
Variable base_path : string.
Variable target_path : option string.
Variable msg_cb : bool.

Local Abbreviation add_additional' := (add_additional E base_path).
Local Abbreviation macro_block' := (macro_block E base_path target_path).
Local Abbreviation invocation_site' := (invocation_site E base_path).
Local Abbreviation primary_span' := (primary_span E base_path).
Local Abbreviation label_child' := (label_child E base_path).
Local Abbreviation replacement_child' := (replacement_child E base_path).
Local Abbreviation span_body' := (span_body E base_path target_path).
Local Abbreviation collect' :=
  (_collect_rust_messages E base_path target_path msg_cb).
Local Abbreviation macro_span' := (macro_span target_path).
Local Abbreviation entry_at' := (entry_at E base_path).

Lemma extends_refl st : extends st st.
Proof. split; reflexivity. Qed.

Lemma extends_trans a b c : extends a b -> extends b c -> extends a c.
Proof.
  intros [H1 H2] [H3 H4]. split; [congruence | by etrans].
Qed.

Lemma append_child_extends c st : extends st (append_child c st).
Proof. split; [reflexivity | by apply prefix_app_r]. Qed.

Lemma add_additional_extends s txt lvl st :
  extends st (add_additional' s txt lvl st).
Proof. apply append_child_extends. Qed.

Lemma add_additional_children s txt lvl st :
  children (message (add_additional' s txt lvl st))
  = children (message st) ++ [new_child E base_path st s txt lvl None].
Proof. reflexivity. Qed.

Lemma new_child_content st s txt lvl mk :
  content (new_child E base_path st s txt lvl mk) = entry_at' s lvl txt.
Proof. reflexivity. Qed.

Lemma macro_block_span info s st : fst (macro_block' info s st) = macro_span' s.
Proof.
  unfold macro_block, macro_span, resolve_span.
  destruct (contains MACROS (file_name s)) eqn:Hm; simpl; [| reflexivity].
  destruct (find_span_r s None) as [ts ex] eqn:Hf; simpl.
  destruct (contains MACROS (file_name ts)) eqn:Hm2; simpl.
  - destruct target_path as [tp |]; simpl; [| reflexivity].
    destruct (negb (String.eqb tp EmptyString)); reflexivity.
  - destruct ex as [e |]; simpl.
    + destruct (def_site_span e) as [d |]; simpl.
      * destruct (contains MACROS (file_name d)); reflexivity.
      * reflexivity.
    + reflexivity.
Qed.

Lemma macro_block_extends info s st : extends st (snd (macro_block' info s st)).
Proof.
  unfold macro_block.
  destruct (contains MACROS (file_name s)); [| apply extends_refl].
  destruct (find_span_r s None) as [ts ex].
  destruct (contains MACROS (file_name (updated_span ts s))).
  - simpl. eapply extends_trans; apply add_additional_extends.
  - match goal with |- context [if ?b then _ else _] => destruct b end;
      simpl; [apply add_additional_extends | apply extends_refl].
Qed.

Lemma invocation_site_extends s st : extends st (invocation_site' s st).
Proof.
  unfold invocation_site.
  destruct (expansion s); [| apply extends_refl].
  match goal with |- context [if ?b then _ else _] => destruct b end;
    [apply add_additional_extends | apply extends_refl].
Qed.

Lemma label_child_extends info s st : extends st (label_child' info s st).
Proof.
  unfold label_child.
  destruct (label s); [apply add_additional_extends | apply extends_refl].
Qed.

Lemma replacement_child_extends s st : extends st (replacement_child' s st).
Proof.
  unfold replacement_child.
  destruct (suggested_replacement s); [| apply extends_refl].
  match goal with |- context [if ?b then _ else _] => destruct b end;
    [apply append_child_extends | apply extends_refl].
Qed.

Lemma macro_span_is_primary s : is_primary (macro_span' s) = is_primary s.
Proof.
  unfold macro_span, resolve_span.
  destruct (contains MACROS (file_name s)); simpl; [| reflexivity].
  match goal with |- context [if ?b then _ else _] => destruct b end;
    [| reflexivity].
  destruct target_path; [| reflexivity].
  match goal with |- context [if ?b then _ else _] => destruct b end;
    reflexivity.
Qed.

Lemma macro_span_label s : label (macro_span' s) = label s.
Proof.
  unfold macro_span, resolve_span.
  destruct (contains MACROS (file_name s)); simpl; [| reflexivity].
  match goal with |- context [if ?b then _ else _] => destruct b end;
    [| reflexivity].
  destruct target_path; [| reflexivity].
  match goal with |- context [if ?b then _ else _] => destruct b end;
    reflexivity.
Qed.

(** With a parent span the primary step keeps [parent_info] and the
    root, and a primary span gets a child with the main message. *)
Lemma primary_span_Some info s p st :
  let r := primary_span' info s (Some p) st in
  fst r = Some p
  /\ extends st (snd r)
  /\ (is_primary s = true ->
      exists c, c ∈ children (message (snd r))
        /\ content c = entry_at' s (info_level info) (Some (info_message info))
        /\ primary c = false).
Proof.
  unfold primary_span. destruct (is_primary s); simpl.
  - split; [reflexivity |]. split; [apply add_additional_extends |].
    intros _.
    exists (new_child E base_path st s (Some (info_message info))
              (info_level info) None).
    split; [| split; reflexivity].
    apply elem_of_app. right. apply list_elem_of_singleton. reflexivity.
  - split; [reflexivity |]. split; [apply extends_refl | discriminate].
Qed.

Lemma primary_span_not_primary info s pi st :
  is_primary s = false -> primary_span' info s pi st = (pi, st).
Proof. intros H. unfold primary_span. rewrite H. reflexivity. Qed.

(** Without a parent span, the first primary span sets the primary
    message and writes itself into [parent_info]. *)
Lemma primary_span_first info s st :
  is_primary s = true ->
  truthy (path (root (message st))) = false ->
  let r := primary_span' info s None st in
  fst r = Some s
  /\ content (root (message (snd r)))
     = entry_at' s (info_level info) (Some (info_message info))
  /\ primary (root (message (snd r))) = primary (root (message st))
  /\ children (message (snd r)) = children (message st)
  /\ console (snd r) = console st.
Proof.
  intros Hp Ht. unfold primary_span. rewrite Hp, Ht. simpl.
  repeat split; reflexivity.
Qed.

Lemma extends_truthy st st' :
  extends st st' ->
  truthy (path (root (message st'))) = truthy (path (root (message st))).
Proof. intros [H _]. rewrite H. reflexivity. Qed.

Lemma extends_child st st' c :
  extends st st' -> c ∈ children (message st) -> c ∈ children (message st').
Proof.
  intros [_ [k Hk]] Hc. rewrite Hk. apply elem_of_app. left. exact Hc.
Qed.

(** The loop body under a parent span. *)
Lemma span_body_Some info s p st :
  let r := span_body' info (Some p, st) s in
  fst r = Some p
  /\ extends st (snd r)
  /\ (is_primary s = true ->
      exists c, c ∈ children (message (snd r))
        /\ content c
           = entry_at' (macro_span' s) (info_level info)
               (Some (info_message info))
        /\ primary c = false).
Proof.
  unfold span_body. simpl.
  pose proof (macro_block_span info s st) as Hs.
  pose proof (macro_block_extends info s st) as He.
  destruct (macro_block' info s st) as [s1 st1]. simpl in Hs, He. subst s1.
  pose proof (invocation_site_extends (macro_span' s) st1) as He2.
  set (st2 := invocation_site' (macro_span' s) st1) in *.
  destruct (primary_span_Some info (macro_span' s) p st2) as (Hpi & He3 & Hc).
  destruct (primary_span' info (macro_span' s) (Some p) st2) as [pi3 st3].
  simpl in *. subst pi3.
  pose proof (label_child_extends info (macro_span' s) st3) as He4.
  pose proof (replacement_child_extends (macro_span' s)
                (label_child' info (macro_span' s) st3)) as He5.
  split; [reflexivity |]. split.
  - eapply extends_trans; [exact He |].
    eapply extends_trans; [exact He2 |].
    eapply extends_trans; [exact He3 |].
    eapply extends_trans; [exact He4 | exact He5].
  - intros Hp. rewrite <- macro_span_is_primary in Hp.
    destruct (Hc Hp) as (c & Hin & Hcc & Hpc).
    exists c. split; [| split; assumption].
    eapply extends_child; [| exact Hin].
    eapply extends_trans; [exact He4 | exact He5].
Qed.

(** The loop body without a parent span, on a span that is not
    primary. *)
Lemma span_body_None_other info s st :
  is_primary s = false ->
  let r := span_body' info (None, st) s in
  fst r = None /\ extends st (snd r).
Proof.
  intros Hp. unfold span_body. simpl.
  pose proof (macro_block_span info s st) as Hs.
  pose proof (macro_block_extends info s st) as He.
  destruct (macro_block' info s st) as [s1 st1]. simpl in Hs, He. subst s1.
  pose proof (invocation_site_extends (macro_span' s) st1) as He2.
  rewrite primary_span_not_primary by (rewrite macro_span_is_primary; exact Hp).
  simpl. split; [reflexivity |].
  eapply extends_trans; [exact He |].
  eapply extends_trans; [exact He2 |].
  eapply extends_trans;
    [apply label_child_extends | apply replacement_child_extends].
Qed.

(** The loop body without a parent span, on the first primary span. *)
Lemma span_body_None_first info s st :
  is_primary s = true ->
  truthy (path (root (message st))) = false ->
  let r := span_body' info (None, st) s in
  fst r = Some (macro_span' s)
  /\ content (root (message (snd r)))
     = entry_at' (macro_span' s) (info_level info) (Some (info_message info)).
Proof.
  intros Hp Ht. unfold span_body. simpl.
  pose proof (macro_block_span info s st) as Hs.
  pose proof (macro_block_extends info s st) as He.
  destruct (macro_block' info s st) as [s1 st1]. simpl in Hs, He. subst s1.
  pose proof (invocation_site_extends (macro_span' s) st1) as He2.
  set (st2 := invocation_site' (macro_span' s) st1) in *.
  assert (Ht2 : truthy (path (root (message st2))) = false).
  { rewrite (extends_truthy st st2); [exact Ht |].
    eapply extends_trans; eassumption. }
  rewrite <- macro_span_is_primary in Hp.
  destruct (primary_span_first info (macro_span' s) st2 Hp Ht2)
    as (Hpi & Hc & _).
  destruct (primary_span' info (macro_span' s) None st2) as [pi3 st3].
  simpl in *. split; [exact Hpi |].
  assert (Hx : extends st3 (replacement_child' (macro_span' s)
                              (label_child' info (macro_span' s) st3))).
  { eapply extends_trans;
      [apply label_child_extends | apply replacement_child_extends]. }
  destruct Hx as [Hr _]. rewrite Hr. exact Hc.
Qed.

Lemma collect_unfold info pi st :
  collect' info pi st
  = if hide_gate E info pi then st
    else collect_children E base_path target_path msg_cb (info_children info)
           (fst (collect_own E base_path target_path msg_cb info pi st))
           (snd (collect_own E base_path target_path msg_cb info pi st)).
Proof.
  destruct info as [m l c ss cs]. simpl.
  destruct (hide_gate E (mkInfo m l c ss cs) pi); [reflexivity |].
  unfold collect_children. simpl.
  generalize (snd (collect_own E base_path target_path msg_cb
                     (mkInfo m l c ss cs) pi st)).
  generalize (fst (collect_own E base_path target_path msg_cb
                     (mkInfo m l c ss cs) pi st)).
  intros pi1. induction cs as [| c0 cs IH]; intros st1; simpl;
    [reflexivity | apply IH].
Qed.

Lemma collect_own_spans info pi st :
  info_spans info <> [] ->
  collect_own E base_path target_path msg_cb info pi st
  = foldl (span_body' info) (pi, st) (info_spans info).
Proof.
  intros H. unfold collect_own. destruct (info_spans info);
    [contradiction | reflexivity].
Qed.

(** The span loop under a parent span: the root stays, children are
    only added, and every primary span has its child. *)
Lemma spans_Some info ss : forall p st,
  let r := foldl (span_body' info) (Some p, st) ss in
  fst r = Some p
  /\ extends st (snd r)
  /\ forall s, s ∈ ss -> is_primary s = true ->
       exists c, c ∈ children (message (snd r))
         /\ content c
            = entry_at' (macro_span' s) (info_level info)
                (Some (info_message info))
         /\ primary c = false.
Proof.
  induction ss as [| s0 ss IH]; intros p st; simpl.
  - split; [reflexivity |]. split; [apply extends_refl |].
    intros s Hs. by apply elem_of_nil in Hs.
  - destruct (span_body_Some info s0 p st) as (Hpi & He & Hc).
    destruct (span_body' info (Some p, st) s0) as [pi1 st1].
    simpl in Hpi, He, Hc. subst pi1.
    destruct (IH p st1) as (Hpi2 & He2 & Hc2).
    split; [exact Hpi2 |]. split; [eapply extends_trans; eassumption |].
    intros s Hs Hp. apply elem_of_cons in Hs as [-> | Hs].
    + destruct (Hc Hp) as (c & Hin & Hcc & Hpc).
      exists c. split; [| split; assumption].
      eapply extends_child; eassumption.
    + apply Hc2; assumption.
Qed.

(** The span loop without a parent span, over spans that are not
    primary. *)
Lemma spans_None_other info ss : forall st,
  Forall (fun x => is_primary x = false) ss ->
  let r := foldl (span_body' info) (None, st) ss in
  fst r = None /\ extends st (snd r).
Proof.
  induction ss as [| s0 ss IH]; intros st Hall; simpl.
  - split; [reflexivity | apply extends_refl].
  - inversion Hall as [| ? ? Hs0 Hrest]; subst.
    destruct (span_body_None_other info s0 st Hs0) as (Hpi & He).
    destruct (span_body' info (None, st) s0) as [pi1 st1].
    simpl in Hpi, He. subst pi1.
    destruct (IH st1 Hrest) as (Hpi2 & He2).
    split; [exact Hpi2 | eapply extends_trans; eassumption].
Qed.

(** Under a parent span a whole call keeps the root and only adds
    children: the primary message is set by the top-level record
    alone. *)
Lemma collect_Some_extends info : forall p st,
  extends st (collect' info (Some p) st).
Proof.
  induction info as [m l c ss cs IHcs] using Info_nested_ind.
  intros p st. rewrite collect_unfold.
  destruct (hide_gate E (mkInfo m l c ss cs) (Some p));
    [apply extends_refl |].
  assert (Hown : fst (collect_own E base_path target_path msg_cb
                        (mkInfo m l c ss cs) (Some p) st) = Some p
                 /\ extends st
                      (snd (collect_own E base_path target_path msg_cb
                              (mkInfo m l c ss cs) (Some p) st))).
  { unfold collect_own. simpl. destruct ss as [| s0 ss].
    - simpl. split; [reflexivity | apply add_additional_extends].
    - destruct (spans_Some (mkInfo m l c (s0 :: ss) cs) (s0 :: ss) p st)
        as (H1 & H2 & _). split; assumption. }
  destruct Hown as [Hpi He]. rewrite Hpi. simpl.
  eapply extends_trans; [exact He |].
  generalize (snd (collect_own E base_path target_path msg_cb
                     (mkInfo m l c ss cs) (Some p) st)).
  clear He Hpi. unfold collect_children.
  induction IHcs as [| c0 cs0 Hc0 _ IH]; intros st1; simpl.
  - apply extends_refl.
  - eapply extends_trans; [apply Hc0 | apply IH].
Qed.

Lemma collect_children_Some_extends cs p st :
  extends st (collect_children E base_path target_path msg_cb cs (Some p) st).
Proof.
  revert st. unfold collect_children.
  induction cs as [| c0 cs IH]; intros st; simpl.
  - apply extends_refl.
  - eapply extends_trans; [apply collect_Some_extends | apply IH].
Qed.

End CollectingFacts.

(** The record [two_primary]: the first primary span gives the primary
    message; at the second one [parent_info] already holds the first
    span, so the main message is added as a child there, and the empty
    label of the second span as another child. *)
Example two_primary_spans_collected :
  (fun t => (content (root t), content <$> children t))
    (message (_collect_rust_messages (posix false) "/p" None false
                (two_primary "error") None (start 0)))
  = ((Some "/p/src/main.rs", Some ((9, 4), (9, 7)), Some "error",
      Some "cannot borrow"),
     [(Some "/p/src/main.rs", Some ((19, 4), (19, 7)), Some "error",
       Some "cannot borrow");
      (Some "/p/src/main.rs", Some ((19, 4), (19, 7)), Some "error",
       Some EmptyString)]).
Proof. vm_compute. reflexivity. Qed.

(** C1, the claim as stated fails: with warnings hidden, a top-level
    warning with two primary spans is dropped at the gate, and no span
    becomes the primary message. *)
Lemma hidden_warning_has_no_primary_entry :
  ~ first_primary_is_entry (posix true) "/p" None false
      (two_primary "warning") (start 0).
Proof.
  intros H.
  destruct (H [] (span_at "src/main.rs" 10 true None None)
              [span_at "src/main.rs" 20 true (Some EmptyString) None]
              eq_refl (List.Forall_nil _) eq_refl) as [Hc _].
  vm_compute in Hc. discriminate Hc.
Qed.

(** C1 (amended): for a top-level record that passes the gate on
    warnings (level ['error'], or [rust_syntax_hide_warnings] off),
    the first primary span in input order gives the primary message
    its path, region, text and level, and every later primary span of
    the record is a child with the main message at that span. *)
Theorem first_primary_span_is_primary_entry
    (E : Env) (base_path : string) (target_path : option string)
    (msg_cb : bool) (info : Info) (st : Collect) :
  hide_gate E info None = false ->
  truthy (path (root (message st))) = false ->
  first_primary_is_entry E base_path target_path msg_cb info st.
Proof.
  intros Hgate Hfresh pre s post Hspans Hpre Hs. simpl.
  rewrite collect_unfold, Hgate.
  assert (Hown :
    fst (collect_own E base_path target_path msg_cb info None st) <> None
    /\ content (root (message
         (snd (collect_own E base_path target_path msg_cb info None st))))
       = entry_at E base_path (macro_span target_path s) (info_level info)
           (Some (info_message info))
    /\ forall s2, s2 ∈ post -> is_primary s2 = true ->
         exists c,
           c ∈ children (message
                 (snd (collect_own E base_path target_path msg_cb info
                         None st)))
           /\ content c
              = entry_at E base_path (macro_span target_path s2)
                  (info_level info) (Some (info_message info))
           /\ primary c = false).
  { rewrite collect_own_spans by (rewrite Hspans; by destruct pre).
    rewrite Hspans, foldl_app. cbn [foldl].
    destruct (spans_None_other E base_path target_path info pre st Hpre)
      as (Hpi & He).
    destruct (foldl (span_body E base_path target_path info) (None, st) pre)
      as [pi1 st1]. simpl in Hpi, He. subst pi1.
    assert (Ht1 : truthy (path (root (message st1))) = false).
    { rewrite (extends_truthy st st1 He). exact Hfresh. }
    destruct (span_body_None_first E base_path target_path info s st1 Hs Ht1)
      as (Hpi2 & Hc2).
    destruct (span_body E base_path target_path info (None, st1) s)
      as [pi2 st2]. simpl in Hpi2, Hc2. subst pi2.
    destruct (spans_Some E base_path target_path info post
                (macro_span target_path s) st2) as (Hpi3 & He3 & Hc3).
    split; [rewrite Hpi3; discriminate |]. split.
    - destruct He3 as [Hr _]. rewrite Hr. exact Hc2.
    - exact Hc3. }
  destruct Hown as (Hpi & Hroot & Hchildren).
  destruct (fst (collect_own E base_path target_path msg_cb info None st))
    as [p |] eqn:Hp; [| congruence].
  pose proof (collect_children_Some_extends E base_path target_path msg_cb
                (info_children info) p
                (snd (collect_own E base_path target_path msg_cb info None st)))
    as Hext.
  split.
  - destruct Hext as [Hr _]. rewrite Hr. exact Hroot.
  - intros s2 Hin Hp2. destruct (Hchildren s2 Hin Hp2) as (c & Hc & Hcc & Hpc).
    exists c. split; [| split; assumption].
    eapply extends_child; eassumption.
Qed.

Lemma first_primary_span_is_primary_entry_witness :
  hide_gate (posix false) (two_primary "warning") None = false
  /\ truthy (path (root (message (start 0)))) = false
  /\ first_primary_is_entry (posix false) "/p" None false
       (two_primary "warning") (start 0).
Proof.
  split; [reflexivity |]. split; [reflexivity |].
  apply (first_primary_span_is_primary_entry (posix false) "/p" None false
           (two_primary "warning") (start 0)); reflexivity.
Defined.

Lemma new_contents_append st st' c :
  children (message st) `prefix_of` children (message st') ->
  new_contents st (append_child c st') = new_contents st st' ++ [content c].
Proof.
  intros [k Hk]. unfold new_contents. simpl. rewrite Hk.
  rewrite <- app_assoc, !drop_app_length, fmap_app. reflexivity.
Qed.

Lemma primary_span_children E base_path info s pi st :
  children (message st)
  `prefix_of` children (message (snd (primary_span E base_path info s pi st))).
Proof.
  unfold primary_span. destruct (is_primary s); [| reflexivity].
  destruct pi as [p |]; simpl; [by apply prefix_app_r |].
  destruct (negb (truthy (path (root (message st))))); reflexivity.
Qed.

(** C9, the claim as stated fails: a span with an empty label gets a
    child for it, though the label is empty. *)
Lemma empty_label_has_child :
  ~ label_rule_holds (posix false) "/p" None nonempty_distinct_label
      (mkInfo "cannot borrow" "error" None [empty_label_span] [])
      None (start 0) empty_label_span.
Proof.
  unfold label_rule_holds. vm_compute. discriminate.
Qed.

(** C9 (amended): in the loop body of every span, after the entries of
    the steps before, exactly one child with the label as text, at the
    span and with the level of the record, is added when the span has
    a label (the empty label and the label equal to the main message
    included), and none when the label is absent; the replacement
    child follows. *)
Theorem label_child_for_every_label
    (E : Env) (base_path : string) (target_path : option string)
    (info : Info) (pi : ParentInfo) (st : Collect) (s : Span) :
  label_rule_holds E base_path target_path any_label info pi st s.
Proof.
  unfold label_rule_holds, before_label, span_body. simpl.
  pose proof (macro_block_span E base_path target_path info s st) as Hs.
  pose proof (macro_block_extends E base_path target_path info s st) as He.
  destruct (macro_block E base_path target_path info s st) as [s1 st1].
  simpl in Hs, He. subst s1. cbn [fst snd].
  pose proof (invocation_site_extends E base_path
                (macro_span target_path s) st1) as He2.
  set (st2 := invocation_site E base_path (macro_span target_path s) st1) in *.
  pose proof (primary_span_children E base_path info
                (macro_span target_path s) pi st2) as He3.
  destruct (primary_span E base_path info (macro_span target_path s) pi st2)
    as [pi3 st3]. simpl in *.
  assert (Hp3 : children (message st) `prefix_of` children (message st3)).
  { etrans; [apply He |]. etrans; [apply He2 | exact He3]. }
  set (s1 := macro_span target_path s) in *.
  assert (Hl : new_contents st (label_child E base_path info s1 st3)
               = new_contents st st3 ++ label_entries E base_path any_label info s1
               /\ children (message st)
                  `prefix_of` children
                     (message (label_child E base_path info s1 st3))).
  { unfold label_child, label_entries. destruct (label s1) as [l |]; simpl.
    - split.
      + unfold add_additional.
        rewrite (new_contents_append st st3 _ Hp3). reflexivity.
      + etrans; [exact Hp3 | by apply prefix_app_r].
    - rewrite app_nil_r. split; [reflexivity | exact Hp3]. }
  destruct Hl as [Hl Hp4].
  unfold replacement_child, replacement_entries.
  destruct (suggested_replacement s1) as [r |] eqn:Hr; simpl.
  - destruct (negb (String.eqb r EmptyString)).
    + rewrite (new_contents_append st _ _ Hp4), Hl, <- app_assoc.
      reflexivity.
    + rewrite Hl, app_nil_r. reflexivity.
  - rewrite Hl, app_nil_r. reflexivity.
Qed.

(** C8, the claim as stated fails: with warnings hidden, a top-level
    warning without spans is dropped at the gate; it is not placed at
    the target path. *)
Lemma hidden_global_warning_is_dropped :
  ~ global_message_outcome (posix true) "/p" (Some "/p/src/main.rs") true
      (no_main "warning") (start 0).
Proof.
  unfold global_message_outcome. vm_compute. intros [H _]. discriminate H.
Qed.

(** C8 (amended): for a top-level record without spans that passes the
    gate on warnings: a text that starts with "aborting due to" or
    "cannot continue" changes nothing; else, with a target path, the
    primary message gets that path, no region, the text and the level;
    else the tree is left as it is and the callback, if there is one,
    gets a message with the level and the text.  In the first and the
    last case a record without children leaves [WINDOW_MESSAGES] as it
    was. *)
Theorem global_message_without_spans
    (E : Env) (base_path : string) (target_path : option string)
    (msg_cb : bool) (info : Info) (st : Collect) :
  hide_gate E info None = false ->
  info_spans info = [] ->
  primary (root (message st)) = true ->
  global_message_outcome E base_path target_path msg_cb info st
  /\ (uninteresting (info_message info) = true \/ truthy target_path = false ->
      info_children info = [] ->
      forall wid w,
        exists w',
          add_rust_messages E wid base_path (Rustc info) target_path msg_cb w
          = Some w'
          /\ WINDOW_MESSAGES w' = WINDOW_MESSAGES w).
Proof.
  intros Hgate Hspans Hprim.
  assert (Hown : forall st0,
    collect_own E base_path target_path msg_cb info None st0
    = no_spans E base_path target_path msg_cb info None st0).
  { intros st0. unfold collect_own. rewrite Hspans. reflexivity. }
  split.
  - unfold global_message_outcome, own_step. rewrite Hgate, Hown.
    unfold no_spans. fold (uninteresting (info_message info)).
    destruct (uninteresting (info_message info)); simpl; [reflexivity |].
    destruct target_path as [tp |]; simpl.
    + destruct (negb (String.eqb tp EmptyString)); simpl.
      * repeat split; try reflexivity. exact Hprim.
      * destruct msg_cb; simpl; split; try reflexivity.
        rewrite app_nil_r. reflexivity.
    + destruct msg_cb; simpl; split; try reflexivity.
      rewrite app_nil_r. reflexivity.
  - intros Hcase Hchildren wid w. unfold add_rust_messages.
    rewrite collect_unfold, Hgate, Hchildren, Hown. unfold collect_children.
    cbn [foldl].
    assert (Hpath :
      path (root (message
        (snd (no_spans E base_path target_path msg_cb info None
           {| message := {| root := new_Message (fresh w); children := [] |};
              console := callbacks w; next_id := S (fresh w) |})))) = None).
    { unfold no_spans. fold (uninteresting (info_message info)).
      destruct (uninteresting (info_message info)); simpl; [reflexivity |].
      destruct Hcase as [Hc | Hc]; [discriminate Hc |].
      destruct target_path as [tp |]; simpl in *.
      - rewrite Hc. destruct msg_cb; reflexivity.
      - destruct msg_cb; reflexivity. }
    rewrite Hpath. simpl. eexists. split; reflexivity.
Qed.

Lemma global_message_without_spans_witness :
  hide_gate (posix false) (no_main "warning") None = false
  /\ info_spans (no_main "warning") = []
  /\ primary (root (message (start 0))) = true
  /\ global_message_outcome (posix false) "/p" (Some "/p/src/main.rs") true
       (no_main "warning") (start 0).
Proof.
  split; [reflexivity |]. split; [reflexivity |]. split; [reflexivity |].
  apply (global_message_without_spans (posix false) "/p"
           (Some "/p/src/main.rs") true (no_main "warning") (start 0));
    reflexivity.
Defined.

(** ** Cross links *)

Lemma far_away_key p c c' :
  seen_key c = seen_key c' -> far_away p c = far_away p c'.
Proof.
  unfold seen_key, far_away. intros [= Hp Hl]. rewrite Hp, Hl. reflexivity.
Qed.

Lemma elem_of_far_keys p cs k :
  k ∈ far_keys p cs <-> exists c, c ∈ cs /\ far_away p c = true /\ seen_key c = k.
Proof.
  unfold far_keys. rewrite elem_of_list_to_set, list_elem_of_fmap.
  split.
  - intros (c & -> & Hc). apply list_elem_of_filter in Hc as [Hf Hc]. eauto.
  - intros (c & Hc & Hf & <-). exists c. split; [reflexivity |].
    apply list_elem_of_filter. split; assumption.
Qed.

Lemma far_keys_snoc p cs c :
  far_keys p (cs ++ [c])
  = if far_away p c then {[ seen_key c ]} ∪ far_keys p cs else far_keys p cs.
Proof.
  apply set_eq. intros k. destruct (far_away p c) eqn:Hf.
  - rewrite elem_of_union, elem_of_singleton, !elem_of_far_keys. split.
    + intros (c' & Hc' & Hf' & Hk). apply elem_of_app in Hc' as [Hc' | Hc'].
      * right. eauto.
      * apply list_elem_of_singleton in Hc'. subst c'. left. by symmetry.
    + intros [-> | (c' & Hc' & Hf' & Hk)].
      * exists c. split; [| split; [assumption | reflexivity]].
        apply elem_of_app. right. by apply list_elem_of_singleton.
      * exists c'. split; [| split; assumption].
        apply elem_of_app. by left.
  - rewrite !elem_of_far_keys. split.
    + intros (c' & Hc' & Hf' & Hk). apply elem_of_app in Hc' as [Hc' | Hc'].
      * eauto.
      * apply list_elem_of_singleton in Hc'. subst c'. congruence.
    + intros (c' & Hc' & Hf' & Hk). exists c'. split; [| split; assumption].
      apply elem_of_app. by left.
Qed.

(** For a child far away, its key is among the keys of the far
    children before it just when it is among the keys of all of them. *)
Lemma far_key_seen p cs c :
  far_away p c = true ->
  seen_key c ∈ far_keys p cs <-> seen_key c ∈ seen_key <$> cs.
Proof.
  intros Hf. rewrite elem_of_far_keys, list_elem_of_fmap. split.
  - intros (c' & Hc' & _ & Hk). eauto.
  - intros (c' & Hk & Hc'). exists c'. split; [assumption |].
    split; [| by symmetry]. rewrite <- Hf. apply far_away_key. by symmetry.
Qed.

Section CrossLinkFacts.

Variable E : Env.
Variable p : Message.

(** What the loop over the children has done after the children
    [cs]. *)
Lemma link_loop_spec cs :
  let r := foldl (link_step E p)
             {| link_set := ∅; links := []; done_children := [] |} cs in
  link_set r = far_keys p cs
  /\ length (links r) = size (link_set r)
  /\ length (done_children r) = length cs
  /\ forall i c, cs !! i = Some c ->
       done_children r !! i
       = Some (if first_far_child p cs i c
               then set_back_link c (make_back_link p) else c).
Proof.
  induction cs as [| c cs IH] using rev_ind; simpl.
  - split; [reflexivity |]. split; [reflexivity |].
    split; [reflexivity |]. intros i c Hi. by rewrite lookup_nil in Hi.
  - rewrite foldl_app. cbn [foldl].
    destruct IH as (Hset & Hlen & Hdone & Hget).
    set (r := foldl (link_step E p)
                {| link_set := ∅; links := []; done_children := [] |} cs) in *.
    assert (Hold : forall i c0, cs !! i = Some c0 ->
              first_far_child p (cs ++ [c]) i c0 = first_far_child p cs i c0).
    { intros i c0 Hi. unfold first_far_child, first_with_key.
      rewrite take_app_le; [reflexivity |].
      apply lookup_lt_Some in Hi. lia. }
    assert (Hlast : first_far_child p (cs ++ [c]) (length cs) c
                    = far_away p c
                      && negb (bool_decide (seen_key c ∈ link_set r))).
    { unfold first_far_child, first_with_key.
      rewrite take_app_length. destruct (far_away p c) eqn:Hf; simpl;
        [| reflexivity].
      rewrite Hset, bool_decide_not. f_equal. apply bool_decide_ext.
      symmetry. apply (far_key_seen p cs c Hf). }
    assert (Hlookup : forall d' x,
      length d' = length cs ->
      (forall i c0, cs !! i = Some c0 ->
         d' !! i = Some (if first_far_child p cs i c0
                         then set_back_link c0 (make_back_link p) else c0)) ->
      x = (if first_far_child p (cs ++ [c]) (length cs) c
           then set_back_link c (make_back_link p) else c) ->
      forall i c0, (cs ++ [c]) !! i = Some c0 ->
        (d' ++ [x]) !! i
        = Some (if first_far_child p (cs ++ [c]) i c0
                then set_back_link c0 (make_back_link p) else c0)).
    { intros d' x Hd' Hg Hx i c0 Hi.
      destruct (decide (i < length cs)%nat) as [Hlt | Hge].
      - rewrite lookup_app_l in Hi by exact Hlt.
        rewrite lookup_app_l by lia. rewrite (Hold i c0 Hi). by apply Hg.
      - assert (i = length cs) as ->.
        { apply lookup_lt_Some in Hi. rewrite length_app in Hi. simpl in Hi.
          lia. }
        rewrite list_lookup_middle in Hi by reflexivity.
        injection Hi as <-.
        rewrite list_lookup_middle by (by symmetry). by rewrite Hx. }
    unfold link_step.
    rewrite far_keys_snoc. rewrite Hlast in Hlookup.
    destruct (far_away p c) eqn:Hf; simpl in *.
    + destruct (bool_decide (seen_key c ∈ link_set r)) eqn:Hseen; simpl in *.
      * apply bool_decide_eq_true in Hseen.
        split.
        { rewrite <- Hset. apply set_eq. intros k.
          rewrite elem_of_union, elem_of_singleton. split; [tauto |].
          intros [-> | Hk]; assumption. }
        split; [exact Hlen |].
        split; [rewrite !length_app; simpl; lia |].
        apply Hlookup; [exact Hdone | exact Hget | reflexivity].
      * apply bool_decide_eq_false in Hseen.
        split; [by rewrite Hset |].
        split.
        { rewrite length_app, size_union, size_singleton; [simpl; lia |].
          intros k Hk1 Hk2. apply elem_of_singleton in Hk1. subst k.
          contradiction. }
        split; [rewrite !length_app; simpl; lia |].
        apply Hlookup; [exact Hdone | exact Hget | reflexivity].
    + split; [exact Hset |]. split; [exact Hlen |].
      split; [rewrite !length_app; simpl; lia |].
      apply Hlookup; [exact Hdone | exact Hget | reflexivity].
Qed.

End CrossLinkFacts.

Lemma first_far_children_snoc p cs c :
  first_far_children p (cs ++ [c])
  = first_far_children p cs
    ++ (if first_far_child p (cs ++ [c]) (length cs) c then [c] else []).
Proof.
  unfold first_far_children. rewrite imap_app, omap_app. f_equal.
  - f_equal. apply imap_ext. intros i c0 Hi.
    unfold first_far_child, first_with_key.
    rewrite take_app_le; [reflexivity |]. apply lookup_lt_Some in Hi. lia.
  - cbn [imap omap]. rewrite Nat.add_0_r.
    by destruct (first_far_child p (cs ++ [c]) (length cs) c).
Qed.

Lemma first_far_child_last p cs c :
  first_far_child p (cs ++ [c]) (length cs) c
  = far_away p c && negb (bool_decide (seen_key c ∈ far_keys p cs)).
Proof.
  unfold first_far_child, first_with_key. rewrite take_app_length.
  destruct (far_away p c) eqn:Hf; [| reflexivity]. cbn [andb].
  rewrite bool_decide_not. f_equal. apply bool_decide_ext.
  symmetry. by apply far_key_seen.
Qed.

(** The children of [first_far_children] are far away, no two of them
    have the same path and line, and their paths and lines are those
    of the children far away. *)
Lemma first_far_children_keys p cs :
  Forall (fun c => far_away p c = true) (first_far_children p cs)
  /\ NoDup (seen_key <$> first_far_children p cs)
  /\ list_to_set (seen_key <$> first_far_children p cs) = far_keys p cs.
Proof.
  induction cs as [| c cs (Hfar & Hnd & Hset)] using rev_ind.
  - split; [constructor |]. split; [constructor | reflexivity].
  - rewrite first_far_children_snoc, first_far_child_last, far_keys_snoc.
    destruct (far_away p c) eqn:Hf; cbn [andb].
    + destruct (bool_decide (seen_key c ∈ far_keys p cs)) eqn:Hseen;
        cbn [negb].
      * apply bool_decide_eq_true in Hseen. rewrite app_nil_r.
        split; [exact Hfar |]. split; [exact Hnd |].
        rewrite Hset. apply set_eq. intros k.
        rewrite elem_of_union, elem_of_singleton. split; [tauto |].
        by intros [-> | Hk].
      * apply bool_decide_eq_false in Hseen.
        split; [apply Forall_app; split; [exact Hfar | by constructor] |].
        rewrite fmap_app. cbn [fmap list_fmap]. split.
        -- apply NoDup_app. split; [exact Hnd |]. split; [| apply NoDup_singleton].
           intros k Hk Hk'. apply list_elem_of_singleton in Hk'. subst k.
           apply Hseen. rewrite <- Hset. by apply elem_of_list_to_set.
        -- rewrite list_to_set_app_L, Hset. cbn [list_to_set].
           apply set_eq. intros k.
           rewrite !elem_of_union, elem_of_singleton, elem_of_empty. tauto.
    + rewrite app_nil_r. by repeat split.
Qed.

Section CrossLinkTexts.

Variable E : Env.
Variable p : Message.

(** The link texts of the loop over the children are those of
    [first_far_children], in their order. *)
Lemma link_loop_links cs :
  links (foldl (link_step E p)
           {| link_set := ∅; links := []; done_children := [] |} cs)
  = link_text E p <$> first_far_children p cs.
Proof.
  induction cs as [| c cs IH] using rev_ind; [reflexivity |].
  rewrite foldl_app. cbn [foldl].
  destruct (link_loop_spec E p cs) as (Hset & _).
  cbn zeta in Hset.
  set (r := foldl (link_step E p)
              {| link_set := ∅; links := []; done_children := [] |} cs) in *.
  rewrite first_far_children_snoc, first_far_child_last, <- Hset.
  unfold link_step.
  destruct (far_away p c); cbn [andb];
    [| by rewrite app_nil_r].
  destruct (bool_decide (seen_key c ∈ link_set r)); cbn [negb links].
  - by rewrite app_nil_r.
  - by rewrite fmap_app, IH.
Qed.

End CrossLinkTexts.

(** C5, the claim as stated fails: of two children on the same far
    line only the first gets the back link. *)
Lemma second_child_on_a_line_has_no_back_link :
  ~ links_follow every_far_child (posix false) same_line_tree 4.
Proof.
  intros [H _]. specialize (H 1%nat (note_at 2 10 "second") eq_refl).
  vm_compute in H. discriminate H.
Qed.

(** C5 (amended): a child gets the back link just when it is far away
    (another file, or more than 5 lines from the primary message) and
    no child before it has its path and line; every other child is
    left as it is.  After the children come the forward links, one for
    each child that got the back link, in their order, each with the
    link to the place of its child; these children are far away, no
    two of them have the same path and line, and a child is far away
    just when its path and line are those of one of them: there is
    one forward link for each distinct path and line of the children
    far away. *)
Theorem cross_links_of_far_children (E : Env) (t : MessageTree) (next : nat) :
  links_follow first_far_child E t next
  /\ let firsts := first_far_children (root t) (children t) in
     Forall (fun c => far_away (root t) c = true) firsts
     /\ NoDup (seen_key <$> firsts)
     /\ (forall c, c ∈ children t ->
           far_away (root t) c = true <-> seen_key c ∈ seen_key <$> firsts)
     /\ length firsts = size (far_keys (root t) (children t)).
Proof.
  destruct (first_far_children_keys (root t) (children t))
    as (Hfar & Hnd & Hkeys).
  split.
  - unfold links_follow, _create_cross_links, cross_link_loop.
    cbn [fst children].
    destruct (link_loop_spec E (root t) (children t))
      as (_ & _ & Hdone & Hget).
    cbn zeta in Hdone, Hget. split.
    + intros i c Hi. rewrite lookup_app_l.
      * by apply Hget.
      * rewrite Hdone. by apply lookup_lt_Some in Hi.
    + rewrite <- Hdone, drop_app_length. unfold link_messages.
      rewrite link_loop_links, imap_fmap. reflexivity.
  - cbn zeta. split; [exact Hfar |]. split; [exact Hnd |]. split.
    + intros c Hc. split.
      * intros Hf.
        apply (elem_of_list_to_set (C := gset (option string * Z))).
        rewrite Hkeys. apply elem_of_far_keys. by exists c.
      * intros Hk. apply list_elem_of_fmap in Hk as (c' & Hkey & Hc').
        rewrite Forall_forall in Hfar. rewrite <- (Hfar c' Hc').
        by apply far_away_key.
    + rewrite <- Hkeys, size_list_to_set by exact Hnd.
      by rewrite length_fmap.
Qed.

(** ** Insertion *)

Section OrderedDictFacts.

Context {A : Type}.
Implicit Types (d : OrderedDict A) (k : string) (v : A).

Lemma od_get_setdefault d k v :
  od_get (setdefault d k v) k = Some (default v (od_get d k)).
Proof.
  induction d as [| [k' x] d IH]; simpl.
  - by rewrite String.eqb_refl.
  - destruct (String.eqb k' k) eqn:Hk; simpl; rewrite Hk; [reflexivity | exact IH].
Qed.

Lemma od_get_setdefault_ne d k k' v :
  k <> k' -> od_get (setdefault d k v) k' = od_get d k'.
Proof.
  intros Hne. induction d as [| [k0 x] d IH]; simpl.
  - apply String.eqb_neq in Hne. by rewrite Hne.
  - destruct (String.eqb k0 k) eqn:Hk; simpl; [reflexivity |].
    destruct (String.eqb k0 k'); [reflexivity | exact IH].
Qed.

Lemma setdefault_present d k v x :
  od_get d k = Some x -> setdefault d k v = d.
Proof.
  induction d as [| [k' y] d IH]; simpl; [discriminate |].
  destruct (String.eqb k' k); [reflexivity |].
  intros H. by rewrite IH.
Qed.

Lemma od_get_alter (f : A -> A) d k :
  od_get (od_alter f k d) k = f <$> od_get d k.
Proof.
  induction d as [| [k' x] d IH]; simpl; [reflexivity |].
  destruct (String.eqb k' k) eqn:Hk; simpl; rewrite Hk; [reflexivity | exact IH].
Qed.

Lemma od_get_alter_ne (f : A -> A) d k k' :
  k <> k' -> od_get (od_alter f k d) k' = od_get d k'.
Proof.
  intros Hne. induction d as [| [k0 x] d IH]; simpl; [reflexivity |].
  destruct (String.eqb k0 k) eqn:Hk; simpl.
  - apply String.eqb_eq in Hk. subst k0.
    apply String.eqb_neq in Hne. by rewrite Hne.
  - destruct (String.eqb k0 k'); [reflexivity | exact IH].
Qed.

End OrderedDictFacts.

Lemma length_append_entry (d : OrderedDict (list Message)) k x :
  length (concat (snd <$> od_alter (fun l => l ++ [x]) k (setdefault d k [])))
  = S (length (concat (snd <$> d))).
Proof.
  induction d as [| [k' l] d IH].
  - simpl. by rewrite String.eqb_refl.
  - cbn [setdefault]. destruct (String.eqb k' k) eqn:Hk;
      cbn [od_alter]; rewrite Hk; rewrite !fmap_cons; cbn [snd concat];
      rewrite !length_app.
    + simpl. lia.
    + rewrite IH. lia.
Qed.

(** [is_similar] compares the contents. *)
Lemma is_similar_content m other :
  is_similar m other = bool_decide (content other = content m).
Proof.
  unfold is_similar, content.
  destruct (decide (path other = path m)) as [Hp | Hp];
  destruct (decide (span other = span m)) as [Hs | Hs];
  destruct (decide (level other = level m)) as [Hl | Hl];
  destruct (decide (text other = text m)) as [Ht | Ht];
  repeat (rewrite bool_decide_eq_true_2 by assumption);
  repeat (rewrite bool_decide_eq_false_2 by assumption); simpl;
  try (symmetry; apply bool_decide_eq_false_2; congruence);
  symmetry; apply bool_decide_eq_true_2; congruence.
Qed.

Lemma blocked_similar wid m m' w :
  content m = content m' -> blocked wid m w = blocked wid m' w.
Proof.
  intros Hc. unfold blocked.
  assert (Hp : path m = path m') by (unfold content in Hc; congruence).
  rewrite <- Hp. destruct (path m) as [p |]; [| reflexivity].
  f_equal. induction (stored_at wid p w) as [| x l IH]; simpl;
    [reflexivity |].
  rewrite IH, !is_similar_content, Hc. reflexivity.
Qed.

Section AddMessageFacts.

Variable msg_cb : bool.
Variable wid : nat.

(** A blocked message: the call leaves everything as it was. *)
Lemma add_message_blocked m w :
  is_Some (path m) -> blocked wid m w = true ->
  add_message msg_cb wid m w = Some w.
Proof.
  intros [p Hp] Hb. unfold add_message, blocked in *. rewrite Hp in *.
  destruct (contains MACROS p); [reflexivity |]. simpl in Hb.
  unfold stored_at in Hb.
  destruct (WINDOW_MESSAGES w !! wid) as [info |] eqn:Hw;
    [| discriminate Hb].
  rewrite Hw. simpl.
  destruct (od_get (paths info) p) as [l |] eqn:Hl; [| discriminate Hb].
  rewrite (setdefault_present _ _ _ _ Hl), Hl. simpl in *. rewrite Hb.
  rewrite insert_id; [by destruct w |]. rewrite Hw. by destruct info.
Qed.

(** What is stored under a path after a call. *)
Lemma add_message_stored m w p :
  path m = Some p ->
  exists w',
    add_message msg_cb wid m w = Some w'
    /\ (forall p',
          stored_at wid p' w'
          = if bool_decide (p' = p) && negb (blocked wid m w)
            then stored_at wid p w
                 ++ [set_region_key m
                       ("rust-" +:+ pretty (S (length (stored_at wid p w))))]
            else stored_at wid p' w)
    /\ entry_count wid w'
       = (if blocked wid m w then entry_count wid w
          else S (entry_count wid w)).
Proof.
  intros Hp. destruct (blocked wid m w) eqn:Hb.
  - exists w. rewrite add_message_blocked by (rewrite ?Hp; eauto).
    split; [reflexivity |]. split; [| reflexivity].
    intros p'. by rewrite andb_false_r.
  - unfold add_message, blocked in *. rewrite Hp in *.
    apply orb_false_iff in Hb as [Hm Hb]. rewrite Hm.
    set (wm := match WINDOW_MESSAGES w !! wid with
               | Some _ => WINDOW_MESSAGES w
               | None => <[wid:=new_WindowInfo]> (WINDOW_MESSAGES w)
               end).
    set (info := default new_WindowInfo (wm !! wid)).
    assert (Hst : forall q, stored_at wid q w = default [] (od_get (paths info) q)).
    { intros q. unfold stored_at, info, wm.
      destruct (WINDOW_MESSAGES w !! wid) as [i |] eqn:Hw.
      - rewrite Hw. reflexivity.
      - rewrite lookup_insert_eq. reflexivity. }
    assert (Hmsgs : default [] (od_get (setdefault (paths info) p []) p)
                    = stored_at wid p w).
    { rewrite od_get_setdefault, Hst. simpl.
      by destruct (od_get (paths info) p). }
    rewrite Hmsgs, Hb. eexists. split; [reflexivity |]. split.
    + intros p'. unfold stored_at at 1. simpl. rewrite lookup_insert_eq.
      simpl. rewrite andb_true_r. case_bool_decide as Hpp.
      * subst p'. rewrite od_get_alter, od_get_setdefault. simpl.
        rewrite Hst. by destruct (od_get (paths info) p).
      * rewrite od_get_alter_ne, od_get_setdefault_ne by congruence.
        by rewrite Hst.
    + unfold entry_count at 1. simpl. rewrite lookup_insert_eq. simpl.
      rewrite length_append_entry. f_equal. unfold entry_count, info, wm.
      destruct (WINDOW_MESSAGES w !! wid) as [i |] eqn:Hw.
      * rewrite Hw. reflexivity.
      * rewrite lookup_insert_eq. reflexivity.
Qed.

(** After a call the message is blocked, and what was blocked stays
    blocked. *)
Lemma add_message_blocks m w :
  is_Some (path m) ->
  exists w',
    add_message msg_cb wid m w = Some w'
    /\ blocked wid m w' = true
    /\ (forall m', blocked wid m' w = true -> blocked wid m' w' = true)
    /\ (entry_count wid w' <= S (entry_count wid w))%nat
    /\ (blocked wid m w = true -> w' = w).
Proof.
  intros [p Hp].
  destruct (add_message_stored m w p Hp) as (w' & Hadd & Hst & Hcount).
  exists w'. split; [exact Hadd |].
  assert (Hmono : forall m', blocked wid m' w = true ->
                             blocked wid m' w' = true).
  { intros m' Hb'. unfold blocked in Hb' |- *.
    destruct (path m') as [q |]; [| discriminate Hb'].
    apply orb_true_iff in Hb' as [Hb' | Hb']; [by rewrite Hb' |].
    apply orb_true_iff. right. rewrite Hst.
    destruct (bool_decide (q = p) && negb (blocked wid m w)) eqn:Hc.
    - apply andb_true_iff in Hc as [Hq _].
      apply bool_decide_eq_true in Hq. subst q.
      rewrite List.existsb_app, Hb'. reflexivity.
    - exact Hb'. }
  split; [| split; [exact Hmono |]].
  - destruct (blocked wid m w) eqn:Hb; [by apply Hmono |].
    unfold blocked. rewrite Hp. apply orb_true_iff. right.
    rewrite Hst, bool_decide_eq_true_2 by reflexivity. cbn [andb negb].
    rewrite List.existsb_app. apply orb_true_iff. right.
    simpl. rewrite is_similar_content.
    rewrite bool_decide_eq_true_2; reflexivity.
  - split.
    + rewrite Hcount. destruct (blocked wid m w); lia.
    + intros Hb. rewrite add_message_blocked in Hadd by (rewrite ?Hp; eauto).
      congruence.
Qed.

End AddMessageFacts.

Section AddMessagesFacts.

Variable msg_cb : bool.
Variable wid : nat.

Lemma add_messages_app ms1 ms2 w :
  add_messages msg_cb wid (ms1 ++ ms2) w
  = add_messages msg_cb wid ms1 w ≫= add_messages msg_cb wid ms2.
Proof.
  revert w. induction ms1 as [| m ms1 IH]; intros w; simpl; [reflexivity |].
  destruct (add_message msg_cb wid m w) as [w' |]; simpl;
    [apply IH | reflexivity].
Qed.

(** Messages that are all blocked: nothing changes. *)
Lemma add_messages_blocked ms w :
  Forall (fun m => is_Some (path m)) ms ->
  Forall (fun m => blocked wid m w = true) ms ->
  add_messages msg_cb wid ms w = Some w.
Proof.
  induction 1 as [| m ms Hm _ IH]; intros Hb; simpl; [reflexivity |].
  inversion Hb as [| ? ? Hbm Hbms]; subst.
  rewrite (add_message_blocked msg_cb wid m w Hm Hbm). by apply IH.
Qed.

(** After the messages are added each of them is blocked. *)
Lemma add_messages_blocks ms : forall w,
  Forall (fun m => is_Some (path m)) ms ->
  exists w1,
    add_messages msg_cb wid ms w = Some w1
    /\ Forall (fun m => blocked wid m w1 = true) ms
    /\ (forall m', blocked wid m' w = true -> blocked wid m' w1 = true).
Proof.
  induction ms as [| m ms IH]; intros w Hall; simpl.
  - exists w. split; [reflexivity |]. split; [constructor | auto].
  - inversion Hall as [| ? ? Hm Hms]; subst.
    destruct (add_message_blocks msg_cb wid m w Hm)
      as (w' & Hadd & Hb & Hmono & _).
    rewrite Hadd. destruct (IH w' Hms) as (w1 & Hadds & Hbs & Hmono1).
    exists w1. split; [exact Hadds |]. split.
    + constructor; [by apply Hmono1 | exact Hbs].
    + intros m' Hb'. by apply Hmono1, Hmono.
Qed.

(** Messages with one and the same content: at most one is stored. *)
Lemma add_messages_same_content ms c w :
  Forall (fun m => is_Some (path m) /\ content m = c) ms ->
  exists w2,
    add_messages msg_cb wid ms w = Some w2
    /\ (entry_count wid w2 <= S (entry_count wid w))%nat.
Proof.
  destruct ms as [| m ms]; intros Hall; simpl.
  - exists w. split; [reflexivity | lia].
  - inversion Hall as [| ? ? [Hm Hc] Hms]; subst.
    destruct (add_message_blocks msg_cb wid m w Hm)
      as (w' & Hadd & Hb & _ & Hcount & _).
    rewrite Hadd. exists w'. split; [| exact Hcount].
    apply add_messages_blocked.
    + eapply Forall_impl; [exact Hms |]. by intros x [Hx _].
    + eapply Forall_impl; [exact Hms |]. intros x [_ Hx].
      rewrite <- Hb. by apply blocked_similar.
Qed.

End AddMessagesFacts.

(** C3: when the messages of a tree are added twice, the second round
    changes nothing, so the number of stored messages is that of one
    round; the reason is the test in [add_message]: a message with a
    similar one stored under its path is not added.  The window may
    hold messages or none before. *)
Theorem insert_twice_is_insert_once
    (msg_cb : bool) (wid : nat) (t : MessageTree) (w : World) :
  Forall (fun m => is_Some (path m)) (iter t) ->
  (exists w1 w2,
     add_messages msg_cb wid (iter t) w = Some w1
     /\ add_messages msg_cb wid (iter t) w1 = Some w2
     /\ w2 = w1
     /\ entry_count wid w2 = entry_count wid w1)
  /\ (forall m p other w0,
        path m = Some p ->
        other ∈ stored_at wid p w0 ->
        is_similar m other = true ->
        add_message msg_cb wid m w0 = Some w0).
Proof.
  intros Hall. split.
  - destruct (add_messages_blocks msg_cb wid (iter t) w Hall)
      as (w1 & Hadd & Hb & _).
    exists w1, w1. split; [exact Hadd |].
    split; [by apply add_messages_blocked |]. split; reflexivity.
  - intros m p other w0 Hp Hin Hsim. apply add_message_blocked.
    + rewrite Hp. eauto.
    + unfold blocked. rewrite Hp. apply orb_true_iff. right.
      apply existsb_exists. exists other. split; [| exact Hsim].
      apply list_elem_of_In. exact Hin.
Qed.

Lemma insert_twice_is_insert_once_witness :
  Forall (fun m => is_Some (path m)) (iter two_far_tree)
  /\ exists w1 w2,
       add_messages true 1 (iter two_far_tree) no_windows = Some w1
       /\ add_messages true 1 (iter two_far_tree) w1 = Some w2
       /\ w2 = w1
       /\ entry_count 1 w2 = entry_count 1 w1.
Proof.
  assert (H : Forall (fun m => is_Some (path m)) (iter two_far_tree)).
  { repeat constructor; eexists; reflexivity. }
  split; [exact H |].
  exact (proj1 (insert_twice_is_insert_once true 1 two_far_tree no_windows H)).
Defined.

Lemma link_messages_content p next texts :
  Forall (fun l => content l = (path p, span p, level p, None))
         (link_messages p next texts).
Proof.
  unfold link_messages. apply Forall_forall. intros l Hl.
  apply list_elem_of_lookup in Hl as [i Hi].
  rewrite list_lookup_imap in Hi.
  destruct (texts !! i); simpl in Hi; [| discriminate].
  injection Hi as <-. reflexivity.
Qed.

Lemma link_entries_are_link_messages E t next :
  exists texts,
    drop (length (children t)) (children (fst (_create_cross_links E t next)))
    = link_messages (root t) next texts.
Proof.
  unfold _create_cross_links, cross_link_loop. simpl.
  destruct (link_loop_spec E (root t) (children t)) as (_ & _ & Hdone & _).
  eexists. rewrite <- Hdone, drop_app_length. reflexivity.
Qed.

(** The tree [two_far_tree] gets two link messages; of the five
    messages four are stored, one of them a link. *)
Example two_far_children_one_link_stored :
  length (children (fst (_create_cross_links (posix false) two_far_tree 3)))
  = 4%nat
  /\ entry_count 1
       <$> add_messages true 1
             (iter (fst (_create_cross_links (posix false) two_far_tree 3)))
             no_windows
     = Some 4%nat.
Proof. split; vm_compute; reflexivity. Qed.

(** C10: every link message of a primary message has its path, its
    region and its level, and no text; so they are similar to each
    other, and when the tree is added, the link messages, which come
    after the primary message and the children, add at most one
    message to the window. *)
Theorem at_most_one_link_stored
    (E : Env) (t : MessageTree) (next : nat) (msg_cb : bool) (wid : nat)
    (p : string) :
  path (root t) = Some p ->
  let t' := fst (_create_cross_links E t next) in
  let link_entries := drop (length (children t)) (children t') in
  Forall (fun l => content l
                   = (path (root t), span (root t), level (root t), None))
         link_entries
  /\ (forall l1 l2, l1 ∈ link_entries -> l2 ∈ link_entries ->
        is_similar l1 l2 = true)
  /\ (forall w,
        add_messages msg_cb wid (iter t') w
        = add_messages msg_cb wid
            (root t' :: take (length (children t)) (children t')) w
          ≫= add_messages msg_cb wid link_entries)
  /\ (forall w,
        exists w2,
          add_messages msg_cb wid link_entries w = Some w2
          /\ (entry_count wid w2 <= S (entry_count wid w))%nat).
Proof.
  intros Hp t' link_entries.
  destruct (link_entries_are_link_messages E t next) as (texts & Hdrop).
  fold t' in Hdrop. fold link_entries in Hdrop.
  assert (Hc : Forall (fun l => content l
                 = (path (root t), span (root t), level (root t), None))
                 link_entries).
  { rewrite Hdrop. apply link_messages_content. }
  split; [exact Hc |]. split; [| split].
  - intros l1 l2 H1 H2. rewrite Forall_forall in Hc.
    rewrite is_similar_content. apply bool_decide_eq_true_2.
    rewrite (Hc l1 H1), (Hc l2 H2). reflexivity.
  - intros w. unfold iter.
    rewrite <- (take_drop (length (children t)) (children t')) at 1.
    fold link_entries. rewrite app_comm_cons. apply add_messages_app.
  - intros w. eapply add_messages_same_content.
    eapply Forall_impl; [exact Hc |]. intros l Hl. split; [| exact Hl].
    unfold content in Hl. injection Hl as Hl _ _ _. rewrite Hl, Hp. eauto.
Qed.

Lemma at_most_one_link_stored_witness :
  path (root two_far_tree) = Some "/p/src/main.rs"
  /\ forall w,
       exists w2,
         add_messages true 1
           (drop (length (children two_far_tree))
              (children (fst (_create_cross_links (posix false)
                                two_far_tree 3)))) w
         = Some w2
         /\ (entry_count 1 w2 <= S (entry_count 1 w))%nat.
Proof.
  split; [reflexivity |].
  exact (proj2 (proj2 (proj2
    (at_most_one_link_stored (posix false) two_far_tree 3 true 1
       "/p/src/main.rs" eq_refl)))).
Defined.

(** ** Next message *)

Lemma matches_in_bounds levels ms : forall i j,
  j ∈ matches_in levels ms i -> (i <= j < i + length ms)%nat.
Proof.
  induction ms as [| m ms IH]; intros i j Hj; simpl in *.
  - by apply elem_of_nil in Hj.
  - apply elem_of_app in Hj as [Hj | Hj].
    + destruct (_is_matching_level levels m).
      * apply list_elem_of_singleton in Hj. lia.
      * by apply elem_of_nil in Hj.
    + apply IH in Hj. lia.
Qed.

Lemma first_match_head levels rest i :
  first_match levels rest i = head (matches_in levels rest i).
Proof.
  revert i. induction rest as [| m rest IH]; intros i; simpl; [reflexivity |].
  destruct (_is_matching_level levels m); simpl; [reflexivity | apply IH].
Qed.

Lemma filter_all {A} (P : A -> Prop) `{!forall x, Decision (P x)} (l : list A) :
  Forall P l -> filter P l = l.
Proof.
  induction 1 as [| x l Hx _ IH]; [reflexivity |].
  rewrite filter_cons_True by exact Hx. by rewrite IH.
Qed.

Lemma filter_none {A} (P : A -> Prop) `{!forall x, Decision (P x)} (l : list A) :
  Forall (fun x => ~ P x) l -> filter P l = [].
Proof.
  induction 1 as [| x l Hx _ IH]; [reflexivity |].
  rewrite filter_cons_False by exact Hx. exact IH.
Qed.

(** The inner loop from [msg_idx = i + k] on. *)
Lemma first_match_drop levels ms : forall i k,
  first_match levels (drop k ms) (i + k)
  = head (filter (fun j => (i + k <= j)%nat) (matches_in levels ms i)).
Proof.
  induction ms as [| m ms IH]; intros i k.
  - rewrite drop_nil. reflexivity.
  - destruct k as [| k].
    + rewrite drop_0, Nat.add_0_r, first_match_head. f_equal. symmetry.
      apply filter_all. apply Forall_forall. intros j Hj.
      apply matches_in_bounds in Hj. lia.
    + cbn [drop matches_in]. rewrite filter_app.
      rewrite (filter_none _ (if _is_matching_level levels m then [i] else [])).
      * simpl. replace (i + S k)%nat with (S i + k)%nat by lia. apply IH.
      * destruct (_is_matching_level levels m); repeat constructor. lia.
Qed.

Lemma matching_from_bounds levels d : forall b x,
  x ∈ matching_from levels d b -> (b <= fst x)%nat.
Proof.
  induction d as [| [k ms] d IH]; intros b x Hx; simpl in *.
  - by apply elem_of_nil in Hx.
  - apply elem_of_app in Hx as [Hx | Hx].
    + apply list_elem_of_fmap in Hx as (j & -> & _). simpl. lia.
    + apply IH in Hx. lia.
Qed.

Lemma scan_paths_head levels d b :
  scan_paths levels d b 0 = head (matching_from levels d b).
Proof.
  revert b. induction d as [| [k ms] d IH]; intros b; simpl; [reflexivity |].
  rewrite drop_0, first_match_head.
  destruct (matches_in levels ms 0) as [| j js]; simpl; [apply IH | reflexivity].
Qed.

(** The scan from the place [(b + p, m)] on finds the first matching
    index at or after that place. *)
Lemma scan_paths_spec levels d : forall b p m,
  scan_paths levels (drop p d) (b + p) m
  = head (filter (at_or_after ((b + p)%nat, m)) (matching_from levels d b)).
Proof.
  induction d as [| [k ms] d IH]; intros b p m.
  - rewrite drop_nil. reflexivity.
  - destruct p as [| p].
    + rewrite drop_0, Nat.add_0_r. cbn [scan_paths matching_from].
      rewrite filter_app.
      rewrite (filter_all _ (matching_from levels d (S b))).
      2:{ apply Forall_forall. intros x Hx. apply matching_from_bounds in Hx.
          left. simpl. lia. }
      pose proof (first_match_drop levels ms 0 m) as Hfm.
      cbn [Nat.add] in Hfm. rewrite Hfm. clear Hfm.
      assert (Hf : filter (at_or_after (b, m)) (pair b <$> matches_in levels ms 0)
                   = pair b <$> filter (fun j => (m <= j)%nat)
                                  (matches_in levels ms 0)).
      { induction (matches_in levels ms 0) as [| j js IHj]; [reflexivity |].
        rewrite fmap_cons. destruct (decide (m <= j)%nat) as [Hle | Hgt].
        - rewrite !filter_cons_True by (try right; simpl; auto).
          rewrite fmap_cons, IHj. reflexivity.
        - rewrite !filter_cons_False; [exact IHj | exact Hgt |].
          unfold at_or_after. simpl. lia. }
      rewrite Hf.
      destruct (filter (fun j => (m <= j)%nat) (matches_in levels ms 0))
        as [| j js]; simpl; [apply scan_paths_head | reflexivity].
    + cbn [drop matching_from]. rewrite filter_app.
      rewrite (filter_none _ (pair b <$> matches_in levels ms 0)).
      * simpl. replace (b + S p)%nat with (S b + p)%nat by lia. apply IH.
      * apply Forall_forall. intros x Hx.
        apply list_elem_of_fmap in Hx as (j & -> & _).
        unfold at_or_after. simpl. lia.
Qed.

Lemma matches_in_sorted levels ms : forall i,
  StronglySorted lt (matches_in levels ms i).
Proof.
  induction ms as [| m ms IH]; intros i; simpl; [constructor |].
  apply StronglySorted_app_2; [| | apply IH].
  - intros x1 x2 H1 H2. apply matches_in_bounds in H2.
    destruct (_is_matching_level levels m).
    + apply list_elem_of_singleton in H1. lia.
    + by apply elem_of_nil in H1.
  - destruct (_is_matching_level levels m); repeat constructor.
Qed.

(** The matching indices come in the order of the scan. *)
Lemma matching_from_sorted levels d : forall b,
  StronglySorted before (matching_from levels d b).
Proof.
  induction d as [| [k ms] d IH]; intros b; simpl; [constructor |].
  apply StronglySorted_app_2; [| | apply IH].
  - intros x1 x2 H1 H2. apply list_elem_of_fmap in H1 as (j & -> & _).
    apply matching_from_bounds in H2. left. simpl. lia.
  - eapply StronglySorted_fmap; [| apply matches_in_sorted].
    intros x y Hxy. right. simpl. lia.
Qed.

Lemma filter_before_drop (l : list (nat * nat)) : forall k x,
  StronglySorted before l -> l !! k = Some x ->
  filter (before x) l = drop (S k) l.
Proof.
  induction l as [| y l IH]; intros k x Hs Hk; [by rewrite lookup_nil in Hk |].
  apply StronglySorted_cons in Hs as [Hall Hs].
  destruct k as [| k]; simpl in Hk.
  - injection Hk as ->. rewrite filter_cons_False.
    + simpl. rewrite drop_0. apply filter_all. exact Hall.
    + unfold before. lia.
  - rewrite filter_cons_False.
    + simpl. by apply IH.
    + assert (Hyx : before y x).
      { rewrite Forall_forall in Hall. apply Hall.
        eapply list_elem_of_lookup_2. exact Hk. }
      unfold before in *. lia.
Qed.

Lemma next_scan_unset levels info :
  msg_index info = (-1, -1) ->
  next_scan levels info = head (matching_indices levels (paths info)).
Proof.
  intros H. unfold next_scan, next_start. rewrite H. simpl.
  rewrite drop_0. apply scan_paths_head.
Qed.

Lemma next_scan_after levels info k idx :
  matching_indices levels (paths info) !! k = Some idx ->
  msg_index info = index_Z idx ->
  next_scan levels info = matching_indices levels (paths info) !! S k.
Proof.
  intros Hk Hi. destruct idx as [a c]. unfold next_scan, next_start.
  rewrite Hi. unfold index_Z. simpl.
  replace (Z.of_nat a =? -1) with false by (symmetry; apply Z.eqb_neq; lia).
  rewrite Nat2Z.id.
  replace (Z.to_nat (Z.of_nat c + 1)) with (S c) by lia.
  pose proof (scan_paths_spec levels (paths info) 0 a (S c)) as Hs.
  cbn [Nat.add] in Hs. rewrite Hs.
  rewrite (list_filter_iff _ (before (a, c))).
  - rewrite (filter_before_drop _ k (a, c));
      [| apply matching_from_sorted | exact Hk].
    rewrite head_lookup, lookup_drop. f_equal. lia.
  - intros [x y]. unfold at_or_after, before. simpl. lia.
Qed.

Section NextFacts.

Variable levels : string.
Variable wid : nat.
Variable d : OrderedDict (list Message).

Local Abbreviation M := (matching_indices levels d).

Lemma cursor_at_set w info idx k :
  paths info = d -> M !! k = Some idx ->
  cursor_at levels wid d (Some k) (set_msg_index wid info (index_Z idx) w).
Proof.
  intros Hd Hk. eexists. split; [apply lookup_insert_eq |].
  split; [exact Hd |]. simpl. eauto.
Qed.

(** A call with a matching index ahead returns it. *)
Lemma advance_next_ahead pos w j idx :
  cursor_at levels wid d pos w ->
  j = match pos with None => O | Some k => S k end ->
  M !! j = Some idx ->
  fst (_advance_next_message levels wid w) = Some (index_Z idx)
  /\ cursor_at levels wid d (Some j) (snd (_advance_next_message levels wid w)).
Proof.
  intros (info & Hw & Hd & Hpos) -> Hj.
  assert (Hscan : next_scan levels info = Some idx).
  { destruct pos as [k |].
    - destruct Hpos as (idx0 & Hk & Hi). subst d.
      rewrite (next_scan_after levels info k idx0 Hk Hi). exact Hj.
    - subst d. rewrite (next_scan_unset levels info Hpos), head_lookup.
      exact Hj. }
  unfold _advance_next_message, advance_next_body. rewrite Hw, Hscan.
  destruct idx as [a c]. simpl. split; [reflexivity |].
  by apply (cursor_at_set w info (a, c)).
Qed.

(** A call at the last matching index starts over and returns the
    first one. *)
Lemma advance_next_wraps w k idx0 :
  cursor_at levels wid d (Some k) w ->
  S k = length M ->
  M !! O = Some idx0 ->
  fst (_advance_next_message levels wid w) = Some (index_Z idx0)
  /\ cursor_at levels wid d (Some O) (snd (_advance_next_message levels wid w)).
Proof.
  intros (info & Hw & Hd & (idxk & Hk & Hi)) Hlen H0.
  assert (Hscan : next_scan levels info = None).
  { subst d. rewrite (next_scan_after levels info k idxk Hk Hi).
    apply lookup_ge_None. lia. }
  unfold _advance_next_message, advance_next_body. rewrite Hw, Hscan.
  unfold _advance_next_message_wrapped, advance_next_body.
  unfold set_msg_index at 1 2. simpl. rewrite lookup_insert_eq.
  assert (Hscan2 : next_scan levels {| paths := paths info; msg_index := (-1, -1) |}
                   = Some idx0).
  { rewrite next_scan_unset by reflexivity. simpl. rewrite Hd, head_lookup.
    exact H0. }
  rewrite Hscan2. destruct idx0 as [a c]. simpl. split; [reflexivity |].
  eexists. split; [apply lookup_insert_eq |]. split; [exact Hd |].
  simpl. eauto.
Qed.

(** With no matching index a call, from any index, starts over once,
    finds nothing again, and returns [None] with the index unset. *)
Lemma next_scan_no_match info :
  paths info = d -> M = [] -> next_scan levels info = None.
Proof.
  intros Hd HM. unfold next_scan.
  destruct (next_start (msg_index info)) as [p m].
  pose proof (scan_paths_spec levels (paths info) 0 p m) as Hs.
  cbn [Nat.add] in Hs. rewrite Hs, Hd.
  fold (matching_indices levels d). rewrite HM. reflexivity.
Qed.

Lemma advance_next_none w info :
  WINDOW_MESSAGES w !! wid = Some info ->
  paths info = d ->
  M = [] ->
  _advance_next_message levels wid w
  = _advance_next_message_wrapped levels wid
      (set_msg_index wid info (-1, -1) w)
  /\ _advance_next_message levels wid w
     = (None, set_msg_index wid info (-1, -1) w).
Proof.
  intros Hw Hd HM.
  unfold _advance_next_message, advance_next_body.
  rewrite Hw, (next_scan_no_match info Hd HM).
  split; [reflexivity |].
  unfold _advance_next_message_wrapped, advance_next_body.
  unfold set_msg_index at 1. simpl. rewrite lookup_insert_eq.
  rewrite (next_scan_no_match {| paths := paths info; msg_index := (-1, -1) |}
             Hd HM).
  reflexivity.
Qed.

(** [n] calls in a row with enough matching indices ahead return the
    next [n] of them. *)
Lemma next_calls_ahead n : forall pos w j,
  cursor_at levels wid d pos w ->
  j = match pos with None => O | Some k => S k end ->
  (j + n <= length M)%nat ->
  fst (next_calls levels wid n w)
  = (fun idx => Some (index_Z idx)) <$> take n (drop j M)
  /\ cursor_at levels wid d
       (match n with O => pos | S n' => Some (j + n')%nat end)
       (snd (next_calls levels wid n w)).
Proof.
  induction n as [| n IH]; intros pos w j Hc Hj Hlen.
  - simpl. split; [reflexivity | exact Hc].
  - destruct (M !! j) as [idx |] eqn:Hidx;
      [| apply lookup_ge_None in Hidx; lia].
    destruct (advance_next_ahead pos w j idx Hc Hj Hidx) as [Hr Hc'].
    cbn [next_calls fst snd].
    destruct (IH (Some j) (snd (_advance_next_message levels wid w)) (S j)
                Hc' eq_refl ltac:(lia)) as [Hrs Hc''].
    rewrite Hr, Hrs. split.
    + rewrite (drop_S _ _ _ Hidx). reflexivity.
    + destruct n as [| n'].
      * simpl in *. by rewrite Nat.add_0_r.
      * replace (j + S n')%nat with (S j + n')%nat by lia. exact Hc''.
Qed.

Lemma next_calls_app n m w :
  fst (next_calls levels wid (n + m) w)
  = fst (next_calls levels wid n w)
    ++ fst (next_calls levels wid m (snd (next_calls levels wid n w))).
Proof.
  revert w. induction n as [| n IH]; intros w; [reflexivity |].
  cbn [Nat.add next_calls fst snd]. rewrite IH. reflexivity.
Qed.

End NextFacts.

(** C4: from the unset index, with N matching messages (N at least
    one), N+1 calls of [_advance_next_message] in a row return the
    matching indices in the order path by path, message by message,
    and then the first one again.  With no matching message a call,
    wherever the index stands, starts over once with the index unset,
    finds nothing again and returns [None]. *)
Theorem next_message_wraps_around
    (levels : string) (wid : nat) (w : World) (info : WindowInfo) :
  WINDOW_MESSAGES w !! wid = Some info ->
  let M := matching_indices levels (paths info) in
  (msg_index info = (-1, -1) -> M <> [] ->
   fst (next_calls levels wid (S (length M)) w)
   = (fun idx => Some (index_Z idx)) <$> (M ++ take 1 M))
  /\ (M = [] ->
      _advance_next_message levels wid w
      = _advance_next_message_wrapped levels wid
          (set_msg_index wid info (-1, -1) w)
      /\ _advance_next_message levels wid w
         = (None, set_msg_index wid info (-1, -1) w)).
Proof.
  intros Hw. cbv zeta. split.
  - intros Hi HM.
    assert (Hc : cursor_at levels wid (paths info) None w).
    { exists info. auto. }
    destruct (matching_indices levels (paths info) !! O) as [idx0 |] eqn:H0.
    2:{ apply lookup_ge_None in H0.
        destruct (matching_indices levels (paths info));
          [contradiction | simpl in H0; lia]. }
    destruct (length (matching_indices levels (paths info))) as [| n] eqn:Hlen.
    { apply lookup_lt_Some in H0. lia. }
    destruct (next_calls_ahead levels wid (paths info) (S n) None w O
                Hc eq_refl ltac:(rewrite Hlen; lia)) as [Hrs Hc'].
    replace (S (S n)) with (S n + 1)%nat by lia.
    rewrite next_calls_app, Hrs.
    set (w1 := snd (next_calls levels wid (S n) w)) in *.
    change (fst (next_calls levels wid 1 w1))
      with [fst (_advance_next_message levels wid w1)].
    destruct (advance_next_wraps levels wid (paths info) w1 (0 + n) idx0
                Hc' ltac:(rewrite Hlen; lia) H0) as [Hr _].
    rewrite Hr, drop_0, take_ge by lia. rewrite fmap_app. f_equal.
    destruct (matching_indices levels (paths info)); [discriminate H0 |].
    simpl in *. injection H0 as ->. reflexivity.
  - intros HM.
    by apply (advance_next_none levels wid (paths info) w info).
Qed.

Lemma next_message_wraps_around_witness :
  WINDOW_MESSAGES two_files_world !! 1%nat
  = Some {| paths := two_files; msg_index := (-1, -1) |}
  /\ fst (next_calls "all" 1 4 two_files_world)
     = [Some (0, 0); Some (0, 2); Some (1, 0); Some (0, 0)].
Proof.
  split; [reflexivity |].
  exact (proj1 (next_message_wraps_around "all" 1 two_files_world
                  {| paths := two_files; msg_index := (-1, -1) |}
                  eq_refl) eq_refl ltac:(discriminate)).
Defined.

(** ** Hidden messages *)

Lemma is_matching_level_set_hidden levels b m :
  _is_matching_level levels (set_hidden b m) = _is_matching_level levels m.
Proof. reflexivity. Qed.

Lemma first_match_rehide levels (g : Message -> bool) rest i :
  first_match levels ((fun x => set_hidden (g x) x) <$> rest) i
  = first_match levels rest i.
Proof.
  revert i. induction rest as [| m rest IH]; intros i; [reflexivity |].
  rewrite fmap_cons. cbn [first_match].
  rewrite is_matching_level_set_hidden, IH. reflexivity.
Qed.

Lemma scan_paths_rehide levels (g : Message -> bool) rest p m :
  scan_paths levels
    ((fun pm : string * list Message =>
        (fst pm, (fun x => set_hidden (g x) x) <$> snd pm)) <$> rest) p m
  = scan_paths levels rest p m.
Proof.
  revert p m. induction rest as [| [k ms] rest IH]; intros p m; [reflexivity |].
  rewrite fmap_cons. cbn [scan_paths fst snd].
  rewrite <- fmap_drop, first_match_rehide, IH. reflexivity.
Qed.

Lemma next_scan_rehide levels g info :
  next_scan levels (rehide g info) = next_scan levels info.
Proof.
  unfold next_scan, rehide. simpl.
  destruct (next_start (msg_index info)) as [p m].
  rewrite <- fmap_drop. apply scan_paths_rehide.
Qed.

Lemma last_match_rehide levels (g : Message -> bool) ms n :
  last_match levels ((fun x => set_hidden (g x) x) <$> ms) n
  = last_match levels ms n.
Proof.
  induction n as [| n IH]; [reflexivity |]. cbn [last_match].
  rewrite list_lookup_fmap. destruct (ms !! n) as [m |]; [| reflexivity].
  simpl. rewrite is_matching_level_set_hidden, IH. reflexivity.
Qed.

Lemma length_at_rehide (g : Message -> bool) (d : OrderedDict (list Message)) q :
  length (default []
            (snd <$> ((fun pm : string * list Message =>
                         (fst pm, (fun x => set_hidden (g x) x) <$> snd pm))
                      <$> d) !! q))
  = length (default [] (snd <$> d !! q)).
Proof.
  rewrite list_lookup_fmap. destruct (d !! q) as [[k ms] |]; simpl;
    [apply length_fmap | reflexivity].
Qed.

Lemma scan_paths_back_rehide levels (g : Message -> bool) d np : forall nm,
  scan_paths_back levels
    ((fun pm : string * list Message =>
        (fst pm, (fun x => set_hidden (g x) x) <$> snd pm)) <$> d) np nm
  = scan_paths_back levels d np nm.
Proof.
  induction np as [| p IH]; intros nm; [reflexivity |].
  cbn [scan_paths_back].
  assert (Hnext :
    match p with
    | O => O
    | S p' =>
        length (default []
          (snd <$> ((fun pm : string * list Message =>
                       (fst pm, (fun x => set_hidden (g x) x) <$> snd pm))
                    <$> d) !! p'))
    end
    = match p with
      | O => O
      | S p' => length (default [] (snd <$> d !! p'))
      end).
  { destruct p; [reflexivity | apply length_at_rehide]. }
  rewrite Hnext, list_lookup_fmap.
  destruct (d !! p) as [[k ms] |]; [| reflexivity]. simpl.
  rewrite last_match_rehide.
  destruct (last_match levels ms nm) as [[i |] |]; try reflexivity.
  apply IH.
Qed.

Lemma prev_scan_rehide levels g info :
  prev_scan levels (rehide g info) = prev_scan levels info.
Proof.
  unfold prev_scan, rehide. cbn [paths msg_index].
  destruct (fst (msg_index info) =? -1).
  - rewrite length_fmap. destruct (length (paths info)) as [| p];
      [reflexivity |].
    rewrite length_at_rehide. apply scan_paths_back_rehide.
  - apply scan_paths_back_rehide.
Qed.

Lemma list_entries_rehide relative_path g d :
  list_entries relative_path
    ((fun pm : string * list Message =>
        (fst pm, (fun x => set_hidden (g x) x) <$> snd pm)) <$> d)
  = list_entries relative_path d.
Proof.
  unfold list_entries. f_equal. rewrite imap_fmap. apply imap_ext.
  intros i [k ms] _. simpl. f_equal. rewrite imap_fmap. reflexivity.
Qed.

(** What a call of [_advance_next_message] returns, from the two
    scans. *)
Lemma advance_next_result levels wid w :
  fst (_advance_next_message levels wid w)
  = match WINDOW_MESSAGES w !! wid with
    | None => None
    | Some info =>
        match next_scan levels info with
        | Some i => Some (index_Z i)
        | None =>
            index_Z <$> next_scan levels
                          {| paths := paths info; msg_index := (-1, -1) |}
        end
    end.
Proof.
  unfold _advance_next_message, advance_next_body.
  destruct (WINDOW_MESSAGES w !! wid) as [info |]; [| reflexivity].
  destruct (next_scan levels info) as [[a c] |]; [reflexivity |].
  unfold _advance_next_message_wrapped, advance_next_body.
  unfold set_msg_index at 1. simpl. rewrite lookup_insert_eq.
  destruct (next_scan levels {| paths := paths info; msg_index := (-1, -1) |})
    as [[a c] |]; reflexivity.
Qed.

(** The same for [_advance_prev_message]; [None] is a raised
    exception. *)
Lemma advance_prev_result levels wid w :
  fst <$> _advance_prev_message levels wid w
  = match WINDOW_MESSAGES w !! wid with
    | None => Some None
    | Some info =>
        match prev_scan levels info with
        | Raised => None
        | Found i => Some (Some (index_Z i))
        | NotFound =>
            match prev_scan levels
                    {| paths := paths info; msg_index := (-1, -1) |} with
            | Raised => None
            | Found i => Some (Some (index_Z i))
            | NotFound => Some None
            end
        end
    end.
Proof.
  unfold _advance_prev_message, advance_prev_body.
  destruct (WINDOW_MESSAGES w !! wid) as [info |]; [| reflexivity].
  destruct (prev_scan levels info) as [[a c] | |]; try reflexivity.
  unfold _advance_prev_message_wrapped, advance_prev_body.
  unfold set_msg_index at 1. simpl. rewrite lookup_insert_eq.
  destruct (prev_scan levels {| paths := paths info; msg_index := (-1, -1) |})
    as [[a c] | |]; reflexivity.
Qed.

(** C2, the claim as stated fails: the one error of the window is
    dismissed, hence hidden, and the next message is that error. *)
Lemma dismissed_message_is_next :
  ~ hidden_are_skipped "all" 1 dismissed_world.
Proof.
  intros H.
  destruct (H (dismiss (error_at_top "error" "/p/src/a.rs" 1) one_error)
              eq_refl) as [Hnext _].
  specialize (Hnext (0, 0)
                (set_hidden true (error_at_top "error" "/p/src/a.rs" 1))
                eq_refl eq_refl).
  discriminate Hnext.
Qed.

(** C2 (amended): [dismiss] sets [hidden] on the stored messages of
    the tree and takes nothing out of the store; and the [hidden]
    flags have no part in going through the messages: whatever the
    flags are set to, [_advance_next_message],
    [_advance_prev_message] and [list_messages] give what they give
    with the flags as they were, so a hidden primary message that
    matches the levels is visited and listed. *)
Theorem hidden_messages_stay_and_are_visited
    (levels : string) (relative_path : string -> string) (wid : nat)
    (m : Message) (g : Message -> bool) (info : WindowInfo) (w : World) :
  stored_ids (dismiss m info) = stored_ids info
  /\ dismiss m info
     = rehide (fun x => in_tree_of (dismiss_root m) x || hidden x) info
  /\ fst (_advance_next_message levels wid (put_window wid (rehide g info) w))
     = fst (_advance_next_message levels wid (put_window wid info w))
  /\ fst <$> _advance_prev_message levels wid
               (put_window wid (rehide g info) w)
     = fst <$> _advance_prev_message levels wid (put_window wid info w)
  /\ list_messages relative_path wid (put_window wid (rehide g info) w)
     = list_messages relative_path wid (put_window wid info w).
Proof.
  assert (Hd : dismiss m info
               = rehide (fun x => in_tree_of (dismiss_root m) x || hidden x)
                   info).
  { unfold dismiss, rehide. f_equal. apply list_fmap_ext. intros i [k ms] _.
    simpl. f_equal. apply list_fmap_ext. intros j x _.
    destruct (in_tree_of (dismiss_root m) x); simpl; [reflexivity |].
    by destruct x. }
  split; [| split; [exact Hd |]].
  - rewrite Hd. unfold stored_ids, rehide. simpl.
    rewrite <- list_fmap_compose. apply list_fmap_ext. intros i [k ms] _.
    simpl. f_equal. rewrite <- list_fmap_compose. reflexivity.
  - split; [| split].
    + rewrite !advance_next_result. unfold put_window. simpl.
      rewrite !lookup_insert_eq, next_scan_rehide.
      change {| paths := paths (rehide g info); msg_index := (-1, -1) |}
        with (rehide g {| paths := paths info; msg_index := (-1, -1) |}).
      rewrite next_scan_rehide. reflexivity.
    + rewrite !advance_prev_result. unfold put_window. simpl.
      rewrite !lookup_insert_eq, prev_scan_rehide.
      change {| paths := paths (rehide g info); msg_index := (-1, -1) |}
        with (rehide g {| paths := paths info; msg_index := (-1, -1) |}).
      rewrite prev_scan_rehide. reflexivity.
    + unfold list_messages, put_window. simpl. rewrite !lookup_insert_eq.
      simpl. f_equal. apply list_entries_rehide.
Qed.

(** ** Sorting *)

Lemma string_trichotomy (a b : string) :
  String.ltb a b = true \/ a = b \/ String.ltb b a = true.
Proof.
  unfold String.ltb. destruct (String.compare a b) eqn:Hc.
  - right. left. by apply String.compare_eq_iff.
  - by left.
  - right. right. rewrite String.compare_antisym, Hc. reflexivity.
Qed.

Lemma string_ltb_lt (a b : string) :
  String.ltb a b = true <-> OrderedTypeEx.String_as_OT.lt a b.
Proof.
  rewrite <- OrderedTypeEx.String_as_OT.cmp_lt.
  unfold String.ltb, OrderedTypeEx.String_as_OT.cmp.
  destruct (String.compare a b); split; intros H; congruence.
Qed.

Lemma string_ltb_trans (a b c : string) :
  String.ltb a b = true -> String.ltb b c = true -> String.ltb a c = true.
Proof.
  rewrite !string_ltb_lt. apply OrderedTypeEx.String_as_OT.lt_trans.
Qed.

Lemma string_ltb_irrefl (a : string) : String.ltb a a = false.
Proof.
  destruct (String.ltb a a) eqn:H; [| reflexivity].
  apply string_ltb_lt in H.
  by apply OrderedTypeEx.String_as_OT.lt_not_eq in H.
Qed.

(** [key_le] by cases. *)
Lemma key_le_spec (k1 k2 : Z * string * Z) :
  key_le k1 k2 = true
  <-> fst (fst k1) < fst (fst k2)
      \/ (fst (fst k1) = fst (fst k2)
          /\ (String.ltb (snd (fst k1)) (snd (fst k2)) = true
              \/ (snd (fst k1) = snd (fst k2) /\ snd k1 <= snd k2))).
Proof.
  destruct k1 as [[l1 p1] n1], k2 as [[l2 p2] n2]. unfold key_le. simpl.
  rewrite orb_true_iff, andb_true_iff, orb_true_iff, andb_true_iff.
  rewrite Z.ltb_lt, Z.eqb_eq, String.eqb_eq, Z.leb_le. reflexivity.
Qed.

Lemma key_le_refl k : key_le k k = true.
Proof. apply key_le_spec. right. split; [reflexivity |]. right. split; [reflexivity | lia]. Qed.

Lemma key_le_total k1 k2 : key_le k1 k2 = true \/ key_le k2 k1 = true.
Proof.
  rewrite !key_le_spec.
  destruct k1 as [[l1 p1] n1], k2 as [[l2 p2] n2]. simpl.
  destruct (Z.lt_trichotomy l1 l2) as [H | [H | H]];
    [by left; left | | by right; left].
  destruct (string_trichotomy p1 p2) as [Hp | [Hp | Hp]].
  - left. right. split; [exact H |]. by left.
  - destruct (Z.le_ge_cases n1 n2).
    + left. right. split; [exact H |]. right. by split.
    + right. right. split; [by symmetry |]. right. by split.
  - right. right. split; [by symmetry |]. by left.
Qed.

Lemma key_le_trans k1 k2 k3 :
  key_le k1 k2 = true -> key_le k2 k3 = true -> key_le k1 k3 = true.
Proof.
  rewrite !key_le_spec.
  destruct k1 as [[l1 p1] n1], k2 as [[l2 p2] n2], k3 as [[l3 p3] n3]. simpl.
  intros [H1 | [H1 [Hp1 | [Hp1 Hn1]]]] [H2 | [H2 [Hp2 | [Hp2 Hn2]]]];
    try (left; lia); right; (split; [lia |]).
  - left. eapply string_ltb_trans; eassumption.
  - left. by subst p3.
  - left. by subst p2.
  - right. split; [congruence | lia].
Qed.

Lemma key_le_antisym k1 k2 :
  key_le k1 k2 = true -> key_le k2 k1 = true -> k1 = k2.
Proof.
  rewrite !key_le_spec.
  destruct k1 as [[l1 p1] n1], k2 as [[l2 p2] n2]. simpl.
  intros [H1 | [H1 [Hp1 | [Hp1 Hn1]]]] [H2 | [H2 [Hp2 | [Hp2 Hn2]]]];
    try lia.
  - pose proof (string_ltb_trans _ _ _ Hp1 Hp2) as Hc.
    rewrite string_ltb_irrefl in Hc. discriminate.
  - subst p2. rewrite string_ltb_irrefl in Hp1. discriminate.
  - subst p2. rewrite string_ltb_irrefl in Hp2. discriminate.
  - subst. f_equal. lia.
Qed.

Lemma StronglySorted_sublist {A} (R : relation A) (l1 l2 : list A) :
  l1 `sublist_of` l2 -> StronglySorted R l2 -> StronglySorted R l1.
Proof.
  induction 1 as [| x l1 l2 Hsub IH | x l1 l2 Hsub IH]; intros Hs.
  - constructor.
  - apply StronglySorted_cons in Hs as [Hall Hs].
    apply StronglySorted_cons. split; [| by apply IH].
    rewrite Forall_forall in Hall |- *. intros y Hy. apply Hall.
    eapply sublist_subseteq; eassumption.
  - apply StronglySorted_cons in Hs as [_ Hs]. by apply IH.
Qed.

(** *** The stable sort *)

Lemma insert_item_perm x l : insert_item x l ≡ₚ x :: l.
Proof.
  induction l as [| y l IH]; simpl; [reflexivity |].
  destruct (key_le (item_key x) (item_key y)); [reflexivity |].
  rewrite IH. apply Permutation_swap.
Qed.

Lemma sort_items_perm l : sort_items l ≡ₚ l.
Proof.
  induction l as [| x l IH]; simpl; [reflexivity |].
  rewrite insert_item_perm. by constructor.
Qed.

Lemma insert_item_sorted x l :
  StronglySorted key_order l -> StronglySorted key_order (insert_item x l).
Proof.
  induction 1 as [| y l Hs IH Hall]; simpl.
  - repeat constructor.
  - destruct (key_le (item_key x) (item_key y)) eqn:Hxy.
    + constructor; [by constructor |]. constructor; [exact Hxy |].
      eapply Forall_impl; [exact Hall |]. intros z Hz.
      eapply key_le_trans; eassumption.
    + constructor; [exact IH |].
      rewrite insert_item_perm. constructor; [| exact Hall].
      destruct (key_le_total (item_key x) (item_key y)) as [H | H];
        [congruence | exact H].
Qed.

Lemma sort_items_sorted l : StronglySorted key_order (sort_items l).
Proof.
  induction l as [| x l IH]; simpl; [constructor | by apply insert_item_sorted].
Qed.

(** The sort is stable: the items of one key keep their order. *)
Lemma insert_item_stable k x l :
  filter (fun it => item_key it = k) (insert_item x l)
  = filter (fun it => item_key it = k) (x :: l).
Proof.
  induction l as [| y l IH]; simpl; [reflexivity |].
  destruct (key_le (item_key x) (item_key y)) eqn:Hxy; [reflexivity |].
  assert (Hne : item_key x <> item_key y).
  { intros Heq. rewrite Heq, key_le_refl in Hxy. discriminate. }
  rewrite (filter_cons _ y), IH, !(filter_cons _ x), (filter_cons _ y).
  destruct (decide (item_key x = k)) as [Hx | Hx];
  destruct (decide (item_key y = k)) as [Hy | Hy]; try reflexivity.
  congruence.
Qed.

Lemma sort_items_stable k l :
  filter (fun it => item_key it = k) (sort_items l)
  = filter (fun it => item_key it = k) l.
Proof.
  induction l as [| x l IH]; simpl; [reflexivity |].
  rewrite insert_item_stable, !(filter_cons _ x), IH. reflexivity.
Qed.

(** Two sorted lists with the same items under every key, in the
    same order, are equal. *)
Lemma sorted_stable_unique l1 : forall l2,
  StronglySorted key_order l1 -> StronglySorted key_order l2 ->
  (forall k, filter (fun it => item_key it = k) l1
             = filter (fun it => item_key it = k) l2) ->
  l1 = l2.
Proof.
  induction l1 as [| x l1 IH]; intros l2 H1 H2 Hf.
  - destruct l2 as [| y l2]; [reflexivity |].
    specialize (Hf (item_key y)). rewrite filter_cons_True in Hf by reflexivity.
    discriminate Hf.
  - destruct l2 as [| y l2].
    { specialize (Hf (item_key x)).
      rewrite filter_cons_True in Hf by reflexivity. discriminate Hf. }
    apply StronglySorted_cons in H1 as [Hall1 H1].
    apply StronglySorted_cons in H2 as [Hall2 H2].
    assert (Hin : forall a l b l', 
              Forall (key_order a) l ->
              (forall k, filter (fun it => item_key it = k) (a :: l)
                         = filter (fun it => item_key it = k) (b :: l')) ->
              key_order b a -> key_order a b).
    { intros a l b l' Hall Hk _.
      assert (Hb : b ∈ a :: l).
      { specialize (Hk (item_key b)).
        assert (Hb : b ∈ filter (fun it => item_key it = item_key b) (b :: l')).
        { rewrite filter_cons_True by reflexivity. apply list_elem_of_here. }
        rewrite <- Hk in Hb. by apply list_elem_of_filter in Hb as [_ Hb]. }
      apply elem_of_cons in Hb as [-> | Hb]; [apply key_le_refl |].
      rewrite Forall_forall in Hall. by apply Hall. }
    assert (Hxy : key_order x y).
    { apply (Hin x l1 y l2 Hall1 Hf).
      destruct (key_le_total (item_key y) (item_key x)) as [H | H];
        [exact H |].
      apply (Hin y l2 x l1 Hall2); [by intros k; symmetry | exact H]. }
    assert (Hyx : key_order y x).
    { apply (Hin y l2 x l1 Hall2); [by intros k; symmetry | exact Hxy]. }
    assert (Hkey : item_key x = item_key y) by (by apply key_le_antisym).
    assert (Hxeq : x = y).
    { specialize (Hf (item_key x)).
      rewrite filter_cons_True in Hf by reflexivity.
      rewrite filter_cons_True in Hf by (by symmetry).
      congruence. }
    subst y. f_equal. apply IH; [exact H1 | exact H2 |].
    intros k. specialize (Hf k). rewrite !(filter_cons _ x) in Hf.
    destruct (decide (item_key x = k)); congruence.
Qed.

(** *** Grouping by path *)

Lemma regroup_step_nil it :
  regroup_step [] it = [(item_path it, [item_message it])].
Proof. unfold regroup_step. simpl. by rewrite String.eqb_refl. Qed.

Lemma regroup_step_cons k l d it :
  regroup_step ((k, l) :: d) it
  = if String.eqb k (item_path it)
    then (k, l ++ [item_message it]) :: d
    else (k, l) :: regroup_step d it.
Proof.
  unfold regroup_step. simpl.
  destruct (String.eqb k (item_path it)) eqn:Hk; simpl; rewrite Hk;
    reflexivity.
Qed.

Lemma items_of_cons pm d : items_of (pm :: d) = path_items pm ++ items_of d.
Proof. reflexivity. Qed.

Lemma path_items_snoc k l m :
  path_items (k, l ++ [m])
  = path_items (k, l) ++ [(level_rank (level m), k, lineno m, m)].
Proof. unfold path_items. simpl. by rewrite fmap_app. Qed.

Lemma proper_item_eq it :
  proper_item it ->
  (level_rank (level (item_message it)), item_path it,
   lineno (item_message it), item_message it) = it.
Proof. intros H. by symmetry. Qed.

Lemma path_items_path pm it : it ∈ path_items pm -> item_path it = fst pm.
Proof.
  unfold path_items. intros H. apply list_elem_of_fmap in H as (m & -> & _).
  reflexivity.
Qed.

Lemma path_items_proper pm : Forall proper_item (path_items pm).
Proof.
  apply Forall_forall. intros it H.
  apply list_elem_of_fmap in H as (m & -> & _). reflexivity.
Qed.

Lemma items_of_path d it : it ∈ items_of d -> item_path it ∈ fst <$> d.
Proof.
  induction d as [| pm d IH]; intros H.
  - by apply elem_of_nil in H.
  - rewrite items_of_cons in H. apply elem_of_app in H as [H | H].
    + apply path_items_path in H. rewrite H, fmap_cons.
      apply list_elem_of_here.
    + rewrite fmap_cons. apply list_elem_of_further. by apply IH.
Qed.

Lemma items_of_proper d : Forall proper_item (items_of d).
Proof.
  induction d as [| pm d IH]; [constructor |].
  rewrite items_of_cons. apply Forall_app. split;
    [apply path_items_proper | exact IH].
Qed.

Lemma filter_path_absent p d :
  p ∉ fst <$> d -> filter (fun it => item_path it = p) (items_of d) = [].
Proof.
  intros H. apply filter_none. apply Forall_forall. intros it Hit Hp.
  apply H. rewrite <- Hp. by apply items_of_path.
Qed.

Lemma filter_path_items p pm :
  filter (fun it => item_path it = p) (path_items pm)
  = if decide (fst pm = p) then path_items pm else [].
Proof.
  destruct (decide (fst pm = p)) as [Hp | Hp].
  - apply filter_all. apply Forall_forall. intros it Hit.
    apply path_items_path in Hit. congruence.
  - apply filter_none. apply Forall_forall. intros it Hit Hc.
    apply path_items_path in Hit. congruence.
Qed.

(** The wellformedness of the dict: one pair for a key, and no empty
    list. *)
Lemma regroup_step_keys d it :
  fst <$> regroup_step d it
  = (fst <$> d)
    ++ (if decide (item_path it ∈ fst <$> d) then [] else [item_path it]).
Proof.
  induction d as [| [k l] d IH].
  - rewrite regroup_step_nil.
    rewrite decide_False; [reflexivity | apply not_elem_of_nil].
  - rewrite regroup_step_cons.
    destruct (String.eqb k (item_path it)) eqn:Hk.
    + apply String.eqb_eq in Hk. subst k. rewrite !fmap_cons.
      rewrite decide_True by apply list_elem_of_here. by rewrite app_nil_r.
    + apply String.eqb_neq in Hk. rewrite !fmap_cons, IH. simpl.
      destruct (decide (item_path it ∈ fst <$> d)) as [Hin | Hin].
      * rewrite decide_True by (by apply list_elem_of_further). reflexivity.
      * rewrite decide_False; [reflexivity |].
        intros Hc. apply elem_of_cons in Hc as [Hc | Hc];
          [congruence | contradiction].
Qed.

Lemma regroup_step_NoDup d it :
  NoDup (fst <$> d) -> NoDup (fst <$> regroup_step d it).
Proof.
  intros H. rewrite regroup_step_keys.
  destruct (decide (item_path it ∈ fst <$> d)) as [Hin | Hin].
  - by rewrite app_nil_r.
  - apply NoDup_app. split; [exact H |]. split.
    + intros x Hx Hx'. apply list_elem_of_singleton in Hx'. by subst x.
    + apply NoDup_singleton.
Qed.

Lemma regroup_step_nonempty d it :
  Forall (fun pm : string * list Message => snd pm <> []) d ->
  Forall (fun pm : string * list Message => snd pm <> []) (regroup_step d it).
Proof.
  induction 1 as [| [k l] d Hl Hd IH].
  - rewrite regroup_step_nil. repeat constructor. discriminate.
  - rewrite regroup_step_cons. destruct (String.eqb k (item_path it)).
    + constructor; [| assumption]. simpl. by destruct l.
    + constructor; assumption.
Qed.

(** A step puts the item after the items of its path. *)
Lemma regroup_step_filter d it p :
  proper_item it -> NoDup (fst <$> d) ->
  filter (fun x => item_path x = p) (items_of (regroup_step d it))
  = filter (fun x => item_path x = p) (items_of d)
    ++ (if decide (item_path it = p) then [it] else []).
Proof.
  intros Hit. induction d as [| [k l] d IH]; intros Hnd.
  - rewrite regroup_step_nil. unfold items_of, path_items. simpl.
    rewrite (proper_item_eq it Hit). rewrite filter_cons, filter_nil.
    reflexivity.
  - rewrite fmap_cons in Hnd. apply NoDup_cons in Hnd as [Hk Hnd].
    cbn [fst] in Hk. rewrite regroup_step_cons.
    destruct (String.eqb k (item_path it)) eqn:Hkp.
    + apply String.eqb_eq in Hkp. subst k.
      rewrite !items_of_cons, path_items_snoc, (proper_item_eq it Hit).
      rewrite !filter_app, <- !app_assoc. f_equal.
      rewrite (filter_cons _ it), filter_nil.
      destruct (decide (item_path it = p)) as [Hp | Hp]; simpl.
      * subst p. rewrite (filter_path_absent _ d Hk). reflexivity.
      * by rewrite app_nil_r.
    + rewrite !items_of_cons, !filter_app, IH by exact Hnd.
      by rewrite app_assoc.
Qed.

Lemma regroup_step_perm d it :
  proper_item it -> items_of (regroup_step d it) ≡ₚ items_of d ++ [it].
Proof.
  intros Hit. induction d as [| [k l] d IH].
  - rewrite regroup_step_nil. unfold items_of, path_items. simpl.
    by rewrite (proper_item_eq it Hit).
  - rewrite regroup_step_cons.
    destruct (String.eqb k (item_path it)) eqn:Hkp.
    + apply String.eqb_eq in Hkp. subst k.
      rewrite !items_of_cons, path_items_snoc, (proper_item_eq it Hit).
      rewrite <- !app_assoc. f_equiv. apply Permutation_app_comm.
    + rewrite !items_of_cons, IH, app_assoc. reflexivity.
Qed.

Lemma first_items_cons pm d :
  first_items (pm :: d)
  = match head (path_items pm) with
    | Some it => it :: first_items d
    | None => first_items d
    end.
Proof. reflexivity. Qed.

Lemma regroup_step_first d it :
  proper_item it ->
  Forall (fun pm : string * list Message => snd pm <> []) d ->
  first_items (regroup_step d it)
  = first_items d
    ++ (if decide (item_path it ∈ fst <$> d) then [] else [it]).
Proof.
  intros Hit. induction 1 as [| [k l] d Hl _ IH].
  - rewrite regroup_step_nil.
    rewrite decide_False by apply not_elem_of_nil.
    unfold first_items, path_items. simpl.
    by rewrite (proper_item_eq it Hit).
  - rewrite regroup_step_cons.
    destruct (String.eqb k (item_path it)) eqn:Hkp.
    + apply String.eqb_eq in Hkp. subst k. rewrite !first_items_cons.
      rewrite decide_True by apply list_elem_of_here. rewrite app_nil_r.
      destruct l as [| m l]; [by simpl in Hl |]. reflexivity.
    + apply String.eqb_neq in Hkp. rewrite !first_items_cons, IH.
      assert (Hd : (if decide (item_path it ∈ fst <$> (k, l) :: d)
                    then [] else [it])
                   = (if decide (item_path it ∈ fst <$> d) then [] else [it])).
      { destruct (decide (item_path it ∈ fst <$> d)) as [Hin | Hin].
        - rewrite decide_True by (by apply list_elem_of_further). reflexivity.
        - rewrite decide_False; [reflexivity |].
          intros Hc. rewrite fmap_cons in Hc.
          apply elem_of_cons in Hc as [Hc | Hc];
            [simpl in Hc; congruence | contradiction]. }
      rewrite Hd. destruct (head (path_items (k, l))); reflexivity.
Qed.

(** The whole regrouping. *)
Lemma regroup_spec S : forall d,
  Forall proper_item S ->
  NoDup (fst <$> d) ->
  Forall (fun pm : string * list Message => snd pm <> []) d ->
  let d' := foldl regroup_step d S in
  NoDup (fst <$> d')
  /\ (forall p, filter (fun x => item_path x = p) (items_of d')
                = filter (fun x => item_path x = p) (items_of d)
                  ++ filter (fun x => item_path x = p) S)
  /\ items_of d' ≡ₚ items_of d ++ S
  /\ exists L, first_items d' = first_items d ++ L /\ L `sublist_of` S.
Proof.
  induction S as [| it S IH]; intros d Hp Hnd Hne; simpl.
  - split; [exact Hnd |]. split; [intros p; by rewrite app_nil_r |].
    split; [by rewrite app_nil_r |]. exists []. by rewrite app_nil_r.
  - inversion Hp as [| ? ? Hit HS]; subst.
    destruct (IH (regroup_step d it) HS (regroup_step_NoDup d it Hnd)
                (regroup_step_nonempty d it Hne))
      as (Hnd' & Hf & Hperm & (L & HL & Hsub)).
    split; [exact Hnd' |]. split; [| split].
    + intros p. rewrite Hf, (regroup_step_filter d it p Hit Hnd).
      rewrite (filter_cons _ it), <- app_assoc. f_equal.
      destruct (decide (item_path it = p)); reflexivity.
    + rewrite Hperm, (regroup_step_perm d it Hit), <- app_assoc.
      reflexivity.
    + rewrite HL, (regroup_step_first d it Hit Hne), <- app_assoc.
      eexists. split; [reflexivity |].
      destruct (decide (item_path it ∈ fst <$> d)); simpl.
      * by apply sublist_cons.
      * by apply sublist_skip.
Qed.

Lemma path_items_filter d pm :
  NoDup (fst <$> d) -> pm ∈ d ->
  path_items pm = filter (fun it => item_path it = fst pm) (items_of d).
Proof.
  induction d as [| [k l] d IH]; intros Hnd Hin.
  - by apply elem_of_nil in Hin.
  - rewrite fmap_cons in Hnd. apply NoDup_cons in Hnd as [Hk Hnd].
    cbn [fst] in Hk. rewrite items_of_cons, filter_app.
    apply elem_of_cons in Hin as [-> | Hin].
    + rewrite filter_path_items, decide_True by reflexivity.
      simpl. rewrite (filter_path_absent _ d Hk). by rewrite app_nil_r.
    + rewrite filter_path_items, decide_False.
      * simpl. by apply IH.
      * simpl. intros ->. apply Hk. apply list_elem_of_fmap. eauto.
Qed.

(** What [sorted_paths] gives: the order within the paths and of the
    paths, the same messages, and itself when applied again. *)
Lemma sorted_paths_spec d :
  in_grouped_order (sorted_paths d)
  /\ items_of (sorted_paths d) ≡ₚ items_of d
  /\ sorted_paths (sorted_paths d) = sorted_paths d.
Proof.
  unfold sorted_paths.
  set (S := sort_items (items_of d)).
  assert (HS : Forall proper_item S).
  { unfold S. rewrite sort_items_perm. apply items_of_proper. }
  assert (Hsorted : StronglySorted key_order S) by apply sort_items_sorted.
  destruct (regroup_spec S [] HS (NoDup_nil_2) (Forall_nil_2 _))
    as (Hnd & Hf & Hperm & (L & HL & Hsub)).
  simpl in Hf, Hperm, HL.
  set (R := foldl regroup_step [] S) in *.
  split; [| split].
  - split.
    + apply Forall_forall. intros pm Hpm.
      rewrite (path_items_filter R pm Hnd Hpm), Hf.
      eapply StronglySorted_sublist; [apply sublist_filter; apply _ | exact Hsorted].
    + rewrite HL. eapply StronglySorted_sublist; eassumption.
  - rewrite Hperm. apply sort_items_perm.
  - f_equal. apply sorted_stable_unique;
      [apply sort_items_sorted | exact Hsorted |].
    intros k. rewrite sort_items_stable.
    rewrite <- (list_filter_filter_l (fun it => item_key it = k)
                  (fun it => item_path it = snd (fst k)) (items_of R)).
    + rewrite Hf. apply list_filter_filter_l.
      intros it <-. reflexivity.
    + intros it <-. reflexivity.
Qed.

(** X28: sorting twice is sorting once.  [_sort_messages] applied to
    the state it has made gives that state again, whatever the
    setting [rust_sort_messages] and whether or not the window has an
    entry: the sort is stable, and the messages of equal level, path
    and line keep the order they had under their path. *)
Theorem sort_messages_idempotent (E : Env) (wid : nat) (w : World) :
  _sort_messages E wid (_sort_messages E wid w) = _sort_messages E wid w.
Proof.
  unfold _sort_messages.
  destruct (rust_sort_messages E); simpl; [| reflexivity].
  destruct (WINDOW_MESSAGES w !! wid) as [info |] eqn:Hw; simpl.
  - rewrite lookup_insert_eq. simpl.
    destruct (sorted_paths_spec (paths info)) as (_ & _ & ->).
    by rewrite insert_insert_eq.
  - by rewrite Hw.
Qed.

(** The window [two_files] after the sort: the first file keeps its
    error, warning and note together, the error of the second file
    comes after them. *)
Example two_files_sorted :
  (fun pm : string * list Message => (fst pm, id <$> snd pm))
    <$> sorted_paths two_files
  = [("/p/src/a.rs", [1; 3; 2]%nat); ("/p/src/b.rs", [4%nat])].
Proof. vm_compute. reflexivity. Qed.

(** The messages that Next goes through after the sort of
    [two_files_world], with their levels: the warning of the first
    file is shown before the error of the second file. *)
Example next_after_the_sort :
  let w0 := _sort_messages (posix false) 1 two_files_world in
  let '(i1, w1) := _advance_next_message "all" 1 w0 in
  let '(i2, w2) := _advance_next_message "all" 1 w1 in
  let '(i3, _) := _advance_next_message "all" 1 w2 in
  (fun i : option (Z * Z) =>
     match i ≫= message_at (sorted_paths two_files) with
     | Some m => Some (path_of m, level m)
     | None => None
     end)
  <$> [i1; i2; i3]
  = [Some ("/p/src/a.rs", Some "error");
     Some ("/p/src/a.rs", Some "warning");
     Some ("/p/src/b.rs", Some "error")].
Proof. vm_compute. reflexivity. Qed.

(** C7, the code does not do what the claim says, nor what the
    docstring of [_sort_messages] says (errors are shown first when
    using Next/Prev): the messages are sorted by level, path and line
    and then grouped by path again, so after the sort the warning of
    the first file still comes before the error of the second
    file. *)
Lemma sort_keeps_paths_together :
  ~ sort_gives in_total_order (posix false) 1 two_files_world.
Proof.
  intros [H _].
  specialize (H {| paths := sorted_paths two_files; msg_index := (-1, -1) |}
                eq_refl).
  unfold in_total_order in H. vm_compute in H.
  apply StronglySorted_cons in H as [_ H].
  apply StronglySorted_cons in H as [H _].
  apply Forall_cons in H as [_ H]. apply Forall_cons in H as [H _].
  vm_compute in H. discriminate H.
Qed.

(** ** Every message that is added has a path *)

Section PathFacts.

Variable E : Env.
Variable base_path : string.
Variable target_path : option string.
Variable msg_cb : bool.

Lemma append_child_paths c st :
  is_Some (path c) -> children_have_paths st ->
  children_have_paths (append_child c st).
Proof.
  intros Hc Hst. unfold children_have_paths. simpl.
  apply Forall_app. split; [exact Hst | by repeat constructor].
Qed.

Lemma add_additional_paths s txt lvl st :
  children_have_paths st ->
  children_have_paths (add_additional E base_path s txt lvl st).
Proof. apply append_child_paths. simpl. eauto. Qed.

Lemma macro_block_paths info s st :
  children_have_paths st ->
  children_have_paths (snd (macro_block E base_path target_path info s st)).
Proof.
  intros H. unfold macro_block.
  destruct (contains MACROS (file_name s)); [| exact H].
  destruct (find_span_r s None) as [ts ex].
  destruct (contains MACROS (file_name (updated_span ts s))).
  - simpl. by do 2 apply add_additional_paths.
  - match goal with |- context [if ?b then _ else _] => destruct b end;
      simpl; [by apply add_additional_paths | exact H].
Qed.

Lemma invocation_site_paths s st :
  children_have_paths st ->
  children_have_paths (invocation_site E base_path s st).
Proof.
  intros H. unfold invocation_site. destruct (expansion s); [| exact H].
  match goal with |- context [if ?b then _ else _] => destruct b end;
    [by apply add_additional_paths | exact H].
Qed.

Lemma primary_span_paths info s pi st :
  children_have_paths st ->
  children_have_paths (snd (primary_span E base_path info s pi st)).
Proof.
  intros H. unfold primary_span. destruct (is_primary s); [| exact H].
  destruct pi as [p |]; simpl; [by apply add_additional_paths |].
  destruct (negb (truthy (path (root (message st))))); exact H.
Qed.

Lemma label_child_paths info s st :
  children_have_paths st ->
  children_have_paths (label_child E base_path info s st).
Proof.
  intros H. unfold label_child.
  destruct (label s); [by apply add_additional_paths | exact H].
Qed.

Lemma replacement_child_paths s st :
  children_have_paths st ->
  children_have_paths (replacement_child E base_path s st).
Proof.
  intros H. unfold replacement_child.
  destruct (suggested_replacement s); [| exact H].
  match goal with |- context [if ?b then _ else _] => destruct b end;
    [| exact H].
  apply append_child_paths; [simpl; eauto | exact H].
Qed.

Lemma span_body_paths info ps s :
  children_have_paths (snd ps) ->
  children_have_paths (snd (span_body E base_path target_path info ps s)).
Proof.
  intros H. unfold span_body.
  pose proof (macro_block_paths info s (snd ps) H) as H1.
  destruct (macro_block E base_path target_path info s (snd ps)) as [s1 st1].
  simpl in H1.
  pose proof (primary_span_paths info s1 (fst ps) _
                (invocation_site_paths s1 st1 H1)) as H3.
  destruct (primary_span E base_path info s1 (fst ps)
              (invocation_site E base_path s1 st1)) as [pi3 st3].
  simpl in *. by apply replacement_child_paths, label_child_paths.
Qed.

Lemma collect_own_paths info pi st :
  children_have_paths st ->
  children_have_paths
    (snd (collect_own E base_path target_path msg_cb info pi st)).
Proof.
  intros H. unfold collect_own.
  assert (H0 : children_have_paths
                 (snd (match info_spans info with
                       | [] => no_spans E base_path target_path msg_cb info pi st
                       | _ :: _ => (pi, st)
                       end))).
  { destruct (info_spans info); [| exact H]. unfold no_spans.
    destruct pi as [p |]; simpl; [by apply add_additional_paths |].
    match goal with |- context [if ?b then _ else _] => destruct b end;
      [| exact H].
    destruct target_path as [tp |].
    - match goal with |- context [if ?b then _ else _] => destruct b end;
        [exact H |]. destruct msg_cb; exact H.
    - destruct msg_cb; exact H. }
  revert H0. generalize (match info_spans info with
                         | [] => no_spans E base_path target_path msg_cb info pi st
                         | _ :: _ => (pi, st)
                         end).
  induction (info_spans info) as [| s ss IH]; intros ps Hps; simpl;
    [exact Hps |].
  apply IH. by apply span_body_paths.
Qed.

Lemma collect_paths info : forall pi st,
  children_have_paths st ->
  children_have_paths
    (_collect_rust_messages E base_path target_path msg_cb info pi st).
Proof.
  induction info as [m l c ss cs IHcs] using Info_nested_ind.
  intros pi st H. rewrite collect_unfold.
  destruct (hide_gate E (mkInfo m l c ss cs) pi); [exact H |].
  pose proof (collect_own_paths (mkInfo m l c ss cs) pi st H) as Hown.
  revert Hown.
  generalize (snd (collect_own E base_path target_path msg_cb
                     (mkInfo m l c ss cs) pi st)).
  generalize (fst (collect_own E base_path target_path msg_cb
                     (mkInfo m l c ss cs) pi st)).
  intros pi1. unfold collect_children. simpl.
  induction IHcs as [| c0 cs0 Hc0 _ IH]; intros st1 H1; simpl;
    [exact H1 |].
  apply IH. by apply Hc0.
Qed.

Lemma cross_links_paths t next :
  is_Some (path (root t)) ->
  Forall (fun m => is_Some (path m)) (children t) ->
  Forall (fun m => is_Some (path m))
         (children (fst (_create_cross_links E t next))).
Proof.
  intros Hr Hc. unfold _create_cross_links, cross_link_loop. simpl.
  destruct (link_loop_spec E (root t) (children t))
    as (_ & _ & Hdone & Hget).
  apply Forall_app. split.
  - apply Forall_lookup. intros i x Hx.
    destruct (children t !! i) as [c |] eqn:Hi.
    + rewrite (Hget i c Hi) in Hx. injection Hx as <-.
      rewrite Forall_lookup in Hc. specialize (Hc i c Hi).
      by destruct (first_far_child (root t) (children t) i c).
    + apply lookup_ge_None in Hi. apply lookup_lt_Some in Hx. lia.
  - eapply Forall_impl; [apply link_messages_content |].
    intros l Hl. unfold content in Hl. injection Hl as Hl _ _ _.
    by rewrite Hl.
Qed.

Lemma minihtml_fold_paths p ms : forall acc,
  path <$> snd (foldl (minihtml_step E p) acc ms)
  = (path <$> snd acc) ++ (path <$> ms).
Proof.
  induction ms as [| m ms IH]; intros acc; simpl; [by rewrite app_nil_r |].
  rewrite IH. destruct acc as [[ll lp] out]. unfold minihtml_step.
  destruct (truthy (minihtml_text m) || negb (truthy (text m))); simpl;
    rewrite fmap_app, <- app_assoc; reflexivity.
Qed.

Lemma create_minihtml_paths t :
  path <$> iter (_create_minihtml E t) = path <$> iter t.
Proof.
  unfold _create_minihtml.
  pose proof (minihtml_fold_paths (root t) (iter t) ((None, None), [])) as H.
  destruct (snd (foldl (minihtml_step E (root t)) (None, None, []) (iter t)))
    as [| r cs]; [discriminate H | exact H].
Qed.

(** [add_rust_messages] never fails on a message without a path:
    every call returns a state. *)
Lemma add_rust_messages_total wid raw w :
  exists w',
    add_rust_messages E wid base_path raw target_path msg_cb w = Some w'.
Proof.
  unfold add_rust_messages.
  destruct (match raw with
            | Rustc info => Some info
            | Cargo reason info =>
                if String.eqb reason "compiler-message" then Some info
                else None
            end) as [info |]; [| eauto].
  set (st0 := {| message := {| root := new_Message (fresh w); children := [] |};
                 console := callbacks w; next_id := S (fresh w) |}).
  pose proof (collect_paths info None st0 (Forall_nil_2 _)) as Hc.
  set (st := _collect_rust_messages E base_path target_path msg_cb info
               None st0) in *.
  destruct (negb (truthy (path (root (message st))))) eqn:Ht; [eauto |].
  assert (Hr : is_Some (path (root (message st)))).
  { destruct (path (root (message st))); [eauto | discriminate Ht]. }
  pose proof (cross_links_paths (message st) (next_id st) Hr Hc) as Hx.
  assert (Hr1 : root (fst (_create_cross_links E (message st) (next_id st)))
                = root (message st)) by reflexivity.
  destruct (_create_cross_links E (message st) (next_id st)) as [t1 n1].
  simpl in Hx, Hr1.
  assert (Hall : Forall (fun m => is_Some (path m))
                        (iter (_create_minihtml E t1))).
  { assert (Hp : Forall is_Some (path <$> iter (_create_minihtml E t1))).
    { rewrite create_minihtml_paths. apply Forall_forall. intros o Ho.
      apply list_elem_of_fmap in Ho as (x & -> & Hx').
      apply elem_of_cons in Hx' as [-> | Hx'].
      - by rewrite Hr1.
      - rewrite Forall_forall in Hx. by apply Hx. }
    apply Forall_forall. intros x Hx'. rewrite Forall_forall in Hp.
    apply Hp. apply list_elem_of_fmap. eauto. }
  destruct (add_messages_blocks msg_cb wid _ 
              {| WINDOW_MESSAGES := WINDOW_MESSAGES w;
                 callbacks := console st; fresh := n1 |} Hall)
    as (w1 & Hadd & _).
  eauto.
Qed.

End PathFacts.

(** ** The root of an expansion chain *)

Lemma find_span_r_step s e1 e :
  expansion s = Some e1 -> find_span_r s e = find_span_r (exp_span e1) (Some e1).
Proof.
  destruct s as [? ? ? ? ? ? ? ? ? [[]|]]; simpl; intros; simplify_eq; done.
Qed.

Lemma find_span_r_stop s e : expansion s = None -> find_span_r s e = (s, e).
Proof.
  destruct s as [? ? ? ? ? ? ? ? ? [[]|]]; simpl; intros; simplify_eq; done.
Qed.

Lemma find_span_r_last leaf root0 :
  expansion_chain leaf root0 ->
  forall e,
    expansion (fst (find_span_r leaf e)) = None
    /\ ((expansion leaf = None /\ snd (find_span_r leaf e) = e)
        \/ exists e', snd (find_span_r leaf e) = Some e'
                      /\ exp_span e' = fst (find_span_r leaf e)).
Proof.
  induction 1 as [s Hs | s e1 r He1 _ IH]; intros e.
  - rewrite (find_span_r_stop s e Hs). simpl. split; [exact Hs | by left].
  - rewrite (find_span_r_step s e1 e He1).
    destruct (IH (Some e1)) as [Hroot [[Hn Hsnd] | Hex]].
    + split; [exact Hroot |]. right. exists e1. split; [exact Hsnd |].
      by rewrite (find_span_r_stop _ _ Hn).
    + split; [exact Hroot | by right].
Qed.

(** X1: the span [find_span_r] returns has no expansion.  A span without
    an expansion is returned as it is, with the expansion that was
    passed; otherwise the expansion returned is the one whose span is
    the span returned. *)
Theorem find_span_r_ends_at_a_root (s : Span) (e : option Expansion) :
  expansion (fst (find_span_r s e)) = None
  /\ match expansion s with
     | None => find_span_r s e = (s, e)
     | Some _ =>
         exists e', snd (find_span_r s e) = Some e'
                    /\ exp_span e' = fst (find_span_r s e)
     end.
Proof.
  destruct (expansion_chain_total s) as [r Hr].
  destruct (find_span_r_last s r Hr e) as [Hroot Hcases].
  split; [exact Hroot |].
  destruct (expansion s) as [e1 |] eqn:Hs.
  - destruct Hcases as [[Hn _] | Hex]; [discriminate | exact Hex].
  - by apply find_span_r_stop.
Qed.

(** ** Relations every step of the collection keeps *)

Section CollectRel.

Variable E : Env.
Variable base_path : string.
Variable target_path : option string.
Variable msg_cb : bool.

(** A relation between the states before and after. *)
Variable R : Collect -> Collect -> Prop.
Hypothesis R_refl : forall st, R st st.
Hypothesis R_trans : forall a b c, R a b -> R b c -> R a c.
Hypothesis R_child : forall st s txt lvl mk,
  R st (append_child (new_child E base_path st s txt lvl mk) st).

Lemma add_additional_rel s txt lvl st :
  R st (add_additional E base_path s txt lvl st).
Proof. apply R_child. Qed.

Lemma macro_block_rel info s st :
  R st (snd (macro_block E base_path target_path info s st)).
Proof.
  unfold macro_block.
  destruct (contains MACROS (file_name s)); [| apply R_refl].
  destruct (find_span_r s None) as [ts ex].
  destruct (contains MACROS (file_name (updated_span ts s))).
  - simpl. eapply R_trans; apply add_additional_rel.
  - match goal with |- context [if ?b then _ else _] => destruct b end;
      simpl; [apply add_additional_rel | apply R_refl].
Qed.

Lemma invocation_site_rel s st : R st (invocation_site E base_path s st).
Proof.
  unfold invocation_site.
  destruct (expansion s); [| apply R_refl].
  match goal with |- context [if ?b then _ else _] => destruct b end;
    [apply add_additional_rel | apply R_refl].
Qed.

Lemma label_child_rel info s st : R st (label_child E base_path info s st).
Proof.
  unfold label_child.
  destruct (label s); [apply add_additional_rel | apply R_refl].
Qed.

Lemma replacement_child_rel s st : R st (replacement_child E base_path s st).
Proof.
  unfold replacement_child.
  destruct (suggested_replacement s); [| apply R_refl].
  match goal with |- context [if ?b then _ else _] => destruct b end;
    [apply R_child | apply R_refl].
Qed.

(** The loop body, given what the primary-span step does. *)
Lemma span_body_rel_with info pi st s :
  (forall s1 st1, R st1 (snd (primary_span E base_path info s1 pi st1))) ->
  R st (snd (span_body E base_path target_path info (pi, st) s)).
Proof.
  intros Hprim. unfold span_body. cbn [fst snd].
  pose proof (macro_block_rel info s st) as H1.
  destruct (macro_block E base_path target_path info s st) as [s1 st1].
  cbn [snd] in H1.
  pose proof (invocation_site_rel s1 st1) as H2.
  pose proof (Hprim s1 (invocation_site E base_path s1 st1)) as H3.
  destruct (primary_span E base_path info s1 pi
              (invocation_site E base_path s1 st1)) as [pi3 st3].
  cbn [snd] in *.
  eapply R_trans; [exact H1 |]. eapply R_trans; [exact H2 |].
  eapply R_trans; [exact H3 |].
  eapply R_trans; [apply label_child_rel | apply replacement_child_rel].
Qed.

Lemma primary_span_rel_child info s p st :
  primary_span E base_path info s (Some p) st
  = (Some p, snd (primary_span E base_path info s (Some p) st))
  /\ R st (snd (primary_span E base_path info s (Some p) st)).
Proof.
  unfold primary_span. destruct (is_primary s); cbn [snd].
  - split; [reflexivity | apply add_additional_rel].
  - split; [reflexivity | apply R_refl].
Qed.

Lemma span_body_fst_child info p st s :
  fst (span_body E base_path target_path info (Some p, st) s) = Some p.
Proof.
  unfold span_body. cbn [fst snd].
  destruct (macro_block E base_path target_path info s st) as [s1 st1].
  destruct (primary_span_rel_child info s1 p
              (invocation_site E base_path s1 st1)) as [-> _].
  reflexivity.
Qed.

Lemma spans_rel_child info ss : forall p st,
  fst (foldl (span_body E base_path target_path info) (Some p, st) ss) = Some p
  /\ R st (snd (foldl (span_body E base_path target_path info) (Some p, st) ss)).
Proof.
  induction ss as [| s0 ss IH]; intros p st; cbn [foldl].
  - split; [reflexivity | apply R_refl].
  - pose proof (span_body_fst_child info p st s0) as Hf.
    pose proof (span_body_rel_with info (Some p) st s0
                  (fun s1 st1 => proj2 (primary_span_rel_child info s1 p st1)))
      as Hr.
    destruct (span_body E base_path target_path info (Some p, st) s0)
      as [pi1 st1].
    cbn [fst snd] in Hf, Hr. subst pi1.
    destruct (IH p st1) as [H1 H2].
    split; [exact H1 | eapply R_trans; eassumption].
Qed.

Lemma collect_own_rel_child info p st :
  fst (collect_own E base_path target_path msg_cb info (Some p) st) = Some p
  /\ R st (snd (collect_own E base_path target_path msg_cb info (Some p) st)).
Proof.
  unfold collect_own. destruct (info_spans info) as [| s0 ss] eqn:Hss.
  - cbn. split; [reflexivity | apply add_additional_rel].
  - apply spans_rel_child.
Qed.

(** Under a parent span every record only adds children. *)
Lemma collect_rel_child info : forall p st,
  R st (_collect_rust_messages E base_path target_path msg_cb info (Some p) st).
Proof.
  induction info as [m l c ss cs IHcs] using Info_nested_ind.
  intros p st. rewrite collect_unfold.
  destruct (hide_gate E (mkInfo m l c ss cs) (Some p)); [apply R_refl |].
  destruct (collect_own_rel_child (mkInfo m l c ss cs) p st) as [Hpi He].
  rewrite Hpi. eapply R_trans; [exact He |].
  generalize (snd (collect_own E base_path target_path msg_cb
                     (mkInfo m l c ss cs) (Some p) st)).
  clear He Hpi. unfold collect_children. cbn [info_children].
  induction IHcs as [| c0 cs0 Hc0 _ IH]; intros st1; cbn [foldl].
  - apply R_refl.
  - eapply R_trans; [apply Hc0 | apply IH].
Qed.

(** The steps of a record at the top: the primary message is set, or
    the callback is called. *)
Hypothesis R_primary : forall info s txt st,
  R st (snd (set_primary_message E base_path info s txt st)).
Hypothesis R_cb : forall info st, R st (call_msg_cb (tmp_msg st info) st).

Lemma primary_span_rel info s pi st :
  R st (snd (primary_span E base_path info s pi st)).
Proof.
  unfold primary_span. destruct (is_primary s); [| apply R_refl].
  destruct pi as [p |]; [apply add_additional_rel |].
  destruct (negb (truthy (path (root (message st)))));
    [apply R_primary | apply R_refl].
Qed.

Lemma spans_rel info ss : forall pi st,
  R st (snd (foldl (span_body E base_path target_path info) (pi, st) ss)).
Proof.
  induction ss as [| s0 ss IH]; intros pi st; cbn [foldl].
  - apply R_refl.
  - pose proof (span_body_rel_with info pi st s0
                  (fun s1 st1 => primary_span_rel info s1 pi st1)) as Hr.
    destruct (span_body E base_path target_path info (pi, st) s0)
      as [pi1 st1].
    cbn [snd] in Hr. eapply R_trans; [exact Hr | apply IH].
Qed.

Lemma no_spans_rel info pi st :
  R st (snd (no_spans E base_path target_path msg_cb info pi st)).
Proof.
  unfold no_spans. destruct pi as [p |]; [apply add_additional_rel |].
  match goal with |- context [if ?b then _ else _] => destruct b end;
    [| apply R_refl].
  destruct target_path as [tp |].
  - destruct (truthy (Some tp)); [apply R_primary |].
    destruct msg_cb; [apply R_cb | apply R_refl].
  - destruct msg_cb; [apply R_cb | apply R_refl].
Qed.

Lemma collect_own_rel info pi st :
  R st (snd (collect_own E base_path target_path msg_cb info pi st)).
Proof.
  unfold collect_own. destruct (info_spans info) as [| s0 ss].
  - cbn [foldl]. apply no_spans_rel.
  - apply spans_rel.
Qed.

Lemma collect_rel info : forall pi st,
  R st (_collect_rust_messages E base_path target_path msg_cb info pi st).
Proof.
  induction info as [m l c ss cs IHcs] using Info_nested_ind.
  intros pi st. rewrite collect_unfold.
  destruct (hide_gate E (mkInfo m l c ss cs) pi); [apply R_refl |].
  eapply R_trans; [apply (collect_own_rel (mkInfo m l c ss cs) pi st) |].
  generalize (snd (collect_own E base_path target_path msg_cb
                     (mkInfo m l c ss cs) pi st)).
  generalize (fst (collect_own E base_path target_path msg_cb
                     (mkInfo m l c ss cs) pi st)).
  unfold collect_children. cbn [info_children].
  intros pi1. induction IHcs as [| c0 cs0 Hc0 _ IH]; intros st1; cbn [foldl].
  - apply R_refl.
  - eapply R_trans; [apply Hc0 | apply IH].
Qed.

End CollectRel.

(** ** What collecting leaves alone *)

Lemma adds_children_only_refl st : adds_children_only st st.
Proof.
  split; [reflexivity |]. split; [reflexivity |].
  exists []. split; [by rewrite app_nil_r | constructor].
Qed.

Lemma adds_children_only_trans a b c :
  adds_children_only a b -> adds_children_only b c -> adds_children_only a c.
Proof.
  intros (Hu1 & Hc1 & n1 & Hn1 & Hf1) (Hu2 & Hc2 & n2 & Hn2 & Hf2).
  split; [congruence |]. split; [by etrans |].
  exists (n1 ++ n2). split; [by rewrite Hn2, Hn1, app_assoc |].
  apply Forall_app. split; [exact Hf1 |].
  assert (Hid : id (root (message b)) = id (root (message a)))
    by (unfold untouched in Hu1; congruence).
  by rewrite <- Hid.
Qed.

Lemma adds_children_only_child E base_path st s txt lvl mk :
  adds_children_only st
    (append_child (new_child E base_path st s txt lvl mk) st).
Proof.
  split; [reflexivity |]. split; [reflexivity |].
  eexists. split; [reflexivity |].
  constructor; [| constructor].
  unfold child_of. cbn. repeat split; eauto.
Qed.

Lemma adds_children_only_primary E base_path info s txt st :
  adds_children_only st (snd (set_primary_message E base_path info s txt st)).
Proof.
  split; [reflexivity |]. split; [reflexivity |].
  exists []. split; [by rewrite app_nil_r | constructor].
Qed.

Lemma adds_children_only_cb m st : adds_children_only st (call_msg_cb m st).
Proof.
  split; [reflexivity |]. split; [by apply prefix_app_r |].
  exists []. split; [by rewrite app_nil_r | constructor].
Qed.

(** X3: whatever the record and the state, [_collect_rust_messages]
    keeps the id, the flags [primary], [hidden], the parent, the region
    key, the markup and the back link of the primary message, keeps the
    children and the messages given to [msg_cb] that were there, and
    every message it adds to the children is a child of the primary
    message: not primary, not hidden, with the primary message as its
    parent, with a path, without region key or back link. *)
Theorem collecting_only_adds_children
    (E : Env) (base_path : string) (target_path : option string)
    (msg_cb : bool) (info : Info) (pi : ParentInfo) (st : Collect) :
  adds_children_only st
    (_collect_rust_messages E base_path target_path msg_cb info pi st).
Proof.
  apply collect_rel.
  - apply adds_children_only_refl.
  - apply adds_children_only_trans.
  - apply adds_children_only_child.
  - apply adds_children_only_primary.
  - intros. apply adds_children_only_cb.
Qed.

Lemma hide_gate_child E info p : hide_gate E info (Some p) = false.
Proof.
  unfold hide_gate. rewrite (bool_decide_eq_true_2 (is_Some (Some p)));
    [apply andb_false_r | by eexists].
Qed.

(** X4: a record collected under a parent span (a child of a
    diagnostic) leaves the primary message and the messages given to
    [msg_cb] as they are and keeps the children that were there; one
    without spans gives, as the next child, its message and level at
    the span of the parent. *)
Theorem child_records_only_add_children
    (E : Env) (base_path : string) (target_path : option string)
    (msg_cb : bool) (info : Info) (p : Span) (st : Collect) :
  let st' :=
    _collect_rust_messages E base_path target_path msg_cb info (Some p) st in
  root (message st') = root (message st)
  /\ console st' = console st
  /\ children (message st) `prefix_of` children (message st')
  /\ (info_spans info = [] ->
      children (message st') !! length (children (message st))
      = Some (new_child E base_path st p (Some (info_message info))
                (info_level info) None)).
Proof.
  intros st'.
  assert (H : root (message st') = root (message st)
              /\ console st' = console st
              /\ children (message st) `prefix_of` children (message st')).
  { subst st'.
    apply (collect_rel_child E base_path target_path msg_cb
             (fun a b => root (message b) = root (message a)
                         /\ console b = console a
                         /\ children (message a) `prefix_of` children (message b))).
    - intros a. done.
    - intros a b c (H1 & H2 & H3) (H4 & H5 & H6).
      split; [congruence |]. split; [congruence | by etrans].
    - intros a s txt lvl mk. split; [reflexivity |]. split; [reflexivity |].
      by apply prefix_app_r. }
  destruct H as (H1 & H2 & H3). repeat split; try assumption.
  intros Hss. subst st'. rewrite collect_unfold, hide_gate_child.
  unfold collect_own. rewrite Hss. cbn [foldl no_spans fst snd].
  destruct (collect_children_Some_extends E base_path target_path msg_cb
              (info_children info) p
              (add_additional E base_path p (Some (info_message info))
                 (info_level info) st)) as [_ [k Hk]].
  rewrite Hk. rewrite add_additional_children.
  rewrite <- app_assoc. rewrite lookup_app_r by lia.
  by rewrite Nat.sub_diag.
Qed.

(** ** The setting that hides warnings *)

Lemma collect_own_with_hide_warnings b E base_path target_path msg_cb info pi st :
  collect_own (with_hide_warnings b E) base_path target_path msg_cb info pi st
  = collect_own E base_path target_path msg_cb info pi st.
Proof. reflexivity. Qed.

Lemma collect_child_with_hide_warnings b E base_path target_path msg_cb info :
  forall p st,
    _collect_rust_messages (with_hide_warnings b E) base_path target_path
      msg_cb info (Some p) st
    = _collect_rust_messages E base_path target_path msg_cb info (Some p) st.
Proof.
  induction info as [m l c ss cs IHcs] using Info_nested_ind.
  intros p st. rewrite !collect_unfold, !hide_gate_child.
  rewrite collect_own_with_hide_warnings.
  destruct (collect_own_rel_child E base_path target_path msg_cb
              (fun _ _ => True) (fun _ => I) (fun _ _ _ _ _ => I)
              (fun _ _ _ _ _ => I) (mkInfo m l c ss cs) p st) as [-> _].
  generalize (snd (collect_own E base_path target_path msg_cb
                     (mkInfo m l c ss cs) (Some p) st)).
  unfold collect_children. cbn [info_children].
  induction IHcs as [| c0 cs0 Hc0 _ IH]; intros st1; cbn [foldl].
  - reflexivity.
  - rewrite Hc0. apply IH.
Qed.

Lemma collect_children_with_hide_warnings b E base_path target_path msg_cb cs :
  forall p st,
    collect_children (with_hide_warnings b E) base_path target_path msg_cb cs
      (Some p) st
    = collect_children E base_path target_path msg_cb cs (Some p) st.
Proof.
  unfold collect_children.
  induction cs as [| c0 cs IH]; intros p st; cbn [foldl]; [reflexivity |].
  rewrite collect_child_with_hide_warnings. apply IH.
Qed.

(** X2: the notes of an error are kept.  When the record at the top is
    an error whose own spans (or the target path) gave the primary
    message its place, the setting [rust_syntax_hide_warnings] changes
    nothing of what is collected, whatever the levels of the children;
    and no record collected under a parent span depends on the
    setting. *)
Theorem notes_of_errors_are_kept
    (E : Env) (b : bool) (base_path : string) (target_path : option string)
    (msg_cb : bool) (info : Info) (st : Collect) (p : Span) :
  info_level info = "error" ->
  fst (collect_own E base_path target_path msg_cb info None st) = Some p ->
  _collect_rust_messages (with_hide_warnings b E) base_path target_path
    msg_cb info None st
  = _collect_rust_messages E base_path target_path msg_cb info None st
  /\ forall child q st',
       _collect_rust_messages (with_hide_warnings b E) base_path target_path
         msg_cb child (Some q) st'
       = _collect_rust_messages E base_path target_path msg_cb child (Some q)
           st'.
Proof.
  intros Hlvl Hown. split.
  - rewrite !collect_unfold. unfold hide_gate. rewrite Hlvl. cbn [String.eqb].
    rewrite collect_own_with_hide_warnings, Hown.
    simpl. apply collect_children_with_hide_warnings.
  - intros. apply collect_child_with_hide_warnings.
Qed.

Lemma notes_of_errors_are_kept_witness :
  info_level error_with_note = "error"
  /\ fst (collect_own (posix false) "/p" None false error_with_note None
            (start 0))
     = Some (span_at "src/main.rs" 10 true None None)
  /\ _collect_rust_messages (with_hide_warnings true (posix false)) "/p" None
       false error_with_note None (start 0)
     = _collect_rust_messages (posix false) "/p" None false error_with_note
         None (start 0)
  /\ length (children (message
       (_collect_rust_messages (with_hide_warnings true (posix false)) "/p"
          None false error_with_note None (start 0)))) = 1%nat.
Proof.
  split; [reflexivity |]. split; [reflexivity |].
  split; [| reflexivity].
  apply (notes_of_errors_are_kept (posix false) true "/p" None false
           error_with_note (start 0) (span_at "src/main.rs" 10 true None None));
    reflexivity.
Defined.

(** ** Well-formed windows *)

Lemma od_get_None_keys {A} (d : OrderedDict A) k :
  od_get d k = None <-> k ∉ fst <$> d.
Proof.
  induction d as [| [k' x] d IH]; simpl.
  - split; [intros _ H; by apply elem_of_nil in H | done].
  - destruct (String.eqb_spec k' k) as [-> | Hne].
    + split; [discriminate |]. intros H. exfalso. apply H. left.
    + rewrite IH, not_elem_of_cons. split; [by intros | by intros [_ H]].
Qed.

Lemma od_get_app_here {A} (d1 d2 : OrderedDict A) k x :
  k ∉ fst <$> d1 -> od_get (d1 ++ (k, x) :: d2) k = Some x.
Proof.
  induction d1 as [| [k' y] d1 IH]; simpl; intros Hn.
  - by rewrite String.eqb_refl.
  - apply not_elem_of_cons in Hn as [Hne Hn].
    destruct (String.eqb_spec k' k) as [-> | _]; [done | by apply IH].
Qed.

Lemma od_get_Some_elem {A} (d : OrderedDict A) k x :
  od_get d k = Some x -> (k, x) ∈ d.
Proof.
  induction d as [| [k' y] d IH]; simpl; [discriminate |].
  destruct (String.eqb_spec k' k) as [-> | _].
  - intros [= ->]. left.
  - intros H. right. by apply IH.
Qed.

Lemma od_get_elem_Some {A} (d : OrderedDict A) k x :
  NoDup (fst <$> d) -> (k, x) ∈ d -> od_get d k = Some x.
Proof.
  induction d as [| [k' y] d IH]; simpl; intros Hnd Hin.
  - by apply elem_of_nil in Hin.
  - apply NoDup_cons in Hnd as [Hk Hnd].
    apply elem_of_cons in Hin as [[= <- <-] | Hin].
    + by rewrite String.eqb_refl.
    + destruct (String.eqb_spec k' k) as [-> | _]; [| by apply IH].
      exfalso. apply Hk. apply list_elem_of_fmap. by exists (k, x).
Qed.

(** [messages_by_path.setdefault(path, []).append(x)]: the list under
    the path gets [x] at its end, or the path comes last with [x]
    alone. *)
Lemma append_entry_cases (d : OrderedDict (list Message)) p x :
  (exists d1 l0 d2,
     d = d1 ++ (p, l0) :: d2 /\ (p ∉ fst <$> d1)
     /\ od_alter (fun l => l ++ [x]) p (setdefault d p [])
        = d1 ++ (p, l0 ++ [x]) :: d2)
  \/ ((p ∉ fst <$> d)
      /\ od_alter (fun l => l ++ [x]) p (setdefault d p []) = d ++ [(p, [x])]).
Proof.
  induction d as [| [k l] d IH].
  - right. split; [apply not_elem_of_nil |]. simpl. by rewrite String.eqb_refl.
  - cbn [setdefault]. destruct (String.eqb_spec k p) as [-> | Hne].
    + left. exists [], l, d. cbn [od_alter]. rewrite String.eqb_refl.
      split; [done |]. split; [apply not_elem_of_nil | done].
    + cbn [od_alter]. rewrite (proj2 (String.eqb_neq k p) Hne).
      destruct IH as [(d1 & l0 & d2 & Hd & Hn & Hd') | [Hn Hd']].
      * left. exists ((k, l) :: d1), l0, d2. rewrite Hd'.
        split; [by rewrite Hd |]. split; [| done].
        rewrite fmap_cons. apply not_elem_of_cons. split; [cbn; congruence | done].
      * right. rewrite Hd'. split; [| done].
        rewrite fmap_cons. apply not_elem_of_cons. split; [cbn; congruence | done].
Qed.

Lemma numbered_keys_S n :
  numbered_keys (S n) = numbered_keys n ++ [Some ("rust-" +:+ pretty (S n))].
Proof. unfold numbered_keys. by rewrite seq_S, fmap_app. Qed.

Lemma numbered_keys_NoDup n : NoDup (numbered_keys n).
Proof.
  unfold numbered_keys. apply NoDup_fmap_2; [| apply NoDup_seq].
  intros i j [= H]. change (pretty (S i) = pretty (S j)) in H.
  apply (inj pretty) in H. lia.
Qed.

Lemma numbered_keys_fresh n :
  Some ("rust-" +:+ pretty (S n)) ∉ numbered_keys n.
Proof.
  unfold numbered_keys. intros H.
  apply list_elem_of_fmap in H as (i & [= H] & Hi).
  change (pretty (S n) = pretty (S i)) in H. apply (inj pretty) in H.
  apply elem_of_seq in Hi. lia.
Qed.

Lemma path_ok_single p m :
  path m = Some p -> contains MACROS p = false ->
  region_key m = Some ("rust-" +:+ pretty 1%nat) ->
  path_ok (p, [m]).
Proof.
  intros Hp Hm Hk. unfold path_ok. cbn [fst snd].
  split; [done |]. split; [exact Hm |].
  split; [by constructor |].
  split; [apply NoDup_singleton |].
  cbn. by rewrite Hk.
Qed.

Lemma path_ok_snoc p l m :
  path_ok (p, l) -> path m = Some p ->
  content m ∉ content <$> l ->
  region_key m = Some ("rust-" +:+ pretty (S (length l))) ->
  path_ok (p, l ++ [m]).
Proof.
  intros (Hne & Hm & Hp & Hc & Hk) Hpm Hcm Hkm. unfold path_ok in *.
  cbn [fst snd] in *.
  split; [by destruct l |]. split; [exact Hm |].
  split; [apply Forall_app; split; [exact Hp | by constructor] |].
  split.
  - rewrite fmap_app. apply NoDup_app. split; [exact Hc |].
    split; [| apply NoDup_singleton].
    intros c Hin Hin'. apply list_elem_of_singleton in Hin'. by subst c.
  - rewrite fmap_app, length_app. cbn [length fmap list_fmap].
    rewrite Nat.add_1_r, numbered_keys_S, Hkm. by f_equiv.
Qed.

Lemma append_entry_store_ok d p m :
  store_ok d -> path m = Some p -> contains MACROS p = false ->
  content m ∉ content <$> default [] (od_get d p) ->
  region_key m
  = Some ("rust-" +:+ pretty (S (length (default [] (od_get d p))))) ->
  store_ok (od_alter (fun l => l ++ [m]) p (setdefault d p [])).
Proof.
  intros [Hnd Hall] Hp Hm Hc Hk.
  destruct (append_entry_cases d p m)
    as [(d1 & l0 & d2 & Hd & Hn & ->) | [Hn ->]].
  - subst d. rewrite (od_get_app_here d1 d2 p l0 Hn) in Hc, Hk.
    cbn [default] in Hc, Hk. split.
    + by rewrite fmap_app, fmap_cons in Hnd |- *.
    + apply Forall_app in Hall as [H1 H2].
      apply Forall_cons in H2 as [H2 H3].
      apply Forall_app. split; [exact H1 |].
      apply Forall_cons. split; [| exact H3].
      by apply path_ok_snoc.
  - rewrite (proj2 (od_get_None_keys d p) Hn) in Hk. cbn in Hk. split.
    + rewrite fmap_app. apply NoDup_app. split; [exact Hnd |].
      split; [| apply NoDup_singleton].
      intros k Hin Hin'. apply list_elem_of_singleton in Hin'.
      cbn in Hin'. by subst k.
    + apply Forall_app. split; [exact Hall |].
      constructor; [| constructor]. by apply path_ok_single.
Qed.

Lemma append_entry_not_nil (d : OrderedDict (list Message)) p m :
  od_alter (fun l => l ++ [m]) p (setdefault d p []) <> [].
Proof.
  destruct (append_entry_cases d p m)
    as [(d1 & l0 & d2 & _ & _ & ->) | [_ ->]]; by destruct d, d1 || destruct d.
Qed.

Lemma lists_grow_refl d : lists_grow d d.
Proof. intros i pm H. by exists pm. Qed.

Lemma lists_grow_trans d1 d2 d3 :
  lists_grow d1 d2 -> lists_grow d2 d3 -> lists_grow d1 d3.
Proof.
  intros H1 H2 i pm Hi.
  destruct (H1 i pm Hi) as (pm' & Hi' & Hk & Hp).
  destruct (H2 i pm' Hi') as (pm'' & Hi'' & Hk' & Hp').
  exists pm''. split; [exact Hi'' |]. split; [congruence | by etrans].
Qed.

Lemma append_entry_grows d p m :
  lists_grow d (od_alter (fun l => l ++ [m]) p (setdefault d p [])).
Proof.
  destruct (append_entry_cases d p m)
    as [(d1 & l0 & d2 & -> & Hn & ->) | [Hn ->]]; intros i pm Hi.
  - destruct (decide (i = length d1)) as [-> | Hne].
    + rewrite list_lookup_middle in Hi |- * by done.
      injection Hi as <-. eexists. split; [reflexivity |].
      split; [done | by apply prefix_app_r].
    + exists pm. split; [| done].
      destruct (decide (i < length d1)%nat).
      * rewrite lookup_app_l in Hi |- * by done. done.
      * rewrite lookup_app_r in Hi |- * by lia.
        destruct (i - length d1)%nat as [| j] eqn:Hj; [lia | done].
  - exists pm. split; [| done]. by apply lookup_app_l_Some.
Qed.

Section AddMessageStore.

Variable msg_cb : bool.
Variable wid : nat.

(** What a call that gets past the test on macros comes to. *)
Lemma add_message_result m p w :
  path m = Some p -> contains MACROS p = false ->
  let info := default new_WindowInfo (WINDOW_MESSAGES w !! wid) in
  let n := length (default [] (od_get (paths info) p)) in
  let m' := set_region_key m ("rust-" +:+ pretty (S n)) in
  add_message msg_cb wid m w
  = Some (if existsb (fun other => is_similar m other)
               (default [] (od_get (paths info) p))
          then w
          else {| WINDOW_MESSAGES :=
                    <[wid := {| paths :=
                                  od_alter (fun l => l ++ [m']) p
                                    (setdefault (paths info) p []);
                                msg_index := msg_index info |}]>
                      (WINDOW_MESSAGES w);
                  callbacks :=
                    if msg_cb then callbacks w ++ [m'] else callbacks w;
                  fresh := fresh w |}).
Proof.
  intros Hp Hm. cbn zeta.
  destruct (existsb (fun other => is_similar m other)
              (default [] (od_get
                 (paths (default new_WindowInfo (WINDOW_MESSAGES w !! wid)))
                 p))) eqn:Hex.
  - apply add_message_blocked; [by rewrite Hp |].
    unfold blocked, stored_at. rewrite Hp, Hm. cbn [orb].
    destruct (WINDOW_MESSAGES w !! wid); [exact Hex | discriminate Hex].
  - unfold add_message. rewrite Hp, Hm.
    destruct (WINDOW_MESSAGES w !! wid) as [info |] eqn:Hw.
    + rewrite Hw, od_get_setdefault.
      cbv [from_option Datatypes.id] in Hex |- *.
      destruct (od_get (paths info) p) as [l |]; rewrite Hex; reflexivity.
    + rewrite lookup_insert_eq.
      cbv [from_option Datatypes.id new_WindowInfo paths msg_index od_get
             setdefault].
      cbn [od_get od_alter existsb length app]. rewrite String.eqb_refl.
      cbn [existsb od_alter length app]. rewrite ?String.eqb_refl.
      by rewrite insert_insert_eq.
Qed.

Lemma add_message_window_ok m w w' :
  is_Some (path m) -> add_message msg_cb wid m w = Some w' ->
  window_ok wid w -> window_ok wid w'.
Proof.
  intros [p Hp] Hadd Hok.
  destruct (contains MACROS p) eqn:Hm.
  { unfold add_message in Hadd. rewrite Hp, Hm in Hadd. by injection Hadd as <-. }
  rewrite (add_message_result m p w Hp Hm) in Hadd. cbn zeta in Hadd.
  injection Hadd as <-.
  destruct (existsb _ _) eqn:Hex; [exact Hok |].
  intros info'. cbn [WINDOW_MESSAGES]. rewrite lookup_insert_eq.
  intros [= <-]. cbn [paths].
  split; [apply append_entry_not_nil |].
  apply append_entry_store_ok; try done.
  - destruct (WINDOW_MESSAGES w !! wid) as [info |] eqn:Hw; cbn.
    + by apply Hok.
    + split; constructor.
  - intros Hin. apply list_elem_of_fmap in Hin as (other & Hc & Hin).
    assert (Hs : is_similar m other = true).
    { rewrite is_similar_content. by apply bool_decide_eq_true_2. }
    assert (Ht : existsb (fun other => is_similar m other)
                   (default [] (od_get
                      (paths (default new_WindowInfo
                                (WINDOW_MESSAGES w !! wid))) p)) = true).
    { apply existsb_exists. exists other. split; [| exact Hs].
      by apply list_elem_of_In. }
    congruence.
Qed.

Lemma add_message_only_appends m w w' :
  is_Some (path m) -> add_message msg_cb wid m w = Some w' ->
  only_appends wid w w'.
Proof.
  intros [p Hp] Hadd.
  assert (Hrefl : only_appends wid w w).
  { split; [done |]. intros info Hi. exists info.
    split; [done |]. split; [done | apply lists_grow_refl]. }
  destruct (contains MACROS p) eqn:Hm.
  { unfold add_message in Hadd. rewrite Hp, Hm in Hadd. by injection Hadd as <-. }
  rewrite (add_message_result m p w Hp Hm) in Hadd. cbn zeta in Hadd.
  injection Hadd as <-.
  destruct (existsb _ _) eqn:Hex; [exact Hrefl |].
  split.
  - intros wid' Hne. cbn [WINDOW_MESSAGES]. by rewrite lookup_insert_ne.
  - intros info Hi. rewrite Hi. cbn [default WINDOW_MESSAGES].
    rewrite lookup_insert_eq. eexists. split; [reflexivity |].
    split; [reflexivity |]. cbn [paths]. apply append_entry_grows.
Qed.

Lemma add_message_has_path m p w :
  path m = Some p -> contains MACROS p = false ->
  exists w',
    add_message msg_cb wid m w = Some w'
    /\ has_message_for_path wid p w' = true
    /\ forall p', p' <> p ->
         has_message_for_path wid p' w' = has_message_for_path wid p' w.
Proof.
  intros Hp Hm. rewrite (add_message_result m p w Hp Hm). cbn zeta.
  eexists. split; [reflexivity |].
  destruct (existsb _ _) eqn:Hex.
  - split; [| done]. unfold has_message_for_path.
    destruct (WINDOW_MESSAGES w !! wid) as [info |]; cbn in Hex;
      [| discriminate Hex].
    destruct (od_get (paths info) p); [| discriminate Hex].
    by apply bool_decide_eq_true_2.
  - unfold has_message_for_path. cbn [WINDOW_MESSAGES].
    rewrite lookup_insert_eq. cbn [paths]. split.
    + rewrite od_get_alter, od_get_setdefault. by apply bool_decide_eq_true_2.
    + intros p' Hne.
      rewrite od_get_alter_ne, od_get_setdefault_ne by congruence.
      by destruct (WINDOW_MESSAGES w !! wid).
Qed.

End AddMessageStore.

(** ** What [add_rust_messages] keeps *)

Section AddRustMessagesRel.

Variable E : Env.
Variable wid : nat.
Variable base_path : string.
Variable target_path : option string.
Variable msg_cb : bool.

(** A call changes [callbacks] and [fresh] and then adds messages that
    all have a path. *)
Lemma add_rust_messages_cases raw w :
  exists c f,
    add_rust_messages E wid base_path raw target_path msg_cb w
    = Some {| WINDOW_MESSAGES := WINDOW_MESSAGES w; callbacks := c; fresh := f |}
    \/ exists ms,
         Forall (fun m => is_Some (path m)) ms
         /\ add_rust_messages E wid base_path raw target_path msg_cb w
            = add_messages msg_cb wid ms
                {| WINDOW_MESSAGES := WINDOW_MESSAGES w; callbacks := c;
                   fresh := f |}.
Proof.
  unfold add_rust_messages.
  destruct (match raw with
            | Rustc info => Some info
            | Cargo reason info =>
                if String.eqb reason "compiler-message" then Some info
                else None
            end) as [info |];
    [| exists (callbacks w), (fresh w); left; by destruct w].
  set (st0 := {| message := {| root := new_Message (fresh w); children := [] |};
                 console := callbacks w; next_id := S (fresh w) |}).
  pose proof (collect_paths E base_path target_path msg_cb info None st0
                (Forall_nil_2 _)) as Hc.
  set (st := _collect_rust_messages E base_path target_path msg_cb info
               None st0) in *.
  destruct (negb (truthy (path (root (message st))))) eqn:Ht;
    [exists (console st), (next_id st); by left |].
  assert (Hr : is_Some (path (root (message st)))).
  { destruct (path (root (message st))); [eauto | discriminate Ht]. }
  pose proof (cross_links_paths E (message st) (next_id st) Hr Hc) as Hx.
  assert (Hr1 : root (fst (_create_cross_links E (message st) (next_id st)))
                = root (message st)) by reflexivity.
  destruct (_create_cross_links E (message st) (next_id st)) as [t1 n1].
  cbn [fst] in Hx, Hr1.
  exists (console st), n1. right. exists (iter (_create_minihtml E t1)).
  split; [| reflexivity].
  assert (Hp : Forall is_Some (path <$> iter (_create_minihtml E t1))).
  { rewrite create_minihtml_paths. apply Forall_forall. intros o Ho.
    apply list_elem_of_fmap in Ho as (x & -> & Hx').
    apply elem_of_cons in Hx' as [-> | Hx'].
    - by rewrite Hr1.
    - rewrite Forall_forall in Hx. by apply Hx. }
  apply Forall_forall. intros x Hx'. rewrite Forall_forall in Hp.
  apply Hp. apply list_elem_of_fmap. eauto.
Qed.

(** A relation between the worlds before and after that does not look
    at [callbacks] and [fresh] and is kept by [add_message]. *)
Variable R : World -> World -> Prop.
Hypothesis R_same : forall w c f,
  R w {| WINDOW_MESSAGES := WINDOW_MESSAGES w; callbacks := c; fresh := f |}.
Hypothesis R_trans : forall a b c, R a b -> R b c -> R a c.
Hypothesis R_add : forall m w w',
  is_Some (path m) -> add_message msg_cb wid m w = Some w' -> R w w'.

Lemma R_refl_of_same w : R w w.
Proof. pose proof (R_same w (callbacks w) (fresh w)) as H. by destruct w. Qed.

Lemma add_messages_rel ms : forall w,
  Forall (fun m => is_Some (path m)) ms ->
  exists w', add_messages msg_cb wid ms w = Some w' /\ R w w'.
Proof.
  induction ms as [| m ms IH]; intros w Hall; cbn [add_messages].
  - exists w. split; [reflexivity | apply R_refl_of_same].
  - apply Forall_cons in Hall as [Hm Hms].
    destruct (add_message_blocks msg_cb wid m w Hm) as (w1 & Hadd & _).
    rewrite Hadd. destruct (IH w1 Hms) as (w2 & Hadds & HR).
    exists w2. split; [exact Hadds |].
    eapply R_trans; [by eapply R_add | exact HR].
Qed.

Lemma add_rust_messages_rel raw w :
  exists w',
    add_rust_messages E wid base_path raw target_path msg_cb w = Some w'
    /\ R w w'.
Proof.
  destruct (add_rust_messages_cases raw w) as (c & f & [-> | (ms & Hms & ->)]).
  - eexists. split; [reflexivity | apply R_same].
  - destruct (add_messages_rel ms
                {| WINDOW_MESSAGES := WINDOW_MESSAGES w; callbacks := c;
                   fresh := f |} Hms) as (w' & Hadd & HR).
    exists w'. split; [exact Hadd |].
    eapply R_trans; [apply R_same | exact HR].
Qed.

End AddRustMessagesRel.

Lemma only_appends_same wid w c f :
  only_appends wid w
    {| WINDOW_MESSAGES := WINDOW_MESSAGES w; callbacks := c; fresh := f |}.
Proof.
  split; [done |]. intros info Hi. exists info.
  split; [done |]. split; [done | apply lists_grow_refl].
Qed.

Lemma only_appends_trans wid a b c :
  only_appends wid a b -> only_appends wid b c -> only_appends wid a c.
Proof.
  intros [H1 H2] [H3 H4]. split.
  - intros wid' Hne. by rewrite H3, H1.
  - intros info Hi. destruct (H2 info Hi) as (info1 & Hi1 & Hx1 & Hg1).
    destruct (H4 info1 Hi1) as (info2 & Hi2 & Hx2 & Hg2).
    exists info2. split; [exact Hi2 |]. split; [congruence |].
    by eapply lists_grow_trans.
Qed.

(** X5: a diagnostic that comes in never moves what is stored: the
    call returns, the other windows are as they were, and in its window
    the index is the one that was stored, every path has the place it
    had and every message the place it had under its path. *)
Theorem stored_messages_keep_their_places
    (E : Env) (wid : nat) (base_path : string) (raw : Raw)
    (target_path : option string) (msg_cb : bool) (w : World) :
  exists w',
    add_rust_messages E wid base_path raw target_path msg_cb w = Some w'
    /\ only_appends wid w w'.
Proof.
  apply add_rust_messages_rel.
  - apply only_appends_same.
  - apply only_appends_trans.
  - apply add_message_only_appends.
Qed.

Lemma add_rust_messages_window_ok E wid base_path raw target_path msg_cb w :
  window_ok wid w ->
  exists w',
    add_rust_messages E wid base_path raw target_path msg_cb w = Some w'
    /\ window_ok wid w'.
Proof.
  intros Hok.
  cut (exists w',
         add_rust_messages E wid base_path raw target_path msg_cb w = Some w'
         /\ (window_ok wid w -> window_ok wid w')).
  { intros (w' & Hadd & HR). exists w'. split; [exact Hadd | by apply HR]. }
  apply (add_rust_messages_rel E wid base_path target_path msg_cb
           (fun a b => window_ok wid a -> window_ok wid b)).
  - intros a c f Ha. exact Ha.
  - intros a b c H1 H2 Ha. by apply H2, H1.
  - intros m a b Hm Hadd. exact (add_message_window_ok msg_cb wid m a b Hm Hadd).
Qed.

Lemma window_ok_no_windows wid : window_ok wid no_windows.
Proof. intros info H. cbn in H. by rewrite lookup_empty in H. Qed.

(** X6: the windows stay well formed.  If the window is well formed
    when a diagnostic comes in, it is afterwards: it has an entry only
    with a path in it, no path is there twice, and under each path
    there is a message, the path is not that of a macro of another
    crate, each message has the path as its own, no two messages are
    similar, and the region keys are ['rust-1'] to ['rust-n']. *)
Theorem windows_stay_well_formed
    (E : Env) (wid : nat) (base_path : string) (raw : Raw)
    (target_path : option string) (msg_cb : bool) (w : World) :
  window_ok wid w ->
  exists w',
    add_rust_messages E wid base_path raw target_path msg_cb w = Some w'
    /\ window_ok wid w'.
Proof. apply add_rust_messages_window_ok. Qed.

Lemma windows_stay_well_formed_witness :
  window_ok 1 no_windows
  /\ exists w',
       add_rust_messages (posix false) 1 "/p" cargo_error None false no_windows
       = Some w'
       /\ window_ok 1 w'.
Proof.
  split; [apply window_ok_no_windows |].
  apply (windows_stay_well_formed (posix false) 1 "/p" cargo_error None false
           no_windows).
  apply window_ok_no_windows.
Defined.

Lemma window_ok_checked_world : window_ok 1 checked_world.
Proof.
  destruct (add_rust_messages_window_ok (posix false) 1 "/p" cargo_error None
              false no_windows (window_ok_no_windows 1)) as (w' & Hadd & Hok).
  unfold checked_world. by rewrite Hadd.
Qed.

(** X8: after [add_message] for a message with the path [p],
    [has_message_for_path] is true for [p] unless [p] is the path of a
    macro of another crate, in which case it is what it was; for every
    other path it is what it was. *)
Theorem has_message_for_path_after_add
    (msg_cb : bool) (wid : nat) (m : Message) (p : string) (w : World) :
  path m = Some p ->
  exists w',
    add_message msg_cb wid m w = Some w'
    /\ has_message_for_path wid p w'
       = negb (contains MACROS p) || has_message_for_path wid p w
    /\ forall p', p' <> p ->
         has_message_for_path wid p' w' = has_message_for_path wid p' w.
Proof.
  intros Hp. destruct (contains MACROS p) eqn:Hm.
  - exists w. unfold add_message. rewrite Hp, Hm. done.
  - destruct (add_message_has_path msg_cb wid m p w Hp Hm)
      as (w' & Hadd & Hhas & Hothers).
    exists w'. split; [exact Hadd |]. split; [exact Hhas | exact Hothers].
Qed.

Lemma has_message_for_path_after_add_witness :
  path (error_at_top "error" "/p/src/a.rs" 1) = Some "/p/src/a.rs"
  /\ exists w',
       add_message false 1 (error_at_top "error" "/p/src/a.rs" 1) no_windows
       = Some w'
       /\ has_message_for_path 1 "/p/src/a.rs" w' = true.
Proof.
  split; [reflexivity |].
  destruct (has_message_for_path_after_add false 1
              (error_at_top "error" "/p/src/a.rs" 1) "/p/src/a.rs" no_windows
              eq_refl) as (w' & Hadd & Hhas & _).
  exists w'. split; [exact Hadd | exact Hhas].
Defined.

(** X9: [clear_messages] forgets the window and nothing else: the
    other windows are as they were; for the window, next and previous
    find nothing and change nothing, there is no list of messages, no
    path has a message; and the first message added afterwards is
    alone in the window, with the region key ['rust-1'] and the index
    unset. *)
Theorem clear_messages_forgets_the_window (wid : nat) (w : World) :
  let w' := clear_messages wid w in
  WINDOW_MESSAGES w' !! wid = None
  /\ (forall wid', wid' <> wid ->
        WINDOW_MESSAGES w' !! wid' = WINDOW_MESSAGES w !! wid')
  /\ (forall levels,
        _advance_next_message levels wid w' = (None, w')
        /\ _advance_prev_message levels wid w' = Some (None, w'))
  /\ (forall relative_path, list_messages relative_path wid w' = None)
  /\ (forall p, has_message_for_path wid p w' = false)
  /\ entry_count wid w' = 0%nat
  /\ clear_messages wid w' = w'
  /\ (forall msg_cb m p,
        path m = Some p -> contains MACROS p = false ->
        exists w'',
          add_message msg_cb wid m w' = Some w''
          /\ WINDOW_MESSAGES w'' !! wid
             = Some {| paths := [(p, [set_region_key m "rust-1"])];
                       msg_index := (-1, -1) |}).
Proof.
  intros w'.
  assert (Hw : WINDOW_MESSAGES w' !! wid = None) by apply lookup_delete_eq.
  split; [exact Hw |]. split.
  { intros wid' Hne. subst w'. cbn. by rewrite lookup_delete_ne. }
  split.
  { intros levels.
    unfold _advance_next_message, _advance_prev_message, advance_next_body,
      advance_prev_body. by rewrite Hw. }
  split; [intros rp; unfold list_messages; by rewrite Hw |].
  split; [intros p; unfold has_message_for_path; by rewrite Hw |].
  split; [unfold entry_count; by rewrite Hw |].
  split.
  { subst w'. unfold clear_messages. cbn. by rewrite delete_delete_eq. }
  intros cb m p Hp Hm.
  rewrite (add_message_result cb wid m p w' Hp Hm). cbn zeta. rewrite Hw.
  cbn. rewrite String.eqb_refl. cbn.
  eexists. split; [reflexivity |]. cbn. by rewrite lookup_insert_eq.
Qed.

(** ** What next finds *)

Lemma elem_of_matches_in levels ms : forall i j,
  j ∈ matches_in levels ms i
  <-> exists m, (i <= j)%nat /\ ms !! (j - i)%nat = Some m
                /\ _is_matching_level levels m = true.
Proof.
  induction ms as [| m0 ms IH]; intros i j; cbn [matches_in].
  - split; [intros H; by apply elem_of_nil in H |].
    intros (m & _ & H & _). by rewrite lookup_nil in H.
  - rewrite elem_of_app, IH. split.
    + intros [H | (m & Hle & Hm & Hl)].
      * destruct (_is_matching_level levels m0) eqn:Hm0;
          [| by apply elem_of_nil in H].
        apply list_elem_of_singleton in H. subst j. exists m0.
        rewrite Nat.sub_diag. done.
      * exists m. split; [lia |]. split; [| exact Hl].
        replace (j - i)%nat with (S (j - S i)) by lia. exact Hm.
    + intros (m & Hle & Hm & Hl).
      destruct (decide (j = i)) as [-> | Hne].
      * left. rewrite Nat.sub_diag in Hm. injection Hm as ->.
        rewrite Hl. by apply list_elem_of_singleton.
      * right. exists m. split; [lia |]. split; [| exact Hl].
        replace (j - i)%nat with (S (j - S i)) in Hm by lia. exact Hm.
Qed.

Lemma elem_of_matching_from levels d : forall b x,
  x ∈ matching_from levels d b
  <-> exists pm m, (b <= fst x)%nat /\ d !! (fst x - b)%nat = Some pm
                   /\ snd pm !! snd x = Some m
                   /\ _is_matching_level levels m = true.
Proof.
  induction d as [| [k ms] d IH]; intros b x; cbn [matching_from].
  - split; [intros H; by apply elem_of_nil in H |].
    intros (pm & m & _ & H & _). by rewrite lookup_nil in H.
  - rewrite elem_of_app, IH, list_elem_of_fmap. split.
    + intros [(j & -> & Hj) | (pm & m & Hle & Hpm & Hm & Hl)].
      * apply elem_of_matches_in in Hj as (m & _ & Hm & Hl).
        rewrite Nat.sub_0_r in Hm. exists (k, ms), m. cbn [fst snd].
        rewrite Nat.sub_diag. done.
      * exists pm, m. split; [lia |]. split; [| done].
        replace (fst x - b)%nat with (S (fst x - S b)) by lia. exact Hpm.
    + intros (pm & m & Hle & Hpm & Hm & Hl).
      destruct (decide (fst x = b)) as [Hb | Hne].
      * left. rewrite Hb, Nat.sub_diag in Hpm. injection Hpm as <-.
        exists (snd x). split; [destruct x; cbn in *; by subst |].
        apply elem_of_matches_in. exists m. rewrite Nat.sub_0_r.
        split; [lia | done].
      * right. exists pm, m. split; [lia |]. split; [| done].
        replace (fst x - b)%nat with (S (fst x - S b)) in Hpm by lia.
        exact Hpm.
Qed.

(** The matching indices are the indices of the stored messages that
    match. *)
Lemma elem_of_matching_indices levels d x :
  x ∈ matching_indices levels d
  <-> exists m, message_at d (index_Z x) = Some m
                /\ _is_matching_level levels m = true.
Proof.
  unfold matching_indices, message_at, index_Z. cbn [fst snd].
  rewrite elem_of_matching_from, !Nat2Z.id, Nat.sub_0_r. split.
  - intros (pm & m & _ & Hpm & Hm & Hl). exists m. rewrite Hpm. done.
  - intros (m & Hm & Hl). destruct (d !! fst x) as [pm |] eqn:Hpm;
      [| discriminate Hm].
    exists pm, m. split; [lia | done].
Qed.

Lemma matching_level_is_primary levels m :
  _is_matching_level levels m = true -> primary m = true.
Proof. unfold _is_matching_level. by destruct (primary m). Qed.

Lemma next_scan_elem levels info i :
  next_scan levels info = Some i -> i ∈ matching_indices levels (paths info).
Proof.
  unfold next_scan. destruct (next_start (msg_index info)) as [p m].
  pose proof (scan_paths_spec levels (paths info) 0 p m) as Hs.
  cbn [Nat.add] in Hs. rewrite Hs. intros H.
  apply head_Some_elem_of in H. by apply list_elem_of_filter in H as [_ H].
Qed.

(** X10: what [_advance_next_message] returns.  An index it returns is
    the index of a stored message that is primary and matches the
    levels, and it is stored as the index of the window, with nothing
    else changed; it returns [None] only for a window without an entry,
    which changes nothing, or when no stored message matches, and then
    the index is unset. *)
Theorem next_message_is_a_stored_match
    (levels : string) (wid : nat) (w : World) :
  match _advance_next_message levels wid w with
  | (Some idx, w') =>
      exists info m,
        WINDOW_MESSAGES w !! wid = Some info
        /\ message_at (paths info) idx = Some m
        /\ _is_matching_level levels m = true
        /\ primary m = true
        /\ w' = put_window wid {| paths := paths info; msg_index := idx |} w
  | (None, w') =>
      (WINDOW_MESSAGES w !! wid = None /\ w' = w)
      \/ exists info,
           WINDOW_MESSAGES w !! wid = Some info
           /\ matching_indices levels (paths info) = []
           /\ w' = put_window wid
                     {| paths := paths info; msg_index := (-1, -1) |} w
  end.
Proof.
  unfold _advance_next_message, advance_next_body.
  destruct (WINDOW_MESSAGES w !! wid) as [info |] eqn:Hw; [| by left].
  destruct (next_scan levels info) as [[p m] |] eqn:Hscan.
  - apply next_scan_elem, elem_of_matching_indices in Hscan
      as (x & Hx & Hl).
    exists info, x. split; [reflexivity |]. split; [exact Hx |].
    split; [exact Hl |]. split; [by eapply matching_level_is_primary | done].
  - unfold _advance_next_message_wrapped, advance_next_body.
    unfold set_msg_index at 1 2. cbn [WINDOW_MESSAGES].
    rewrite lookup_insert_eq.
    destruct (next_scan levels {| paths := paths info; msg_index := (-1, -1) |})
      as [[p m] |] eqn:Hscan2.
    + apply next_scan_elem, elem_of_matching_indices in Hscan2
        as (x & Hx & Hl). cbn [paths] in Hx.
      exists info, x. split; [reflexivity |]. split; [exact Hx |].
      split; [exact Hl |]. split; [by eapply matching_level_is_primary |].
      unfold set_msg_index, put_window. cbn.
      by rewrite insert_insert_eq.
    + right. exists info. split; [reflexivity |]. split; [| done].
      rewrite next_scan_unset in Hscan2 by reflexivity. cbn [paths] in Hscan2.
      by destruct (matching_indices levels (paths info)).
Qed.

(** ** The levels *)

Lemma is_matching_level_split m :
  _is_matching_level "all" m
  = _is_matching_level "error" m || _is_matching_level "warning" m.
Proof.
  unfold _is_matching_level. destruct (primary m); [| reflexivity].
  cbn. by destruct (bool_decide (level m = Some "error")).
Qed.

Lemma is_matching_level_apart m :
  _is_matching_level "error" m && _is_matching_level "warning" m = false.
Proof.
  unfold _is_matching_level. destruct (primary m); [| reflexivity].
  cbn. by destruct (bool_decide (level m = Some "error")).
Qed.

Lemma is_matching_level_other levels m :
  levels <> "all" -> levels <> "error" -> levels <> "warning" ->
  _is_matching_level levels m = false.
Proof.
  intros H1 H2 H3. unfold _is_matching_level.
  apply String.eqb_neq in H1, H2, H3. rewrite H1, H2, H3.
  by destruct (primary m).
Qed.

Lemma matches_in_length_split ms : forall i,
  length (matches_in "all" ms i)
  = (length (matches_in "error" ms i) + length (matches_in "warning" ms i))%nat.
Proof.
  induction ms as [| m ms IH]; intros i; cbn [matches_in]; [reflexivity |].
  rewrite !length_app, IH, is_matching_level_split.
  pose proof (is_matching_level_apart m) as Ha.
  destruct (_is_matching_level "error" m),
    (_is_matching_level "warning" m); cbn in *; try discriminate; lia.
Qed.

Lemma matching_from_length_split d : forall b,
  length (matching_from "all" d b)
  = (length (matching_from "error" d b)
     + length (matching_from "warning" d b))%nat.
Proof.
  induction d as [| [k ms] d IH]; intros b; cbn [matching_from];
    [reflexivity |].
  rewrite !length_app, !length_fmap, IH, matches_in_length_split. lia.
Qed.

(** X13: the levels of next and previous.  A stored message matches
    ['all'] exactly when it matches ['error'] or ['warning'], and it
    never matches both; so the messages of ['all'] are as many as
    those of the two together; and for any other word no message
    matches, so that next finds nothing. *)
Theorem levels_split_the_messages (d : OrderedDict (list Message)) :
  (forall x, x ∈ matching_indices "all" d
             <-> x ∈ matching_indices "error" d
                 \/ x ∈ matching_indices "warning" d)
  /\ (forall x, x ∈ matching_indices "error" d ->
                x ∈ matching_indices "warning" d -> False)
  /\ length (matching_indices "all" d)
     = (length (matching_indices "error" d)
        + length (matching_indices "warning" d))%nat
  /\ (forall levels,
        levels <> "all" -> levels <> "error" -> levels <> "warning" ->
        matching_indices levels d = []).
Proof.
  split; [| split; [| split]].
  - intros x. rewrite !elem_of_matching_indices. split.
    + intros (m & Hm & Hl). rewrite is_matching_level_split in Hl.
      apply orb_true_iff in Hl as [Hl | Hl]; [left | right]; eauto.
    + intros [(m & Hm & Hl) | (m & Hm & Hl)]; exists m;
        (split; [exact Hm |]); rewrite is_matching_level_split, Hl;
        [reflexivity | apply orb_true_r].
  - intros x He Hw. apply elem_of_matching_indices in He as (m & Hm & Hl).
    apply elem_of_matching_indices in Hw as (m' & Hm' & Hl').
    assert (m' = m) by congruence. subst m'.
    pose proof (is_matching_level_apart m) as Ha.
    rewrite Hl, Hl' in Ha. discriminate Ha.
  - apply matching_from_length_split.
  - intros levels H1 H2 H3.
    destruct (matching_indices levels d) as [| x l] eqn:HM; [reflexivity |].
    assert (Hx : x ∈ matching_indices levels d) by (rewrite HM; left).
    apply elem_of_matching_indices in Hx as (m & _ & Hl).
    by rewrite is_matching_level_other in Hl.
Qed.

(** ** The list of all messages *)

Lemma list_entries_inner {A} (lab : Message -> A) (pi : nat) ms : forall i,
  fst <$> omap (fun x => x)
            (imap (fun msg_idx (m : Message) =>
                     if negb (primary m) then None
                     else Some ((pi, (i + msg_idx)%nat), lab m)) ms)
  = pair pi <$> matches_in "all" ms i.
Proof.
  induction ms as [| m ms IH]; intros i; [reflexivity |].
  rewrite imap_cons. cbn [omap list_omap matches_in].
  rewrite (imap_ext _ (fun msg_idx (m : Message) =>
                         if negb (primary m) then None
                         else Some ((pi, (S i + msg_idx)%nat), lab m)));
    [| intros j x _; cbn; by rewrite Nat.add_succ_r].
  unfold _is_matching_level at 1. cbn [String.eqb Ascii.eqb Bool.eqb].
  rewrite Nat.add_0_r.
  destruct (primary m); cbn [negb]; cbn; by rewrite <- IH.
Qed.

Lemma list_entries_outer relative_path d : forall b,
  fst <$> concat
    (imap (fun path_idx (pm : string * list Message) =>
             omap (fun x => x)
               (imap (fun msg_idx (m : Message) =>
                        if negb (primary m) then None
                        else
                          Some (((b + path_idx)%nat, msg_idx),
                                (text m,
                                 match span m with
                                 | Some r =>
                                     relative_path (fst pm) +:+ ":"
                                     +:+ pretty (fst (fst r) + 1)
                                 | None => relative_path (fst pm)
                                 end)))
                     (snd pm)))
          d)
  = matching_from "all" d b.
Proof.
  induction d as [| [k ms] d IH]; intros b; [reflexivity |].
  rewrite imap_cons. cbn [concat matching_from]. rewrite fmap_app.
  f_equal.
  - rewrite Nat.add_0_r.
    exact (list_entries_inner
             (fun m => (text m,
                        match span m with
                        | Some r =>
                            relative_path k +:+ ":" +:+ pretty (fst (fst r) + 1)
                        | None => relative_path k
                        end)) b ms 0).
  - rewrite <- IH. f_equal. f_equal. apply imap_ext.
    intros i pm _. cbn. by rewrite Nat.add_succ_r.
Qed.

Lemma elem_of_concat {A} (x : A) (ls : list (list A)) :
  x ∈ concat ls <-> exists l, l ∈ ls /\ x ∈ l.
Proof.
  induction ls as [| l0 ls IH]; cbn [concat].
  - split; [intros H; by apply elem_of_nil in H |].
    intros (l & H & _). by apply elem_of_nil in H.
  - rewrite elem_of_app, IH. split.
    + intros [H | (l & H1 & H2)].
      * exists l0. split; [left | exact H].
      * exists l. split; [by right | exact H2].
    + intros (l & H1 & H2). apply elem_of_cons in H1 as [-> | H1];
        [by left | right; eauto].
Qed.

(** X14: the list of all messages has the primary messages, each once,
    in the order in which next with ['all'] goes through them: the
    indices of its entries are the matching indices of ['all']; and
    the entry of an index has the text of the message at the index
    and, as its label, the relative path with the line of the message
    counted from 1, or the path alone for a message without a
    region. *)
Theorem list_is_in_the_order_of_next
    (relative_path : string -> string) (d : OrderedDict (list Message)) :
  fst <$> list_entries relative_path d = matching_indices "all" d
  /\ forall e,
       e ∈ list_entries relative_path d
       <-> exists pm m,
             d !! fst (fst e) = Some pm
             /\ snd pm !! snd (fst e) = Some m
             /\ primary m = true
             /\ snd e
                = (text m,
                   match span m with
                   | Some r =>
                       relative_path (fst pm) +:+ ":"
                       +:+ pretty (fst (fst r) + 1)
                   | None => relative_path (fst pm)
                   end).
Proof.
  split; [exact (list_entries_outer relative_path d 0) |].
  intros e. unfold list_entries. rewrite elem_of_concat. split.
  - intros (l & Hl & He). apply elem_of_lookup_imap in Hl as (i & pm & -> & Hpm).
    apply list_elem_of_omap in He as (o & Ho & Hoe). cbn in Hoe. subst o.
    apply elem_of_lookup_imap in Ho as (j & m & Hjm & Hm).
    destruct (primary m) eqn:Hprim; cbn [negb] in Hjm; [| discriminate Hjm].
    injection Hjm as ->. exists pm, m. done.
  - intros (pm & m & Hpm & Hm & Hprim & He).
    eexists. split; [by eapply elem_of_lookup_imap_2 |].
    apply list_elem_of_omap. exists (Some e). split; [| reflexivity].
    apply elem_of_lookup_imap. exists (snd (fst e)), m.
    split; [| exact Hm]. rewrite Hprim. cbn [negb]. f_equal.
    destruct e as [[a c] lab]. cbn in *. by rewrite He.
Qed.

(** ** Previous message *)

Lemma before_asym x y : before x y -> ~ before y x.
Proof. unfold before. lia. Qed.

Lemma filter_lt_step levels ms : forall b i msg,
  ms !! i = Some msg ->
  filter (fun j => (j < b + S i)%nat) (matches_in levels ms b)
  = filter (fun j => (j < b + i)%nat) (matches_in levels ms b)
    ++ (if _is_matching_level levels msg then [(b + i)%nat] else []).
Proof.
  induction ms as [| m ms IH]; intros b i msg Hi;
    [by rewrite lookup_nil in Hi |].
  cbn [matches_in]. rewrite !filter_app.
  assert (Hrest : forall n, (n <= S b)%nat ->
            filter (fun j => (j < n)%nat) (matches_in levels ms (S b)) = []).
  { intros n Hn. apply filter_none, Forall_forall. intros j Hj.
    apply matches_in_bounds in Hj. lia. }
  destruct i as [| i].
  - injection Hi as ->.
    rewrite (Hrest (b + 1)%nat), (Hrest (b + 0)%nat) by lia.
    rewrite Nat.add_0_r.
    destruct (_is_matching_level levels msg); [| reflexivity].
    rewrite filter_cons_True by lia. rewrite filter_cons_False by lia.
    reflexivity.
  - cbn in Hi.
    replace (b + S (S i))%nat with (S b + S i)%nat by lia.
    replace (b + S i)%nat with (S b + i)%nat by lia.
    rewrite (IH (S b) i msg Hi), app_assoc. f_equal. f_equal.
    destruct (_is_matching_level levels m); [| reflexivity].
    rewrite !filter_cons_True by lia. reflexivity.
Qed.

(** The inner loop of previous, from [msg_idx = n - 1] down. *)
Lemma last_match_filter levels ms : forall n,
  (n <= length ms)%nat ->
  last_match levels ms n
  = Some (last (filter (fun j => (j < n)%nat) (matches_in levels ms 0))).
Proof.
  induction n as [| n IH]; intros Hn.
  - cbn [last_match]. rewrite filter_none; [reflexivity |].
    apply Forall_forall. intros j _. lia.
  - cbn [last_match].
    destruct (ms !! n) as [msg |] eqn:Hmsg;
      [| apply lookup_ge_None in Hmsg; lia].
    pose proof (filter_lt_step levels ms 0 n msg Hmsg) as Hstep.
    cbn [Nat.add] in Hstep. rewrite Hstep.
    destruct (_is_matching_level levels msg).
    + by rewrite last_snoc.
    + rewrite app_nil_r. apply IH. lia.
Qed.

Lemma matching_from_app levels d1 d2 : forall b,
  matching_from levels (d1 ++ d2) b
  = matching_from levels d1 b ++ matching_from levels d2 (b + length d1).
Proof.
  induction d1 as [| [k ms] d1 IH]; intros b; cbn [app matching_from length].
  - by rewrite Nat.add_0_r.
  - rewrite IH, <- app_assoc. do 3 f_equal. lia.
Qed.

Lemma matching_from_upper levels d b x :
  x ∈ matching_from levels d b -> (fst x < b + length d)%nat.
Proof.
  intros H. apply elem_of_matching_from in H as (pm & m & Hb & Hpm & _).
  apply lookup_lt_Some in Hpm. lia.
Qed.

(** The matching indices: those before the path number [p], those of
    the path, those after it. *)
Lemma matching_split levels d p pm :
  d !! p = Some pm ->
  matching_indices levels d
  = matching_indices levels (take p d)
    ++ (pair p <$> matches_in levels (snd pm) 0)
    ++ matching_from levels (drop (S p) d) (S p).
Proof.
  intros Hp. unfold matching_indices.
  rewrite <- (take_drop_middle d p pm Hp) at 1.
  rewrite matching_from_app. cbn [Nat.add].
  rewrite length_take_le by (apply lookup_lt_Some in Hp; lia).
  destruct pm as [k ms]. reflexivity.
Qed.

Lemma filter_before_split levels d p pm nm :
  d !! p = Some pm ->
  filter (fun x => before x (p, nm)) (matching_indices levels d)
  = matching_indices levels (take p d)
    ++ (pair p <$> filter (fun j => (j < nm)%nat)
                     (matches_in levels (snd pm) 0)).
Proof.
  intros Hp. rewrite (matching_split levels d p pm Hp), !filter_app.
  rewrite (filter_all _ (matching_indices levels (take p d))).
  2:{ apply Forall_forall. intros x Hx. apply matching_from_upper in Hx.
      rewrite length_take_le in Hx by (apply lookup_lt_Some in Hp; lia).
      left. cbn. lia. }
  rewrite (filter_none _ (matching_from levels (drop (S p) d) (S p))).
  2:{ apply Forall_forall. intros x Hx. apply matching_from_bounds in Hx.
      unfold before. cbn. lia. }
  rewrite app_nil_r. f_equal.
  induction (matches_in levels (snd pm) 0) as [| j js IHj]; [reflexivity |].
  rewrite fmap_cons. destruct (decide (j < nm)%nat) as [Hlt | Hge].
  - rewrite !filter_cons_True by (try right; cbn; auto).
    by rewrite fmap_cons, IHj.
  - rewrite !filter_cons_False; [exact IHj | exact Hge |].
    unfold before. cbn. lia.
Qed.

Lemma matches_in_all_below levels ms :
  filter (fun j => (j < length ms)%nat) (matches_in levels ms 0)
  = matches_in levels ms 0.
Proof.
  apply filter_all, Forall_forall. intros j Hj.
  apply matches_in_bounds in Hj. lia.
Qed.

Lemma scan_paths_back_S levels d p nm :
  scan_paths_back levels d (S p) nm
  = match d !! p with
    | None => Raised
    | Some (_, messages) =>
        match last_match levels messages nm with
        | None => Raised
        | Some (Some i) => Found (p, i)
        | Some None =>
            scan_paths_back levels d p
              (match p with
               | O => O
               | S p' => length (default [] (snd <$> d !! p'))
               end)
        end
    end.
Proof. reflexivity. Qed.

(** The outer loop of previous finds the last matching index before
    the place [(p, nm)]. *)
Lemma scan_paths_back_spec levels d : forall p nm pm,
  d !! p = Some pm -> (nm <= length (snd pm))%nat ->
  scan_paths_back levels d (S p) nm
  = found_last (filter (fun x => before x (p, nm)) (matching_indices levels d)).
Proof.
  induction p as [| p IH]; intros nm pm Hp Hnm;
    rewrite scan_paths_back_S, Hp; destruct pm as [k ms]; cbn [snd] in Hnm;
    rewrite (last_match_filter levels ms nm Hnm);
    rewrite (filter_before_split levels d _ (k, ms) nm Hp); cbn [snd];
    unfold found_last; rewrite last_app, fmap_last;
    destruct (last (filter (fun j => (j < nm)%nat) (matches_in levels ms 0)))
      as [i |] eqn:Hlast; cbn [fmap option_fmap option_map]; try reflexivity.
  assert (Hp' : is_Some (d !! p)).
  { apply lookup_lt_is_Some. apply lookup_lt_Some in Hp. lia. }
  destruct Hp' as [pm' Hp']. rewrite Hp'. cbn [fmap option_fmap option_map].
  cbv [from_option Datatypes.id].
  rewrite (IH (length (snd pm')) pm' Hp' (Nat.le_refl _)).
  rewrite (filter_before_split levels d p pm' _ Hp'), matches_in_all_below.
  rewrite (take_S_r d p pm' Hp'). unfold found_last, matching_indices.
  rewrite matching_from_app. cbn [Nat.add].
  rewrite length_take_le by (apply lookup_lt_Some in Hp'; lia).
  destruct pm' as [k' ms']. cbn [matching_from snd].
  rewrite app_nil_r. reflexivity.
Qed.

Lemma filter_before_take (l : list (nat * nat)) : forall k x,
  StronglySorted before l -> l !! k = Some x ->
  filter (fun y => before y x) l = take k l.
Proof.
  induction l as [| y l IH]; intros k x Hs Hk; [by rewrite lookup_nil in Hk |].
  apply StronglySorted_cons in Hs as [Hall Hs].
  destruct k as [| k]; cbn in Hk.
  - injection Hk as ->. rewrite filter_cons_False by (unfold before; lia).
    cbn [take]. apply filter_none. eapply Forall_impl; [exact Hall |].
    intros z Hz. by apply before_asym.
  - rewrite filter_cons_True.
    + cbn [take]. f_equal. by apply IH.
    + rewrite Forall_forall in Hall. apply Hall.
      eapply list_elem_of_lookup_2. exact Hk.
Qed.

Lemma prev_scan_unset levels info :
  msg_index info = (-1, -1) -> paths info <> [] ->
  prev_scan levels info = found_last (matching_indices levels (paths info)).
Proof.
  intros Hi Hd. unfold prev_scan. rewrite Hi. cbn [fst Z.eqb Pos.eqb].
  destruct (length (paths info)) as [| p] eqn:Hlen;
    [by destruct (paths info) |].
  assert (Hp : is_Some (paths info !! p)) by (apply lookup_lt_is_Some; lia).
  destruct Hp as [pm Hp]. rewrite Hp. cbn [fmap option_fmap option_map].
  cbv [from_option Datatypes.id].
  rewrite (scan_paths_back_spec levels (paths info) p _ pm Hp (Nat.le_refl _)).
  rewrite (filter_before_split levels (paths info) p pm _ Hp),
    matches_in_all_below.
  rewrite (matching_split levels (paths info) p pm Hp).
  rewrite drop_ge by lia. cbn [matching_from]. by rewrite app_nil_r.
Qed.

Lemma prev_scan_at levels info k idx :
  matching_indices levels (paths info) !! k = Some idx ->
  msg_index info = index_Z idx ->
  prev_scan levels info
  = found_last (take k (matching_indices levels (paths info))).
Proof.
  intros Hk Hi. destruct idx as [a c]. unfold prev_scan.
  rewrite Hi. unfold index_Z. cbn [fst snd].
  replace (Z.of_nat a =? -1) with false by (symmetry; apply Z.eqb_neq; lia).
  replace (Z.to_nat (Z.of_nat a + 1)) with (S a) by lia.
  rewrite Nat2Z.id.
  assert (Hin : (a, c) ∈ matching_indices levels (paths info))
    by (eapply list_elem_of_lookup_2; exact Hk).
  apply elem_of_matching_from in Hin as (pm & m & _ & Hpm & Hm & _).
  cbn [fst snd] in Hpm, Hm. rewrite Nat.sub_0_r in Hpm.
  apply lookup_lt_Some in Hm.
  rewrite (scan_paths_back_spec levels (paths info) a c pm Hpm) by lia.
  rewrite (filter_before_take _ k (a, c));
    [reflexivity | apply matching_from_sorted | exact Hk].
Qed.

Lemma found_last_take {A} (l : list A) j x :
  l !! j = Some x -> last (take (S j) l) = Some x.
Proof. intros H. by rewrite (take_S_r l j x H), last_snoc. Qed.

Lemma put_window_twice wid a b w :
  put_window wid a (put_window wid b w) = put_window wid a w.
Proof. unfold put_window. cbn. by rewrite insert_insert_eq. Qed.

Lemma put_window_id wid info w :
  WINDOW_MESSAGES w !! wid = Some info -> put_window wid info w = w.
Proof.
  intros H. unfold put_window. rewrite insert_id by exact H. by destruct w.
Qed.

Section PrevFacts.

Variable levels : string.
Variable wid : nat.
Variable d : OrderedDict (list Message).

Local Abbreviation M := (matching_indices levels d).

(** From the matching index number [S j] previous goes to number [j]. *)
Lemma advance_prev_back w j idx :
  cursor_at levels wid d (Some (S j)) w ->
  M !! j = Some idx ->
  _advance_prev_message levels wid w
  = Some (Some (index_Z idx),
          put_window wid {| paths := d; msg_index := index_Z idx |} w).
Proof.
  intros (info & Hw & Hd & (idx0 & Hk & Hi)) Hj. subst d.
  unfold _advance_prev_message, advance_prev_body. rewrite Hw.
  rewrite (prev_scan_at levels info (S j) idx0 Hk Hi).
  unfold found_last. rewrite (found_last_take _ j idx Hj).
  by destruct idx.
Qed.

(** From the unset index, and from the first matching index, previous
    goes to the last one. *)
Lemma advance_prev_wraps w pos j idx :
  cursor_at levels wid d pos w ->
  pos = None \/ pos = Some O ->
  d <> [] ->
  S j = length M ->
  M !! j = Some idx ->
  _advance_prev_message levels wid w
  = Some (Some (index_Z idx),
          put_window wid {| paths := d; msg_index := index_Z idx |} w).
Proof.
  intros (info & Hw & Hd & Hpos) Hcase Hne Hlen Hj. subst d.
  assert (Hlast : found_last (matching_indices levels (paths info))
                  = Found idx).
  { unfold found_last. rewrite last_lookup, <- Hlen. cbn [pred].
    by rewrite Hj. }
  unfold _advance_prev_message, advance_prev_body. rewrite Hw.
  destruct Hcase as [-> | ->].
  - rewrite (prev_scan_unset levels info Hpos Hne), Hlast. by destruct idx.
  - destruct Hpos as (idx0 & Hk & Hi).
    rewrite (prev_scan_at levels info 0 idx0 Hk Hi). cbn [take found_last last].
    unfold _advance_prev_message_wrapped, advance_prev_body.
    unfold set_msg_index at 1 2. cbn [WINDOW_MESSAGES].
    rewrite lookup_insert_eq.
    rewrite (prev_scan_unset levels
               {| paths := paths info; msg_index := (-1, -1) |} eq_refl Hne).
    cbn [paths]. rewrite Hlast. destruct idx as [a c].
    f_equal. f_equal. unfold set_msg_index, put_window. cbn.
    by rewrite insert_insert_eq.
Qed.

(** With no matching index previous starts over once and returns
    [None] with the index unset. *)
Lemma advance_prev_none w :
  cursor_at levels wid d None w ->
  d <> [] ->
  M = [] ->
  _advance_prev_message levels wid w
  = Some (None, put_window wid {| paths := d; msg_index := (-1, -1) |} w).
Proof.
  intros (info & Hw & Hd & Hpos) Hne HM. subst d.
  unfold _advance_prev_message, advance_prev_body. rewrite Hw.
  rewrite (prev_scan_unset levels info Hpos Hne), HM. cbn [found_last last].
  unfold _advance_prev_message_wrapped, advance_prev_body.
  unfold set_msg_index at 1. cbn [WINDOW_MESSAGES].
  rewrite lookup_insert_eq.
  rewrite (prev_scan_unset levels
             {| paths := paths info; msg_index := (-1, -1) |} eq_refl Hne).
  cbn [paths]. rewrite HM. reflexivity.
Qed.

End PrevFacts.

(** X11: previous goes through the matching messages backwards.  In a
    window with a path, from the matching message number [k + 1] it
    goes to number [k]; from the unset index, and from the first
    matching message, it goes to the last one; it stores the index it
    returns and changes nothing else.  With no matching message it
    returns [None] and the index is unset.  It never raises. *)
Theorem previous_message_goes_backwards
    (levels : string) (wid : nat) (d : OrderedDict (list Message))
    (pos : option nat) (w : World) :
  cursor_at levels wid d pos w ->
  d <> [] ->
  match
    matching_indices levels d
      !! match pos with
         | Some (S k) => k
         | _ => pred (length (matching_indices levels d))
         end
  with
  | Some idx =>
      _advance_prev_message levels wid w
      = Some (Some (index_Z idx),
              put_window wid {| paths := d; msg_index := index_Z idx |} w)
  | None =>
      _advance_prev_message levels wid w
      = Some (None, put_window wid {| paths := d; msg_index := (-1, -1) |} w)
  end.
Proof.
  intros Hc Hne.
  destruct pos as [[| k] |].
  - destruct Hc as (info & Hw & Hd & (idx0 & Hk & Hi)).
    assert (Hlen : (0 < length (matching_indices levels d))%nat)
      by (apply lookup_lt_Some in Hk; lia).
    destruct (matching_indices levels d
                !! pred (length (matching_indices levels d)))
      as [idx |] eqn:Hj; [| apply lookup_ge_None in Hj; lia].
    apply (advance_prev_wraps levels wid d w (Some O)
             (pred (length (matching_indices levels d))) idx); auto; [| lia].
    exists info. eauto.
  - assert (Hk : is_Some (matching_indices levels d !! k)).
    { destruct Hc as (info & Hw & Hd & (idx0 & Hk & Hi)).
      apply lookup_lt_is_Some. apply lookup_lt_Some in Hk. lia. }
    destruct Hk as [idx Hk]. rewrite Hk.
    exact (advance_prev_back levels wid d w k idx Hc Hk).
  - destruct (matching_indices levels d
                !! pred (length (matching_indices levels d)))
      as [idx |] eqn:Hj.
    + assert (Hlen : (0 < length (matching_indices levels d))%nat).
      { apply lookup_lt_Some in Hj.
        destruct (matching_indices levels d); cbn in *; lia. }
      apply (advance_prev_wraps levels wid d w None
               (pred (length (matching_indices levels d))) idx); auto. lia.
    + apply advance_prev_none; [exact Hc | exact Hne |].
      apply lookup_ge_None in Hj.
      destruct (matching_indices levels d); [reflexivity | cbn in Hj; lia].
Qed.

Lemma previous_message_goes_backwards_witness :
  cursor_at "all" 1 two_files None two_files_world
  /\ two_files <> []
  /\ _advance_prev_message "all" 1 two_files_world
     = Some (Some (1, 0),
             put_window 1 {| paths := two_files; msg_index := (1, 0) |}
               two_files_world).
Proof.
  assert (Hc : cursor_at "all" 1 two_files None two_files_world).
  { eexists. split; [reflexivity |]. split; reflexivity. }
  split; [exact Hc |]. split; [discriminate |].
  exact (previous_message_goes_backwards "all" 1 two_files None
           two_files_world Hc ltac:(discriminate)).
Defined.

(** ** Next and previous together *)

Lemma advance_next_world levels wid w info :
  WINDOW_MESSAGES w !! wid = Some info ->
  snd (_advance_next_message levels wid w)
  = put_window wid
      {| paths := paths info;
         msg_index := default (-1, -1) (fst (_advance_next_message levels wid w)) |}
      w.
Proof.
  intros Hw. unfold _advance_next_message, advance_next_body. rewrite Hw.
  destruct (next_scan levels info) as [[p m] |]; [reflexivity |].
  unfold _advance_next_message_wrapped, advance_next_body.
  assert (Hl : WINDOW_MESSAGES (set_msg_index wid info (-1, -1) w) !! wid
               = Some {| paths := paths info; msg_index := (-1, -1) |})
    by apply lookup_insert_eq.
  rewrite Hl.
  destruct (next_scan levels {| paths := paths info; msg_index := (-1, -1) |})
    as [[p m] |]; cbn [fst snd]; [| reflexivity].
  unfold set_msg_index, put_window. cbn. by rewrite insert_insert_eq.
Qed.

Lemma cursor_at_put levels wid d j i w :
  matching_indices levels d !! j = Some i ->
  cursor_at levels wid d (Some j)
    (put_window wid {| paths := d; msg_index := index_Z i |} w).
Proof.
  intros Hj. eexists. split; [apply lookup_insert_eq |].
  split; [reflexivity |]. cbn. eauto.
Qed.

Lemma matching_indices_nil_paths levels d :
  matching_indices levels d <> [] -> d <> [].
Proof. intros H ->. by apply H. Qed.

(** X12: next and previous undo each other.  When the index of the
    window is that of a matching message, next followed by previous
    returns this index and leaves the state as it was, and so does
    previous followed by next; this holds across the ends of the list,
    where the one wraps around forwards and the other backwards. *)
Theorem next_and_previous_undo_each_other
    (levels : string) (wid : nat) (d : OrderedDict (list Message))
    (k : nat) (w : World) :
  cursor_at levels wid d (Some k) w ->
  exists idx,
    matching_indices levels d !! k = Some idx
    /\ (exists i w1,
          _advance_next_message levels wid w = (Some i, w1)
          /\ _advance_prev_message levels wid w1
             = Some (Some (index_Z idx), w))
    /\ (exists i w1,
          _advance_prev_message levels wid w = Some (Some i, w1)
          /\ _advance_next_message levels wid w1 = (Some (index_Z idx), w)).
Proof.
  intros Hc. pose proof Hc as (info & Hw & Hd & (idx & Hk & Hi)).
  exists idx. split; [exact Hk |].
  assert (Hinfo : info = {| paths := d; msg_index := index_Z idx |})
    by (destruct info; cbn in *; by subst).
  assert (Hne : d <> []).
  { apply (matching_indices_nil_paths levels). intros HM.
    by rewrite HM in Hk. }
  assert (Hback : forall x,
            put_window wid {| paths := d; msg_index := index_Z idx |}
              (put_window wid x w) = w).
  { intros x. rewrite put_window_twice, <- Hinfo. by apply put_window_id. }
  assert (H0 : is_Some (matching_indices levels d !! O)).
  { apply lookup_lt_is_Some. apply lookup_lt_Some in Hk. lia. }
  destruct H0 as [idx0 H0].
  assert (Hl : is_Some (matching_indices levels d
                          !! pred (length (matching_indices levels d)))).
  { apply lookup_lt_is_Some. apply lookup_lt_Some in Hk. lia. }
  destruct Hl as [idxl Hl].
  split.
  - destruct (matching_indices levels d !! S k) as [idx1 |] eqn:H1.
    + destruct (advance_next_ahead levels wid d (Some k) w (S k) idx1 Hc
                  eq_refl H1) as [Hr Hc1].
      pose proof (advance_next_world levels wid w info Hw) as Hw1.
      destruct (_advance_next_message levels wid w) as [r w1].
      cbn [fst snd] in *. subst r. exists (index_Z idx1), w1.
      split; [reflexivity |].
      rewrite (advance_prev_back levels wid d w1 k idx Hc1 Hk).
      by rewrite Hw1, Hback.
    + apply lookup_ge_None in H1. apply lookup_lt_Some in Hk as Hlt.
      assert (Hlen : S k = length (matching_indices levels d)) by lia.
      destruct (advance_next_wraps levels wid d w k idx0 Hc Hlen H0)
        as [Hr Hc1].
      pose proof (advance_next_world levels wid w info Hw) as Hw1.
      destruct (_advance_next_message levels wid w) as [r w1].
      cbn [fst snd] in *. subst r. exists (index_Z idx0), w1.
      split; [reflexivity |].
      rewrite (advance_prev_wraps levels wid d w1 (Some O) k idx Hc1
                 (or_intror eq_refl) Hne Hlen Hk).
      by rewrite Hw1, Hback.
  - destruct k as [| k].
    + assert (Hlen : S (pred (length (matching_indices levels d)))
                     = length (matching_indices levels d)).
      { apply lookup_lt_Some in Hk. lia. }
      exists (index_Z idxl). eexists.
      split; [exact (advance_prev_wraps levels wid d w (Some O) _ idxl Hc
                       (or_intror eq_refl) Hne Hlen Hl) |].
      pose proof (cursor_at_put levels wid d _ idxl w Hl) as Hc1.
      destruct (advance_next_wraps levels wid d _ _ idx Hc1 Hlen Hk)
        as [Hr _].
      pose proof (advance_next_world levels wid
                    (put_window wid
                       {| paths := d; msg_index := index_Z idxl |} w)
                    {| paths := d; msg_index := index_Z idxl |}
                    (lookup_insert_eq (WINDOW_MESSAGES w) wid
                       {| paths := d; msg_index := index_Z idxl |})) as Hw1.
      destruct (_advance_next_message levels wid
                  (put_window wid
                     {| paths := d; msg_index := index_Z idxl |} w))
        as [r w2].
      cbn [fst snd paths default] in *. subst r.
      rewrite Hw1. cbv [from_option Datatypes.id]. by rewrite Hback.
    + assert (Hk' : is_Some (matching_indices levels d !! k)).
      { apply lookup_lt_is_Some. apply lookup_lt_Some in Hk. lia. }
      destruct Hk' as [idx' Hk'].
      exists (index_Z idx'). eexists.
      split; [exact (advance_prev_back levels wid d w k idx' Hc Hk') |].
      pose proof (cursor_at_put levels wid d k idx' w Hk') as Hc1.
      destruct (advance_next_ahead levels wid d (Some k) _ (S k) idx Hc1
                  eq_refl Hk) as [Hr _].
      pose proof (advance_next_world levels wid
                    (put_window wid
                       {| paths := d; msg_index := index_Z idx' |} w)
                    {| paths := d; msg_index := index_Z idx' |}
                    (lookup_insert_eq (WINDOW_MESSAGES w) wid
                       {| paths := d; msg_index := index_Z idx' |})) as Hw1.
      destruct (_advance_next_message levels wid
                  (put_window wid
                     {| paths := d; msg_index := index_Z idx' |} w))
        as [r w2].
      cbn [fst snd paths default] in *. subst r.
      rewrite Hw1. cbv [from_option Datatypes.id]. by rewrite Hback.
Qed.

Lemma next_and_previous_undo_each_other_witness :
  cursor_at "all" 1 two_files (Some 2%nat)
    (put_window 1 {| paths := two_files; msg_index := (1, 0) |} two_files_world)
  /\ exists i w1,
       _advance_next_message "all" 1
         (put_window 1 {| paths := two_files; msg_index := (1, 0) |}
            two_files_world)
       = (Some i, w1)
       /\ _advance_prev_message "all" 1 w1
          = Some (Some (1, 0),
                  put_window 1 {| paths := two_files; msg_index := (1, 0) |}
                    two_files_world).
Proof.
  assert (Hc : cursor_at "all" 1 two_files (Some 2%nat)
                 (put_window 1 {| paths := two_files; msg_index := (1, 0) |}
                    two_files_world)).
  { eexists. split; [apply lookup_insert_eq |]. split; [reflexivity |].
    exists (1%nat, 0%nat). split; reflexivity. }
  split; [exact Hc |].
  destruct (next_and_previous_undo_each_other "all" 1 two_files 2 _ Hc)
    as (idx & Hk & Hnp & _).
  injection Hk as <-. exact Hnp.
Defined.

(** ** An index that is out of date *)

(** X17: previous raises when the stored index is out of date.  If the
    index of the window names a path that is there and a message
    number that is greater than the number of messages under this
    path, [_advance_prev_message] raises (Python's [IndexError]); this
    is the state after next was called and [_sort_messages] then put
    a shorter path in the place of the index. *)
Theorem previous_message_raises_on_a_stale_index
    (levels : string) (wid : nat) (w : World) (info : WindowInfo)
    (pm : string * list Message) :
  WINDOW_MESSAGES w !! wid = Some info ->
  0 <= fst (msg_index info) ->
  paths info !! Z.to_nat (fst (msg_index info)) = Some pm ->
  Z.of_nat (length (snd pm)) < snd (msg_index info) ->
  _advance_prev_message levels wid w = None.
Proof.
  intros Hw H0 Hpm Hlen.
  unfold _advance_prev_message, advance_prev_body. rewrite Hw.
  unfold prev_scan.
  replace (fst (msg_index info) =? -1) with false
    by (symmetry; apply Z.eqb_neq; lia).
  replace (Z.to_nat (fst (msg_index info) + 1))
    with (S (Z.to_nat (fst (msg_index info)))) by lia.
  rewrite scan_paths_back_S, Hpm. destruct pm as [k ms]. cbn [snd] in Hlen.
  destruct (Z.to_nat (snd (msg_index info))) as [| i] eqn:Hi; [lia |].
  cbn [last_match]. rewrite (proj2 (lookup_ge_None ms i)) by lia.
  reflexivity.
Qed.

Lemma previous_message_raises_on_a_stale_index_witness :
  WINDOW_MESSAGES stale_world !! 1%nat
  = Some {| paths :=
              [("/p/src/b.rs", [error_at_top "error" "/p/src/b.rs" 4]);
               ("/p/src/a.rs",
                [warning_at 1 3; warning_at 2 5; warning_at 3 8])];
            msg_index := (0, 2) |}
  /\ _advance_prev_message "all" 1 stale_world = None.
Proof.
  assert (Hw : WINDOW_MESSAGES stale_world !! 1%nat
               = Some {| paths :=
                           [("/p/src/b.rs",
                             [error_at_top "error" "/p/src/b.rs" 4]);
                            ("/p/src/a.rs",
                             [warning_at 1 3; warning_at 2 5; warning_at 3 8])];
                         msg_index := (0, 2) |})
    by (vm_compute; reflexivity).
  split; [exact Hw |].
  apply (previous_message_raises_on_a_stale_index "all" 1 stale_world _
           ("/p/src/b.rs", [error_at_top "error" "/p/src/b.rs" 4]) Hw);
    [cbn; lia | reflexivity | cbn; lia].
Defined.

(** ** What sorting keeps *)

Lemma foldl_regroup_nonempty S : forall d,
  Forall (fun pm : string * list Message => snd pm <> []) d ->
  Forall (fun pm : string * list Message => snd pm <> [])
         (foldl regroup_step d S).
Proof.
  induction S as [| it S IH]; intros d Hd; cbn [foldl]; [exact Hd |].
  apply IH. by apply regroup_step_nonempty.
Qed.

Lemma item_message_path_items pm : item_message <$> path_items pm = snd pm.
Proof.
  unfold path_items. rewrite <- list_fmap_compose.
  induction (snd pm) as [| m l IH]; [reflexivity |].
  rewrite fmap_cons. f_equal. exact IH.
Qed.

Lemma filter_path_od_get d p :
  NoDup (fst <$> d) ->
  filter (fun it => item_path it = p) (items_of d)
  = path_items (p, default [] (od_get d p)).
Proof.
  intros Hnd. destruct (od_get d p) as [l |] eqn:Hl; cbn [default].
  - apply od_get_Some_elem in Hl. symmetry.
    exact (path_items_filter d (p, l) Hnd Hl).
  - apply od_get_None_keys in Hl. by rewrite (filter_path_absent p d Hl).
Qed.

Lemma sorted_paths_facts d :
  NoDup (fst <$> sorted_paths d)
  /\ Forall (fun pm : string * list Message => snd pm <> []) (sorted_paths d)
  /\ forall p,
       filter (fun it => item_path it = p) (items_of (sorted_paths d))
       = filter (fun it => item_path it = p) (sort_items (items_of d)).
Proof.
  unfold sorted_paths.
  assert (HS : Forall proper_item (sort_items (items_of d))).
  { rewrite sort_items_perm. apply items_of_proper. }
  destruct (regroup_spec (sort_items (items_of d)) [] HS (NoDup_nil_2)
              (Forall_nil_2 _)) as (Hnd & Hf & _).
  split; [exact Hnd |]. split; [| exact Hf].
  apply foldl_regroup_nonempty. constructor.
Qed.

(** Under each path the sort leaves the messages that were there. *)
Lemma sorted_paths_get d p :
  NoDup (fst <$> d) ->
  default [] (od_get (sorted_paths d) p) ≡ₚ default [] (od_get d p).
Proof.
  intros Hnd. destruct (sorted_paths_facts d) as (Hnd' & _ & Hf).
  pose proof (item_message_path_items (p, default [] (od_get d p))) as H1.
  pose proof (item_message_path_items
                (p, default [] (od_get (sorted_paths d) p))) as H2.
  cbn [snd] in H1, H2. rewrite <- H1, <- H2.
  rewrite <- !filter_path_od_get by assumption.
  rewrite Hf. by rewrite sort_items_perm.
Qed.

Lemma od_get_nonempty (d : OrderedDict (list Message)) p l :
  Forall (fun pm : string * list Message => snd pm <> []) d ->
  od_get d p = Some l -> l <> [].
Proof.
  intros Hall Hl. apply od_get_Some_elem in Hl.
  rewrite Forall_forall in Hall. exact (Hall _ Hl).
Qed.

Lemma sorted_paths_is_Some d p :
  NoDup (fst <$> d) ->
  Forall (fun pm : string * list Message => snd pm <> []) d ->
  is_Some (od_get (sorted_paths d) p) <-> is_Some (od_get d p).
Proof.
  intros Hnd Hne. destruct (sorted_paths_facts d) as (_ & Hne' & _).
  pose proof (sorted_paths_get d p Hnd) as Hperm.
  split; intros [l Hl].
  - destruct (od_get d p) as [l0 |]; [eauto |].
    rewrite Hl in Hperm. cbn in Hperm. apply Permutation_nil_r in Hperm.
    subst l. by apply od_get_nonempty in Hl.
  - destruct (od_get (sorted_paths d) p) as [l0 |]; [eauto |].
    rewrite Hl in Hperm. cbn in Hperm. symmetry in Hperm.
    apply Permutation_nil_r in Hperm.
    subst l. by apply od_get_nonempty in Hl.
Qed.

Lemma elem_of_keys_od_get {A} (d : OrderedDict A) p :
  p ∈ fst <$> d <-> is_Some (od_get d p).
Proof.
  rewrite <- not_eq_None_Some, od_get_None_keys.
  split; [tauto |]. intros H. by destruct (decide (p ∈ fst <$> d)).
Qed.

Lemma sorted_paths_keys d :
  NoDup (fst <$> d) ->
  Forall (fun pm : string * list Message => snd pm <> []) d ->
  fst <$> sorted_paths d ≡ₚ fst <$> d.
Proof.
  intros Hnd Hne. destruct (sorted_paths_facts d) as (Hnd' & _ & _).
  apply NoDup_Permutation; [exact Hnd' | exact Hnd |].
  intros p. rewrite !elem_of_keys_od_get. by apply sorted_paths_is_Some.
Qed.

Lemma path_ok_Permutation p l l' :
  l ≡ₚ l' -> path_ok (p, l) -> path_ok (p, l').
Proof.
  intros Hperm (Hne & Hm & Hp & Hc & Hk). unfold path_ok in *.
  cbn [fst snd] in *.
  split; [intros ->; by apply Permutation_nil_r in Hperm |].
  split; [exact Hm |].
  split; [by rewrite <- Hperm |].
  split; [by rewrite <- Hperm |].
  by rewrite <- Hperm.
Qed.

Lemma path_ok_nonempty d :
  Forall path_ok d ->
  Forall (fun pm : string * list Message => snd pm <> []) d.
Proof. intros H. eapply Forall_impl; [exact H |]. by intros pm [Hne _]. Qed.

Lemma sorted_paths_store_ok d : store_ok d -> store_ok (sorted_paths d).
Proof.
  intros [Hnd Hall]. destruct (sorted_paths_facts d) as (Hnd' & Hne' & _).
  split; [exact Hnd' |]. apply Forall_forall. intros [p l'] Hin.
  pose proof (od_get_elem_Some _ _ _ Hnd' Hin) as Hl'.
  pose proof (sorted_paths_get d p Hnd) as Hperm. rewrite Hl' in Hperm.
  cbn [default] in Hperm.
  destruct (od_get d p) as [l |] eqn:Hl.
  - cbn in Hperm. apply path_ok_Permutation with l; [done |].
    rewrite Forall_forall in Hall. apply Hall. by apply od_get_Some_elem.
  - cbn in Hperm. apply Permutation_nil_r in Hperm. subst l'.
    rewrite Forall_forall in Hne'. by specialize (Hne' _ Hin).
Qed.

Lemma sorted_paths_not_nil d :
  NoDup (fst <$> d) ->
  Forall (fun pm : string * list Message => snd pm <> []) d ->
  d <> [] -> sorted_paths d <> [].
Proof.
  intros Hnd Hne Hd Hs.
  pose proof (sorted_paths_keys d Hnd Hne) as Hk. rewrite Hs in Hk.
  cbn in Hk. symmetry in Hk. apply Permutation_nil_r in Hk.
  by destruct d.
Qed.

(** X15: sorting keeps the messages where they belong.  For a window
    that is well formed, the window after [_sort_messages] is well
    formed; under every path there are the messages that were there,
    in some order; the paths are the ones that were there; the index
    of the window is the one that was stored (the sort does not move
    it along with its message); and the other windows are as they
    were. *)
Theorem sorting_keeps_the_messages (E : Env) (wid : nat) (w : World) :
  window_ok wid w ->
  window_ok wid (_sort_messages E wid w)
  /\ (forall p,
        stored_at wid p (_sort_messages E wid w) ≡ₚ stored_at wid p w)
  /\ (forall info,
        WINDOW_MESSAGES w !! wid = Some info ->
        exists info',
          WINDOW_MESSAGES (_sort_messages E wid w) !! wid = Some info'
          /\ msg_index info' = msg_index info
          /\ fst <$> paths info' ≡ₚ fst <$> paths info)
  /\ (forall wid', wid' <> wid ->
        WINDOW_MESSAGES (_sort_messages E wid w) !! wid'
        = WINDOW_MESSAGES w !! wid').
Proof.
  intros Hok. unfold _sort_messages.
  destruct (negb (rust_sort_messages E)).
  { split; [exact Hok |]. split; [done |]. split; [| done].
    intros info Hi. by exists info. }
  destruct (WINDOW_MESSAGES w !! wid) as [info |] eqn:Hw.
  2:{ split; [exact Hok |]. split; [done |]. split; [| done].
      intros info Hi. discriminate Hi. }
  destruct (Hok info Hw) as [Hd [Hnd Hall]].
  pose proof (path_ok_nonempty _ Hall) as Hne.
  split; [| split; [| split]].
  - intros info'. cbn [WINDOW_MESSAGES]. rewrite lookup_insert_eq.
    intros [= <-]. cbn [paths]. split.
    + by apply sorted_paths_not_nil.
    + by apply sorted_paths_store_ok.
  - intros p. unfold stored_at. cbn [WINDOW_MESSAGES].
    rewrite lookup_insert_eq, Hw. cbn [paths]. by apply sorted_paths_get.
  - intros info0 [= <-]. eexists. cbn [WINDOW_MESSAGES].
    split; [apply lookup_insert_eq |]. split; [reflexivity |].
    cbn [paths]. by apply sorted_paths_keys.
  - intros wid' Hne'. cbn [WINDOW_MESSAGES]. by rewrite lookup_insert_ne.
Qed.

Lemma sorting_keeps_the_messages_witness :
  window_ok 1 checked_world
  /\ window_ok 1 (_sort_messages (posix false) 1 checked_world)
  /\ forall p,
       stored_at 1 p (_sort_messages (posix false) 1 checked_world)
       ≡ₚ stored_at 1 p checked_world.
Proof.
  split; [apply window_ok_checked_world |].
  destruct (sorting_keeps_the_messages (posix false) 1 checked_world
              window_ok_checked_world) as (H1 & H2 & _).
  split; [exact H1 | exact H2].
Defined.

(** X16: the sort is stable.  The messages of a window that have the
    same level, path and line are, after [_sort_messages], in the
    order they had before. *)
Theorem sorting_is_stable
    (E : Env) (wid : nat) (w : World) (k : Z * string * Z) :
  filter (fun it => item_key it = k) (window_items wid (_sort_messages E wid w))
  = filter (fun it => item_key it = k) (window_items wid w).
Proof.
  unfold _sort_messages. destruct (negb (rust_sort_messages E)); [reflexivity |].
  unfold window_items at 2.
  destruct (WINDOW_MESSAGES w !! wid) as [info |] eqn:Hw.
  2:{ unfold window_items. by rewrite Hw. }
  unfold window_items. cbn [WINDOW_MESSAGES]. rewrite lookup_insert_eq.
  cbn [paths]. destruct (sorted_paths_facts (paths info)) as (_ & _ & Hf).
  rewrite <- (sort_items_stable k (items_of (paths info))).
  rewrite <- (list_filter_filter_l (fun it => item_key it = k)
                (fun it => item_path it = snd (fst k))
                (items_of (sorted_paths (paths info)))).
  - rewrite Hf. apply list_filter_filter_l. intros it <-. reflexivity.
  - intros it <-. reflexivity.
Qed.

(** ** Cross links without a child far away *)

(** X18: a tree without a child far away is left as it is by
    [_create_cross_links], and no id is used; and only such a tree is:
    with a child far away a link message is added. *)
Theorem no_far_child_no_link (E : Env) (t : MessageTree) (next : nat) :
  Forall (fun c => far_away (root t) c = false) (children t)
  <-> _create_cross_links E t next = (t, next).
Proof.
  destruct (link_loop_spec E (root t) (children t))
    as (Hset & Hlen & Hdone & Hget).
  cbn zeta in *. unfold _create_cross_links, cross_link_loop.
  set (r := foldl (link_step E (root t))
              {| link_set := ∅; links := []; done_children := [] |}
              (children t)) in *.
  split.
  - intros Hnear.
    assert (Hkeys : far_keys (root t) (children t) = ∅).
    { unfold far_keys. rewrite filter_none; [reflexivity |].
      eapply Forall_impl; [exact Hnear |]. intros c Hc. by rewrite Hc. }
    assert (Hlinks : links r = []).
    { apply length_zero_iff_nil. by rewrite Hlen, Hset, Hkeys, size_empty. }
    assert (Hsame : done_children r = children t).
    { apply list_eq. intros i.
      destruct (children t !! i) as [c |] eqn:Hi.
      - rewrite (Hget i c Hi). unfold first_far_child.
        rewrite Forall_forall in Hnear.
        rewrite (Hnear c) by (eapply list_elem_of_lookup_2; exact Hi).
        reflexivity.
      - apply lookup_ge_None in Hi. apply lookup_ge_None. lia. }
    rewrite Hlinks, Hsame. cbn. rewrite app_nil_r, Nat.add_0_r.
    by destruct t.
  - intros [= Hchildren Hnext].
    assert (Hlinks : length (links r) = O) by lia.
    rewrite Hlen, Hset in Hlinks. apply size_empty_inv in Hlinks.
    apply Forall_forall. intros c Hc.
    destruct (far_away (root t) c) eqn:Hfar; [| reflexivity].
    assert (Hin : seen_key c ∈ far_keys (root t) (children t)).
    { apply elem_of_far_keys. by exists c. }
    rewrite (leibniz_equiv _ _ Hlinks) in Hin. by apply not_elem_of_empty in Hin.
Qed.

(** ** The markup *)

Lemma minihtml_step_out E p st out m :
  exists st' m',
    minihtml_step E p (st, out) m = (st', out ++ [m']) /\ marked_up m m'.
Proof.
  destruct st as [ll lp]. unfold minihtml_step, marked_up, passed_over.
  destruct (truthy (minihtml_text m) || negb (truthy (text m))).
  - by exists (ll, lp), m.
  - eexists. eexists. split; [reflexivity |].
    eexists. split; [| reflexivity]. discriminate.
Qed.

Lemma minihtml_fold_marked_up E p ms : forall acc,
  exists ms',
    snd (foldl (minihtml_step E p) acc ms) = snd acc ++ ms'
    /\ Forall2 marked_up ms ms'.
Proof.
  induction ms as [| m ms IH]; intros [st out]; cbn [foldl].
  - exists []. split; [by rewrite app_nil_r | constructor].
  - destruct (minihtml_step_out E p st out m) as (st' & m' & -> & Hm).
    destruct (IH (st', out ++ [m'])) as (ms' & -> & Hms). cbn [snd].
    exists (m' :: ms'). split; [by rewrite <- app_assoc | by constructor].
Qed.

Lemma minihtml_fold_passed_over E p ms : forall acc,
  Forall (fun m => passed_over m = true) ms ->
  snd (foldl (minihtml_step E p) acc ms) = snd acc ++ ms.
Proof.
  induction ms as [| m ms IH]; intros [[ll lp] out] Hall; cbn [foldl].
  - by rewrite app_nil_r.
  - apply Forall_cons in Hall as [Hm Hms]. unfold minihtml_step at 2.
    unfold passed_over in Hm. rewrite Hm, (IH _ Hms). cbn [snd].
    by rewrite <- app_assoc.
Qed.

Lemma marked_up_passed_over m m' : marked_up m m' -> passed_over m' = true.
Proof.
  unfold marked_up. destruct (passed_over m) eqn:Hm.
  - by intros ->.
  - intros (c & Hc & ->). unfold passed_over. cbn.
    destruct c; [done | reflexivity].
Qed.

Lemma create_minihtml_iter E t :
  iter (_create_minihtml E t)
  = snd (foldl (minihtml_step E (root t)) ((None, None), []) (iter t)).
Proof.
  unfold _create_minihtml.
  destruct (minihtml_fold_marked_up E (root t) (iter t) ((None, None), []))
    as (ms' & Hms' & Hall).
  rewrite Hms'. cbn [snd app].
  destruct ms' as [| r cs]; [inversion Hall | reflexivity].
Qed.

(** X20: what [_create_minihtml] does to the messages of a tree.  The
    tree keeps its messages in their places; a message that has
    markup (a link, a suggested replacement), and one without text,
    is left as it is; every other message gets markup that is not
    empty and is changed in nothing else.  So afterwards every
    message with text has markup. *)
Theorem markup_is_made_once (E : Env) (t : MessageTree) :
  Forall2 marked_up (iter t) (iter (_create_minihtml E t))
  /\ Forall (fun m => truthy (text m) = true ->
                      truthy (minihtml_text m) = true)
            (iter (_create_minihtml E t)).
Proof.
  rewrite create_minihtml_iter.
  destruct (minihtml_fold_marked_up E (root t) (iter t) ((None, None), []))
    as (ms' & -> & Hall).
  cbn [snd app]. split; [exact Hall |].
  apply Forall_forall. intros m' Hin Ht.
  apply list_elem_of_lookup in Hin as [i Hi].
  destruct (Forall2_lookup_r _ _ _ _ _ Hall Hi) as (m & _ & Hm).
  apply marked_up_passed_over in Hm. unfold passed_over in Hm.
  rewrite Ht in Hm. cbn in Hm. by rewrite orb_false_r in Hm.
Qed.

(** X19: [_create_minihtml] a second time changes nothing. *)
Theorem create_minihtml_twice (E : Env) (t : MessageTree) :
  _create_minihtml E (_create_minihtml E t) = _create_minihtml E t.
Proof.
  pose proof (create_minihtml_iter E t) as Hiter.
  destruct (minihtml_fold_marked_up E (root t) (iter t) ((None, None), []))
    as (ms' & Hms' & Hall).
  rewrite Hms' in Hiter. cbn [snd app] in Hiter.
  assert (Hpassed : Forall (fun m => passed_over m = true)
                      (iter (_create_minihtml E t))).
  { rewrite Hiter. apply Forall_forall. intros m' Hin.
    apply list_elem_of_lookup in Hin as [i Hi].
    destruct (Forall2_lookup_r _ _ _ _ _ Hall Hi) as (m & _ & Hm).
    by apply marked_up_passed_over in Hm. }
  unfold _create_minihtml at 1.
  rewrite (minihtml_fold_passed_over E _ _ ((None, None), []) Hpassed).
  cbn [snd app iter]. by destruct (_create_minihtml E t).
Qed.

(** ** Phantoms *)

Lemma od_get_fmap_snd {A B} (g : A -> B) (d : OrderedDict A) p :
  od_get ((fun pm : string * A => (fst pm, g (snd pm))) <$> d) p
  = g <$> od_get d p.
Proof.
  induction d as [| [k x] d IH]; [reflexivity |].
  rewrite fmap_cons. cbn [od_get fst snd].
  destruct (String.eqb k p); [reflexivity | exact IH].
Qed.

(** X21: a dismissed message shows no phantom.  After
    [Message.dismiss] the phantoms [_show_phantom] gives for the
    messages under a path are those it gave before, without the
    phantoms of the dismissed message, of its primary message and of
    the children of that message. *)
Theorem dismissed_messages_show_no_phantom
    (E : Env) (m : Message) (info : WindowInfo) (p : string) :
  omap (_show_phantom E) (default [] (od_get (paths (dismiss m info)) p))
  = omap (_show_phantom E)
      (filter (fun x => in_tree_of (dismiss_root m) x = false)
         (default [] (od_get (paths info) p))).
Proof.
  unfold dismiss. cbn [paths].
  rewrite (od_get_fmap_snd
             (fun l : list Message =>
                (fun x => if in_tree_of (dismiss_root m) x
                          then set_hidden true x else x) <$> l)).
  destruct (od_get (paths info) p) as [l |]; [| reflexivity].
  cbn [fmap option_fmap option_map]. cbv [from_option Datatypes.id].
  induction l as [| x l IH]; [reflexivity |].
  rewrite fmap_cons. cbn [omap list_omap].
  destruct (in_tree_of (dismiss_root m) x) eqn:Hx.
  - rewrite filter_cons_False by (rewrite Hx; discriminate).
    unfold _show_phantom at 1. cbn [hidden set_hidden orb].
    destruct (negb (rust_phantom_style_normal E)); exact IH.
  - rewrite filter_cons_True by exact Hx. cbn [omap list_omap].
    by rewrite IH.
Qed.

(** ** Region highlights *)

Lemma draw_step_hidden m : hidden (draw_step m) = hidden m.
Proof.
  unfold draw_step. destruct (hidden m) eqn:H; [exact H |].
  by destruct (in_regions (level m)).
Qed.

Lemma draw_step_region_key m : region_key (draw_step m) = region_key m.
Proof.
  unfold draw_step. destruct (hidden m); [reflexivity |].
  by destruct (in_regions (level m)).
Qed.

Lemma draw_step_in_regions m :
  hidden m = false -> in_regions (level (draw_step m)) = true.
Proof.
  intros H. unfold draw_step. rewrite H.
  destruct (in_regions (level m)) eqn:Hl; [exact Hl | reflexivity].
Qed.

Lemma in_regions_cases l :
  in_regions l = true ->
  l = Some "error" \/ l = Some "warning" \/ l = Some "note" \/ l = Some "help".
Proof.
  destruct l as [s |]; [| discriminate]. cbn [in_regions]. intros H.
  apply bool_decide_eq_true in H.
  repeat (apply elem_of_cons in H as [-> | H]; [tauto |]).
  by apply elem_of_nil in H.
Qed.

Lemma regions_at_cons_other lvl m ms :
  level m <> Some lvl -> regions_at lvl (m :: ms) = regions_at lvl ms.
Proof. intros H. unfold regions_at. apply filter_cons_False. tauto. Qed.

Lemma regions_at_cons_same lvl m ms :
  hidden m = false -> level m = Some lvl ->
  regions_at lvl (m :: ms) = m :: regions_at lvl ms.
Proof. intros H1 H2. unfold regions_at. by apply filter_cons_True. Qed.

Lemma regions_at_cons_hidden lvl m ms :
  hidden m = true -> regions_at lvl (m :: ms) = regions_at lvl ms.
Proof.
  intros H. unfold regions_at. apply filter_cons_False. rewrite H.
  intros [? _]. discriminate.
Qed.

(** The four lists of regions hold the visible messages. *)
Lemma regions_partition ms :
  Forall (fun m => hidden m = false -> in_regions (level m) = true) ms ->
  regions_at "help" ms ++ regions_at "note" ms ++ regions_at "warning" ms
  ++ regions_at "error" ms
  ≡ₚ filter (fun m => hidden m = false) ms.
Proof.
  induction 1 as [| m ms Hm _ IH]; [reflexivity |].
  destruct (hidden m) eqn:Hh.
  - rewrite !regions_at_cons_hidden by exact Hh.
    rewrite filter_cons_False by (rewrite Hh; discriminate). exact IH.
  - rewrite filter_cons_True by exact Hh. rewrite <- IH.
    destruct (in_regions_cases _ (Hm eq_refl)) as [Hl | [Hl | [Hl | Hl]]].
    + rewrite (regions_at_cons_same "error") by assumption.
      rewrite !regions_at_cons_other by (rewrite Hl; discriminate).
      rewrite !app_assoc. by rewrite <- Permutation_middle.
    + rewrite (regions_at_cons_same "warning") by assumption.
      rewrite !regions_at_cons_other by (rewrite Hl; discriminate).
      cbn [app]. rewrite !(app_assoc (regions_at "help" ms)).
      by rewrite <- Permutation_middle.
    + rewrite (regions_at_cons_same "note") by assumption.
      rewrite !regions_at_cons_other by (rewrite Hl; discriminate).
      cbn [app]. by rewrite <- Permutation_middle.
    + rewrite (regions_at_cons_same "help") by assumption.
      rewrite !regions_at_cons_other by (rewrite Hl; discriminate).
      reflexivity.
Qed.

Lemma region_call_keys S lvl (ms : list Message) :
  rc_key <$> (region_call S lvl <$> ms) = region_key <$> ms.
Proof. by rewrite <- list_fmap_compose. Qed.

Lemma region_call_scope S lvl (ms : list Message) :
  Forall (fun c => rc_scope c = if String.eqb lvl "error" then "invalid"
                                else "info")
         (region_call S lvl <$> ms).
Proof. apply Forall_fmap, Forall_forall. by intros m _. Qed.

Lemma visible_keys_draw_step (ms : list Message) :
  region_key <$> filter (fun m => hidden m = false) (draw_step <$> ms)
  = region_key <$> filter (fun m => hidden m = false) ms.
Proof.
  induction ms as [| m ms IH]; [reflexivity |].
  rewrite fmap_cons. destruct (hidden m) eqn:Hh.
  - rewrite !filter_cons_False
      by (rewrite ?draw_step_hidden, Hh; discriminate).
    exact IH.
  - rewrite !filter_cons_True by (rewrite ?draw_step_hidden; exact Hh).
    by rewrite !fmap_cons, IH, draw_step_region_key.
Qed.

(** X22: what [_draw_region_highlights] draws.  With the region style
    ['none'] nothing is drawn and no message is touched.  Otherwise
    every message that is not hidden gets one call of
    [_sublime_add_regions] with its region key, and a hidden message
    gets none; the calls with the scope of the errors come after all
    the others; and a message with a level that is not one of the four
    is drawn as an error and has the level ['error'] afterwards, so
    that a primary message of this kind, which next and previous found
    under ['warning'], is found under ['error'] from then on. *)
Theorem visible_messages_are_drawn_once (S : Style) (ms : list Message) :
  if rust_region_style_none S
  then _draw_region_highlights S ms = ([], ms)
  else
    rc_key <$> fst (_draw_region_highlights S ms)
    ≡ₚ region_key <$> filter (fun m => hidden m = false) ms
    /\ (exists others errors,
          fst (_draw_region_highlights S ms) = others ++ errors
          /\ Forall (fun c => rc_scope c = "info") others
          /\ Forall (fun c => rc_scope c = "invalid") errors)
    /\ snd (_draw_region_highlights S ms) = draw_step <$> ms
    /\ forall m,
         hidden m = false -> in_regions (level m) = false ->
         level (draw_step m) = Some "error"
         /\ (primary m = true ->
             _is_matching_level "warning" m = true
             /\ _is_matching_level "error" m = false
             /\ _is_matching_level "error" (draw_step m) = true).
Proof.
  unfold _draw_region_highlights.
  destruct (rust_region_style_none S); [reflexivity |].
  cbn [fst snd flat_map]. rewrite app_nil_r.
  split; [| split; [| split; [reflexivity |]]].
  - rewrite !fmap_app, !region_call_keys, <- !fmap_app.
    rewrite regions_partition.
    + by rewrite visible_keys_draw_step.
    + apply Forall_fmap, Forall_forall. intros m _ Hh. cbn in *.
      rewrite draw_step_hidden in Hh. by apply draw_step_in_regions.
  - exists ((region_call S "help" <$> regions_at "help" (draw_step <$> ms))
            ++ (region_call S "note" <$> regions_at "note" (draw_step <$> ms))
            ++ (region_call S "warning"
                  <$> regions_at "warning" (draw_step <$> ms))),
      (region_call S "error" <$> regions_at "error" (draw_step <$> ms)).
    split; [by rewrite <- !app_assoc |].
    split; [| apply (region_call_scope S "error")].
    repeat (apply Forall_app; split).
    + apply (region_call_scope S "help").
    + apply (region_call_scope S "note").
    + apply (region_call_scope S "warning").
  - intros m Hh Hl.
    assert (Hlvl : level (draw_step m) = Some "error").
    { unfold draw_step. by rewrite Hh, Hl. }
    split; [exact Hlvl |]. intros Hp.
    assert (Hne : level m <> Some "error").
    { intros He. rewrite He in Hl. discriminate Hl. }
    assert (Hp' : primary (draw_step m) = true).
    { unfold draw_step. by rewrite Hh, Hl. }
    unfold _is_matching_level. rewrite Hp, Hp', Hlvl. cbn.
    rewrite (bool_decide_eq_false_2 _ Hne). done.
Qed.

(** ** The check on save *)

Lemma has_message_for_path_same wid p w c f :
  has_message_for_path wid p
    {| WINDOW_MESSAGES := WINDOW_MESSAGES w; callbacks := c; fresh := f |}
  = has_message_for_path wid p w.
Proof. reflexivity. Qed.

(** A path that has a message keeps having one. *)
Lemma has_message_for_path_stays E wid base_path raw target_path msg_cb p w :
  exists w',
    add_rust_messages E wid base_path raw target_path msg_cb w = Some w'
    /\ (has_message_for_path wid p w = true ->
        has_message_for_path wid p w' = true).
Proof.
  apply (add_rust_messages_rel E wid base_path target_path msg_cb
           (fun a b => has_message_for_path wid p a = true ->
                       has_message_for_path wid p b = true)).
  - intros a c f Ha. exact Ha.
  - intros a b c H1 H2 Ha. by apply H2, H1.
  - intros m a b [q Hq] Hadd Ha.
    destruct (contains MACROS q) eqn:Hm.
    + unfold add_message in Hadd. rewrite Hq, Hm in Hadd.
      by injection Hadd as <-.
    + destruct (add_message_has_path msg_cb wid m q a Hq Hm)
        as (b' & Hadd' & Hhas & Hothers).
      rewrite Hadd in Hadd'. injection Hadd' as <-.
      destruct (decide (p = q)) as [-> | Hne]; [exact Hhas |].
      by rewrite Hothers.
Qed.

Section SyntaxCheckFacts.

Variable E : Env.
Variable wid : nat.
Variable cwd : string.
Variable file : string.
Variable output_of : list string -> list Raw.
Variable method : string.
Variable include_tests : bool.

Lemma on_json_flag obj s :
  flag_is_right wid file s ->
  exists s', on_json E wid cwd file obj s = Some s'
             /\ flag_is_right wid file s'.
Proof.
  unfold flag_is_right, on_json. intros Hs.
  destruct (has_message_for_path_stays E wid cwd obj
              (current_target_src (fst s)) false file (snd s))
    as (w' & -> & Hmono).
  eexists. split; [reflexivity |]. cbn [fst snd this_view_found].
  destruct (has_message_for_path wid file w') eqn:Hw'; [reflexivity |].
  rewrite Hs. destruct (has_message_for_path wid file (snd s));
    [specialize (Hmono eq_refl); congruence | reflexivity].
Qed.

Lemma run_proc_flag objs : forall s,
  flag_is_right wid file s ->
  exists s', run_proc E wid cwd file objs s = Some s'
             /\ flag_is_right wid file s'.
Proof.
  induction objs as [| obj objs IH]; intros s Hs; cbn [run_proc].
  - by exists s.
  - destruct (on_json_flag obj s Hs) as (s1 & -> & Hs1). by apply IH.
Qed.

End SyntaxCheckFacts.

(** ** The check stops at the first target with a message *)

Section CheckRunFacts.

Variable E : Env.
Variable wid : nat.
Variable cwd : string.
Variable file : string.
Variable output_of : list string -> list Raw.
Variable method : string.
Variable include_tests : bool.

Local Abbreviation cmd_of :=
  (fun t : string * list string => target_command method include_tests (snd t)).
Local Abbreviation run_targets' :=
  (run_targets E wid cwd file output_of method include_tests).

(** The loop over the targets runs the first [k] targets, where [k] is
    the first number of targets after which the window has a message
    for the file, or the number of all targets. *)
Lemma check_targets_stop targets : forall s,
  flag_is_right wid file s ->
  exists k s',
    check_targets E wid cwd file output_of method include_tests targets s
    = Some (cmd_of <$> take k targets, s')
    /\ flag_is_right wid file s'
    /\ (k <= length targets)%nat
    /\ (targets <> [] -> (0 < k)%nat)
    /\ run_targets' (take k targets) s = Some s'
    /\ (forall j, (0 < j < k)%nat ->
          exists sj, run_targets' (take j targets) s = Some sj
                     /\ has_message_for_path wid file (snd sj) = false)
    /\ ((k < length targets)%nat ->
        has_message_for_path wid file (snd s') = true).
Proof.
  induction targets as [| [src args] targets IH]; intros s Hs;
    cbn [check_targets].
  - exists 0%nat, s. split; [reflexivity |]. split; [exact Hs |].
    split; [reflexivity |]. split; [done |]. split; [reflexivity |].
    split; [intros j Hj; lia | cbn; lia].
  - destruct (run_proc_flag E wid cwd file
                (output_of (target_command method include_tests args))
                ({| this_view_found := this_view_found (fst s);
                    current_target_src := Some src |}, snd s) Hs)
      as (s1 & Hrun & Hs1).
    rewrite Hrun.
    destruct (this_view_found (fst s1)) eqn:Hfound.
    + exists 1%nat, s1. cbn [take fmap list_fmap snd].
      split; [reflexivity |]. split; [exact Hs1 |].
      split; [cbn [length]; lia |]. split; [lia |].
      split; [cbn [run_targets]; by rewrite Hrun |].
      split; [intros j Hj; lia |].
      intros _. unfold flag_is_right in Hs1. by rewrite <- Hs1.
    + destruct (IH s1 Hs1)
        as (k & s2 & -> & Hs2 & Hle & Hpos & Hall & Hbefore & Hlast).
      exists (S k), s2. cbn [take fmap list_fmap snd].
      split; [reflexivity |]. split; [exact Hs2 |].
      split; [cbn [length]; lia |]. split; [lia |].
      split; [cbn [run_targets]; by rewrite Hrun |].
      split.
      * intros [| j] Hj; [lia |]. cbn [take run_targets]. rewrite Hrun.
        destruct j as [| j].
        -- exists s1. rewrite take_0. split; [reflexivity |].
           unfold flag_is_right in Hs1. by rewrite <- Hs1.
        -- apply Hbefore. lia.
      * cbn [length]. intros Hlt. apply Hlast. lia.
Qed.

End CheckRunFacts.

(** X23: the check stops at the first target that gives a message for
    the file that was saved.  When [get_rustc_messages] starts with
    the flag [this_view_found] telling whether the window has a
    message for the file (as after [clear_messages], with the flag
    false), it returns and the flag tells it at the end as well.  For
    the methods other than clippy it runs the commands of the first
    [k] targets, in their order, and ends in the state these runs
    give; at least one target is run when there is one; after each
    smaller number of targets (one at least) the window had no
    message for the file; and when a target was left out the window
    has a message for the file. *)
Theorem check_stops_at_the_first_target_with_messages
    (E : Env) (wid : nat) (cwd file : string)
    (output_of : list string -> list Raw) (method : string)
    (include_tests : bool) (targets : list (string * list string))
    (s : Thread * World) :
  flag_is_right wid file s ->
  exists cmds s',
    get_rustc_messages E wid cwd file output_of method include_tests targets s
    = Some (cmds, s')
    /\ flag_is_right wid file s'
    /\ (method <> "clippy" ->
        exists k,
          cmds = (fun t : string * list string =>
                    target_command method include_tests (snd t))
                 <$> take k targets
          /\ (k <= length targets)%nat
          /\ (targets <> [] -> (0 < k)%nat)
          /\ run_targets E wid cwd file output_of method include_tests
               (take k targets) s = Some s'
          /\ (forall j, (0 < j < k)%nat ->
                exists sj,
                  run_targets E wid cwd file output_of method include_tests
                    (take j targets) s = Some sj
                  /\ has_message_for_path wid file (snd sj) = false)
          /\ ((k < length targets)%nat ->
              has_message_for_path wid file (snd s') = true)).
Proof.
  intros Hs. unfold get_rustc_messages.
  destruct (String.eqb_spec method "clippy") as [-> | Hne].
  - destruct (run_proc_flag E wid cwd file
                (output_of ["cargo"; "+nightly"; "clippy";
                            "--message-format=json"]) s Hs)
      as (s' & -> & Hs').
    eexists. eexists. split; [reflexivity |]. split; [exact Hs' | done].
  - destruct (check_targets_stop E wid cwd file output_of method
                include_tests targets s Hs)
      as (k & s' & Hc & Hs' & Hrest).
    eexists. exists s'. split; [exact Hc |]. split; [exact Hs' |].
    intros _. exists k. split; [reflexivity | exact Hrest].
Qed.

Lemma check_stops_at_the_first_target_with_messages_witness :
  flag_is_right 1 "/p/src/main.rs"
    ({| this_view_found := false; current_target_src := None |}, no_windows)
  /\ exists cmds s',
       get_rustc_messages (posix false) 1 "/p" "/p/src/main.rs"
         (fun _ => [cargo_error]) "check" true
         [("/p/src/main.rs", ["--bin"; "a"]); ("/p/src/lib.rs", ["--lib"])]
         ({| this_view_found := false; current_target_src := None |},
          no_windows)
       = Some (cmds, s')
       /\ flag_is_right 1 "/p/src/main.rs" s'.
Proof.
  split; [reflexivity |].
  destruct (check_stops_at_the_first_target_with_messages (posix false) 1
              "/p" "/p/src/main.rs" (fun _ => [cargo_error]) "check" true
              [("/p/src/main.rs", ["--bin"; "a"]); ("/p/src/lib.rs", ["--lib"])]
              ({| this_view_found := false; current_target_src := None |},
               no_windows) eq_refl)
    as (cmds & s' & Hget & Hflag & _).
  exists cmds, s'. split; [exact Hget | exact Hflag].
Defined.

(** The commands of the example: the second target is not checked. *)
Example only_the_first_target_is_checked :
  fst <$> get_rustc_messages (posix false) 1 "/p" "/p/src/main.rs"
            (fun _ => [cargo_error]) "check" true
            [("/p/src/main.rs", ["--bin"; "a"]); ("/p/src/lib.rs", ["--lib"])]
            ({| this_view_found := false; current_target_src := None |},
             no_windows)
  = Some [["cargo"; "check"; "--message-format=json"; "--bin"; "a"]].
Proof. vm_compute. reflexivity. Qed.

(** ** One stop for a diagnostic *)

Lemma matches_in_app levels l1 l2 : forall i,
  matches_in levels (l1 ++ l2) i
  = matches_in levels l1 i ++ matches_in levels l2 (i + length l1).
Proof.
  induction l1 as [| m l1 IH]; intros i; cbn [app matches_in length].
  - by rewrite Nat.add_0_r.
  - rewrite IH, <- app_assoc. do 3 f_equal. lia.
Qed.

Lemma append_entry_stops levels d p m b :
  length (matching_from levels
            (od_alter (fun l => l ++ [m]) p (setdefault d p [])) b)
  = (length (matching_from levels d b)
     + (if _is_matching_level levels m then 1 else 0))%nat.
Proof.
  destruct (append_entry_cases d p m)
    as [(d1 & l0 & d2 & -> & _ & ->) | [_ ->]].
  - rewrite !matching_from_app. cbn [matching_from].
    rewrite matches_in_app. cbn [matches_in].
    rewrite !length_app, !length_fmap, !length_app.
    destruct (_is_matching_level levels m); cbn [length]; lia.
  - rewrite matching_from_app. cbn [matching_from matches_in].
    rewrite !length_app, !length_fmap, app_nil_r.
    destruct (_is_matching_level levels m); cbn [length]; lia.
Qed.

Lemma is_matching_level_all m : _is_matching_level "all" m = primary m.
Proof. unfold _is_matching_level. by destruct (primary m). Qed.

Lemma add_message_stops msg_cb wid m w w' :
  is_Some (path m) -> add_message msg_cb wid m w = Some w' ->
  (length (stops wid w) <= length (stops wid w')
   <= length (stops wid w) + (if primary m then 1 else 0))%nat.
Proof.
  intros [p Hp] Hadd. destruct (contains MACROS p) eqn:Hm.
  { unfold add_message in Hadd. rewrite Hp, Hm in Hadd.
    injection Hadd as <-. lia. }
  rewrite (add_message_result msg_cb wid m p w Hp Hm) in Hadd.
  cbn zeta in Hadd. injection Hadd as <-.
  destruct (existsb _ _); [lia |].
  unfold stops at 2 3. cbn [WINDOW_MESSAGES]. rewrite lookup_insert_eq.
  cbn [paths]. unfold matching_indices. rewrite append_entry_stops.
  rewrite is_matching_level_all. cbn [primary set_region_key].
  unfold stops, matching_indices.
  destruct (WINDOW_MESSAGES w !! wid); cbn; destruct (primary m); lia.
Qed.

Lemma add_messages_stops msg_cb wid ms : forall w,
  Forall (fun m => is_Some (path m)) ms ->
  exists w',
    add_messages msg_cb wid ms w = Some w'
    /\ (length (stops wid w) <= length (stops wid w')
        <= length (stops wid w)
           + length (filter (fun m => primary m = true) ms))%nat.
Proof.
  induction ms as [| m ms IH]; intros w Hall; cbn [add_messages].
  - exists w. split; [reflexivity |]. cbn. lia.
  - apply Forall_cons in Hall as [Hm Hms].
    destruct (add_message_blocks msg_cb wid m w Hm) as (w1 & Hadd & _).
    rewrite Hadd. destruct (IH w1 Hms) as (w2 & Hadds & Hlen).
    exists w2. split; [exact Hadds |].
    pose proof (add_message_stops msg_cb wid m w w1 Hm Hadd) as H1.
    destruct (primary m) eqn:Hp.
    + rewrite filter_cons_True by exact Hp. cbn [length]. lia.
    + rewrite filter_cons_False by (rewrite Hp; discriminate). lia.
Qed.

Lemma collect_adds_children E base_path target_path msg_cb info pi st :
  adds_children_only st
    (_collect_rust_messages E base_path target_path msg_cb info pi st).
Proof.
  apply collect_rel.
  - apply adds_children_only_refl.
  - apply adds_children_only_trans.
  - apply adds_children_only_child.
  - apply adds_children_only_primary.
  - intros. apply adds_children_only_cb.
Qed.

Lemma cross_links_children_not_primary E t next :
  Forall (fun m => primary m = false) (children t) ->
  Forall (fun m => primary m = false)
         (children (fst (_create_cross_links E t next))).
Proof.
  intros Hc. unfold _create_cross_links, cross_link_loop. cbn [fst children].
  destruct (link_loop_spec E (root t) (children t))
    as (_ & _ & Hdone & Hget).
  apply Forall_app. split.
  - apply Forall_lookup. intros i x Hx.
    destruct (children t !! i) as [c |] eqn:Hi.
    + rewrite (Hget i c Hi) in Hx. injection Hx as <-.
      rewrite Forall_lookup in Hc. specialize (Hc i c Hi).
      by destruct (first_far_child (root t) (children t) i c).
    + apply lookup_ge_None in Hi. apply lookup_lt_Some in Hx. lia.
  - unfold link_messages. apply Forall_forall. intros x Hx.
    apply elem_of_lookup_imap in Hx as (i & y & -> & _). reflexivity.
Qed.

Lemma marked_up_primary m m' : marked_up m m' -> primary m' = primary m.
Proof.
  unfold marked_up. destruct (passed_over m).
  - by intros ->.
  - by intros (c & _ & ->).
Qed.

Lemma create_minihtml_children_not_primary E t :
  Forall (fun m => primary m = false) (children t) ->
  Forall (fun m => primary m = false) (children (_create_minihtml E t)).
Proof.
  intros Hc.
  pose proof (create_minihtml_iter E t) as Hiter.
  destruct (minihtml_fold_marked_up E (root t) (iter t) ((None, None), []))
    as (ms' & Hms' & Hall).
  rewrite Hms' in Hiter. cbn [snd app] in Hiter. unfold iter in Hiter, Hall.
  rewrite <- Hiter in Hall. apply Forall2_cons in Hall as [_ Hall].
  apply Forall_forall. intros m' Hin.
  apply list_elem_of_lookup in Hin as [i Hi].
  destruct (Forall2_lookup_r _ _ _ _ _ Hall Hi) as (m & Hm & Hmm).
  rewrite (marked_up_primary m m' Hmm).
  rewrite Forall_lookup in Hc. by apply (Hc i).
Qed.

(** A call adds nothing, or the messages of a tree: they have paths,
    and the children are not primary. *)
Lemma add_rust_messages_tree E wid base_path raw target_path msg_cb w :
  exists c f,
    add_rust_messages E wid base_path raw target_path msg_cb w
    = Some {| WINDOW_MESSAGES := WINDOW_MESSAGES w; callbacks := c; fresh := f |}
    \/ exists r cs,
         Forall (fun m => is_Some (path m)) (r :: cs)
         /\ Forall (fun m => primary m = false) cs
         /\ add_rust_messages E wid base_path raw target_path msg_cb w
            = add_messages msg_cb wid (r :: cs)
                {| WINDOW_MESSAGES := WINDOW_MESSAGES w; callbacks := c;
                   fresh := f |}.
Proof.
  unfold add_rust_messages.
  destruct (match raw with
            | Rustc info => Some info
            | Cargo reason info =>
                if String.eqb reason "compiler-message" then Some info
                else None
            end) as [info |];
    [| exists (callbacks w), (fresh w); left; by destruct w].
  set (st0 := {| message := {| root := new_Message (fresh w); children := [] |};
                 console := callbacks w; next_id := S (fresh w) |}).
  pose proof (collect_paths E base_path target_path msg_cb info None st0
                (Forall_nil_2 _)) as Hc.
  pose proof (collect_adds_children E base_path target_path msg_cb info None
                st0) as (_ & _ & new & Hnew & Hchild).
  set (st := _collect_rust_messages E base_path target_path msg_cb info
               None st0) in *.
  assert (Hnp : Forall (fun m => primary m = false) (children (message st))).
  { rewrite Hnew. cbn [st0 message children app].
    eapply Forall_impl; [exact Hchild |]. by intros m (H & _). }
  destruct (negb (truthy (path (root (message st))))) eqn:Ht;
    [exists (console st), (next_id st); by left |].
  assert (Hr : is_Some (path (root (message st)))).
  { destruct (path (root (message st))); [eauto | discriminate Ht]. }
  pose proof (cross_links_paths E (message st) (next_id st) Hr Hc) as Hx.
  pose proof (cross_links_children_not_primary E (message st) (next_id st)
                Hnp) as Hxp.
  assert (Hr1 : root (fst (_create_cross_links E (message st) (next_id st)))
                = root (message st)) by reflexivity.
  destruct (_create_cross_links E (message st) (next_id st)) as [t1 n1].
  cbn [fst] in Hx, Hxp, Hr1.
  exists (console st), n1. right.
  exists (root (_create_minihtml E t1)), (children (_create_minihtml E t1)).
  split; [| split; [by apply create_minihtml_children_not_primary
                   | reflexivity]].
  assert (Hp : Forall is_Some (path <$> iter (_create_minihtml E t1))).
  { rewrite create_minihtml_paths. apply Forall_forall. intros o Ho.
    apply list_elem_of_fmap in Ho as (x & -> & Hx').
    apply elem_of_cons in Hx' as [-> | Hx'].
    - by rewrite Hr1.
    - rewrite Forall_forall in Hx. by apply Hx. }
  apply Forall_forall. intros x Hx'. rewrite Forall_forall in Hp.
  apply Hp. apply list_elem_of_fmap. eauto.
Qed.

(** X24: a diagnostic adds at most one stop.  After
    [add_rust_messages] next and previous with ['all'] have the stops
    they had and at most one more: the children of a diagnostic and
    its links are stored, but only its primary message is a stop. *)
Theorem one_stop_for_a_diagnostic
    (E : Env) (wid : nat) (base_path : string) (raw : Raw)
    (target_path : option string) (msg_cb : bool) (w : World) :
  exists w',
    add_rust_messages E wid base_path raw target_path msg_cb w = Some w'
    /\ (length (stops wid w) <= length (stops wid w')
        <= S (length (stops wid w)))%nat.
Proof.
  destruct (add_rust_messages_tree E wid base_path raw target_path msg_cb w)
    as (c & f & [-> | (r & cs & Hpaths & Hnp & ->)]).
  - eexists. split; [reflexivity |]. unfold stops. cbn [WINDOW_MESSAGES]. lia.
  - destruct (add_messages_stops msg_cb wid (r :: cs)
                {| WINDOW_MESSAGES := WINDOW_MESSAGES w; callbacks := c;
                   fresh := f |} Hpaths) as (w' & Hadd & Hlen).
    exists w'. split; [exact Hadd |].
    assert (Hcs : filter (fun m => primary m = true) cs = []).
    { apply filter_none. eapply Forall_impl; [exact Hnp |].
      intros m Hm. by rewrite Hm. }
    assert (Hle : (length (filter (fun m => primary m = true) (r :: cs))
                   <= 1)%nat).
    { destruct (primary r) eqn:Hp.
      - rewrite filter_cons_True by exact Hp. rewrite Hcs. cbn. lia.
      - rewrite filter_cons_False by (rewrite Hp; discriminate).
        rewrite Hcs. cbn. lia. }
    change (stops wid {| WINDOW_MESSAGES := WINDOW_MESSAGES w;
                         callbacks := c; fresh := f |})
      with (stops wid w) in Hlen.
    lia.
Qed.

(** ** Clicks on the links of the markup *)

Lemma contains_app_r sub a b :
  contains sub b = true -> contains sub (a +:+ b) = true.
Proof.
  intros H. induction a as [| ch a IH]; [exact H |].
  change (String ch a +:+ b) with (String ch (a +:+ b)).
  cbn [contains]. rewrite IH. apply orb_true_r.
Qed.

Lemma create_minihtml_root E t :
  passed_over (root t) = false ->
  exists c,
    root (_create_minihtml E t) = set_minihtml_text (root t) c
    /\ (primary (root t) = true -> contains close_tag c = true).
Proof.
  intros Hp.
  pose proof (create_minihtml_iter E t) as Hiter.
  unfold iter in Hiter at 2. cbn [foldl] in Hiter.
  unfold minihtml_step at 2 in Hiter. unfold passed_over in Hp.
  rewrite Hp in Hiter.
  match type of Hiter with
  | context [set_minihtml_text (root t) ?c] =>
      destruct (minihtml_fold_marked_up E (root t) (children t)
                  ((level (root t), path (root t)),
                   [] ++ [set_minihtml_text (root t) c]))
        as (ms' & Hms' & _);
      exists c
  end.
  rewrite Hms' in Hiter. cbn [snd app] in Hiter. unfold iter in Hiter.
  injection Hiter as Hroot _. split; [exact Hroot |].
  intros Hprim. rewrite Hprim.
  do 9 apply contains_app_r. reflexivity.
Qed.

(** X25: the link that closes a message clears the window.  The
    markup [_create_minihtml] makes for a primary message has the link
    with the url ['hide']; [_click_handler] answers this url with
    [clear_messages], so that not this message alone but every message
    of the window is gone. *)
Theorem close_link_clears_the_window
    (E : Env) (t : MessageTree) (parse_qs : string -> nat * string)
    (get_regions : option string -> bool) (wid : nat) (file : string)
    (w : World) :
  passed_over (root t) = false ->
  primary (root t) = true ->
  exists c,
    minihtml_text (root (_create_minihtml E t)) = Some c
    /\ contains close_tag c = true
    /\ _click_handler parse_qs get_regions wid file "hide" w
       = (ClickHide, clear_messages wid w)
    /\ entry_count wid (clear_messages wid w) = 0%nat.
Proof.
  intros Hp Hprim.
  destruct (create_minihtml_root E t Hp) as (c & Hroot & Hclose).
  exists c. split; [by rewrite Hroot |]. split; [by apply Hclose |].
  split; [reflexivity |].
  unfold entry_count, clear_messages. cbn [WINDOW_MESSAGES].
  by rewrite lookup_delete_eq.
Qed.

Lemma close_link_clears_the_window_witness :
  passed_over (root two_far_tree) = false
  /\ primary (root two_far_tree) = true
  /\ exists c,
       minihtml_text (root (_create_minihtml (posix false) two_far_tree))
       = Some c
       /\ contains close_tag c = true
       /\ entry_count 1 (clear_messages 1 two_files_world) = 0%nat.
Proof.
  split; [reflexivity |]. split; [reflexivity |].
  destruct (close_link_clears_the_window (posix false) two_far_tree
              (fun _ => (O, EmptyString)) (fun _ => true) 1 "/p/src/a.rs"
              two_files_world eq_refl eq_refl)
    as (c & Hc & Hclose & _ & Hcount).
  exists c. split; [exact Hc |]. split; [exact Hclose | exact Hcount].
Defined.

Lemma prefix_app sub r : String.prefix sub (sub +:+ r) = true.
Proof.
  induction sub as [| ch sub IH]; [by destruct r |].
  change (String ch sub +:+ r) with (String ch (sub +:+ r)).
  cbn [String.prefix]. destruct (Ascii.ascii_dec ch ch); [exact IH | done].
Qed.

Lemma click_branch_file rest :
  click_branch ("file:///" +:+ rest) = ClickOpen rest.
Proof.
  unfold click_branch, startswith. rewrite (prefix_app "file:///" rest).
  reflexivity.
Qed.

(** X26: the links to files open the message.  [_click_handler]
    answers the url [make_file_path] makes for a message (the url of a
    back link and of a link message) by opening a file: the path of
    the message, with its line and column counted from 1, and for a
    message without a region the path with the line 999999999; the
    stored messages are left as they are. *)
Theorem file_links_open_the_message
    (parse_qs : string -> nat * string) (get_regions : option string -> bool)
    (wid : nat) (file : string) (m : Message) (w : World) :
  _click_handler parse_qs get_regions wid file (make_file_path m) w
  = (ClickOpen
       match span m with
       | Some r =>
           replace_char (Ascii.ascii_of_nat 92) (Ascii.ascii_of_nat 47)
             (path_of m)
           +:+ ":" +:+ pretty (fst (fst r) + 1)
           +:+ ":" +:+ pretty (snd (fst r) + 1)
       | None => path_of m +:+ ":999999999"
       end,
     w).
Proof.
  unfold _click_handler, make_file_path.
  destruct (span m) as [r |]; by rewrite click_branch_file.
Qed.

(** ** Messages of macros of other crates *)

(** X27: messages of macros of other crates are dropped without a
    trace.  When the path of every message has ['macros>'] in it,
    [add_message] stores none of them and gives none of them to
    [msg_cb]: the state after the calls is the state before.  (The
    comments in the code say that such messages are shown in the
    console by [msg_cb]; the test on the path returns before [msg_cb]
    is reached.) *)
Theorem macro_messages_are_dropped
    (msg_cb : bool) (wid : nat) (ms : list Message) (w : World) :
  Forall in_extern_macro ms ->
  add_messages msg_cb wid ms w = Some w.
Proof.
  induction 1 as [| m ms (p & Hp & Hm) _ IH]; cbn [add_messages];
    [reflexivity |].
  unfold add_message. rewrite Hp, Hm. exact IH.
Qed.

Lemma macro_messages_are_dropped_witness :
  Forall in_extern_macro extern_macro_messages
  /\ length extern_macro_messages = 4%nat
  /\ add_messages true 1 extern_macro_messages no_windows = Some no_windows.
Proof.
  assert (H : Forall in_extern_macro extern_macro_messages).
  { repeat (constructor;
            [exists "/p/<std macros>"; split; vm_compute; reflexivity |]).
    constructor. }
  split; [exact H |]. split; [vm_compute; reflexivity |].
  exact (macro_messages_are_dropped true 1 extern_macro_messages no_windows H).
Defined.

(** The error [extern_macro_error] as a whole: with [msg_cb] given and
    no target path, nothing is stored and nothing is given to
    [msg_cb]. *)
Example extern_macro_error_is_lost :
  (fun w => (WINDOW_MESSAGES w !! 1%nat, callbacks w))
    <$> add_rust_messages (posix false) 1 "/p" (Rustc extern_macro_error)
          None true no_windows
  = Some (None, []).
Proof. vm_compute. reflexivity. Qed.

(** ** The states of a window are well formed *)

Lemma window_ok_set_msg_index wid info idx w :
  WINDOW_MESSAGES w !! wid = Some info ->
  window_ok wid w -> window_ok wid (set_msg_index wid info idx w).
Proof.
  intros Hw Hok info'. unfold set_msg_index. cbn [WINDOW_MESSAGES].
  rewrite lookup_insert_eq. intros [= <-]. cbn [paths]. by apply Hok.
Qed.

Lemma advance_next_window_ok levels wid w :
  window_ok wid w ->
  window_ok wid (snd (_advance_next_message levels wid w)).
Proof.
  intros Hok.
  unfold _advance_next_message, _advance_next_message_wrapped,
    advance_next_body.
  destruct (WINDOW_MESSAGES w !! wid) as [info |] eqn:Hw; [| exact Hok].
  destruct (next_scan levels info) as [[pi mi] |].
  { by apply window_ok_set_msg_index. }
  pose proof (window_ok_set_msg_index wid info (-1, -1) w Hw Hok) as Hok1.
  assert (Hw1 : WINDOW_MESSAGES (set_msg_index wid info (-1, -1) w) !! wid
                = Some {| paths := paths info; msg_index := (-1, -1) |}).
  { unfold set_msg_index. cbn [WINDOW_MESSAGES]. apply lookup_insert_eq. }
  rewrite Hw1.
  destruct (next_scan levels _) as [[pi mi] |]; [| exact Hok1].
  by apply window_ok_set_msg_index.
Qed.

Lemma advance_prev_window_ok levels wid w r w' :
  window_ok wid w ->
  _advance_prev_message levels wid w = Some (r, w') ->
  window_ok wid w'.
Proof.
  intros Hok.
  unfold _advance_prev_message, _advance_prev_message_wrapped,
    advance_prev_body.
  destruct (WINDOW_MESSAGES w !! wid) as [info |] eqn:Hw;
    [| by intros [= _ <-]].
  destruct (prev_scan levels info) as [[pi mi] | |]; [| | discriminate].
  { intros [= _ <-]. by apply window_ok_set_msg_index. }
  pose proof (window_ok_set_msg_index wid info (-1, -1) w Hw Hok) as Hok1.
  assert (Hw1 : WINDOW_MESSAGES (set_msg_index wid info (-1, -1) w) !! wid
                = Some {| paths := paths info; msg_index := (-1, -1) |}).
  { unfold set_msg_index. cbn [WINDOW_MESSAGES]. apply lookup_insert_eq. }
  rewrite Hw1.
  destruct (prev_scan levels _) as [[pi mi] | |]; [| | discriminate].
  - intros [= _ <-]. by apply window_ok_set_msg_index.
  - by intros [= _ <-].
Qed.

Lemma sort_messages_window_ok E wid w :
  window_ok wid w -> window_ok wid (_sort_messages E wid w).
Proof.
  intros Hok. unfold _sort_messages.
  destruct (negb (rust_sort_messages E)); [exact Hok |].
  destruct (WINDOW_MESSAGES w !! wid) as [info |] eqn:Hw; [| exact Hok].
  destruct (Hok info Hw) as [Hd [Hnd Hall]].
  intros info'. cbn [WINDOW_MESSAGES]. rewrite lookup_insert_eq.
  intros [= <-]. cbn [paths]. split.
  - apply sorted_paths_not_nil; [exact Hnd | | exact Hd].
    by apply path_ok_nonempty.
  - by apply sorted_paths_store_ok.
Qed.

Lemma session_window_ok E wid w : session E wid w -> window_ok wid w.
Proof.
  induction 1 as [w Hw | w w' b raw tp cb _ IH Hadd | w _ IH | w lv _ IH
                  | w lv r w' _ IH Hprev | w _ IH].
  - intros info Hi. rewrite Hw in Hi. discriminate Hi.
  - destruct (add_rust_messages_window_ok E wid b raw tp cb w IH)
      as (w1 & Hadd1 & Hok1).
    rewrite Hadd in Hadd1. by injection Hadd1 as ->.
  - by apply sort_messages_window_ok.
  - by apply advance_next_window_ok.
  - by apply (advance_prev_window_ok lv wid w r w').
  - intros info Hi. unfold clear_messages in Hi. cbn [WINDOW_MESSAGES] in Hi.
    by rewrite lookup_delete_eq in Hi.
Qed.

(** X7: the region keys of a window never collide.  In every state the
    window goes through (diagnostics coming in, sorting, going to the
    next or the previous message, clearing), the messages stored
    under a path are there: at least one, with region keys that
    differ from one another, and the key the next message under the
    path will get ([rust-] with the number of messages plus one) is
    not among them; no two of them are similar, and each has the path
    as its own. *)
Theorem region_keys_are_distinct
    (E : Env) (wid : nat) (w : World) (info : WindowInfo) (p : string)
    (l : list Message) :
  session E wid w ->
  WINDOW_MESSAGES w !! wid = Some info ->
  od_get (paths info) p = Some l ->
  l <> []
  /\ NoDup (region_key <$> l)
  /\ (Some ("rust-" +:+ pretty (S (length l))) ∉ region_key <$> l)
  /\ Forall (fun m => path m = Some p) l
  /\ forall i j m1 m2,
       l !! i = Some m1 -> l !! j = Some m2 -> is_similar m1 m2 = true ->
       i = j.
Proof.
  intros Hs Hw Hl. pose proof (session_window_ok E wid w Hs) as Hok.
  destruct (Hok info Hw) as [_ [_ Hall]].
  apply od_get_Some_elem in Hl. rewrite Forall_forall in Hall.
  destruct (Hall _ Hl) as (Hne & _ & Hp & Hc & Hk). cbn [fst snd] in *.
  split; [exact Hne |]. split; [| split; [| split; [exact Hp |]]].
  - rewrite Hk. apply numbered_keys_NoDup.
  - rewrite Hk. apply numbered_keys_fresh.
  - intros i j m1 m2 Hi Hj Hsim. rewrite is_similar_content in Hsim.
    apply bool_decide_eq_true in Hsim.
    eapply NoDup_lookup; [exact Hc | |].
    + rewrite list_lookup_fmap, Hi. reflexivity.
    + rewrite list_lookup_fmap, Hj. cbn. by rewrite Hsim.
Qed.

Lemma session_sorted_checked_world :
  session (posix false) 1 (_sort_messages (posix false) 1 checked_world).
Proof.
  apply session_sort.
  apply (session_add (posix false) 1 no_windows checked_world "/p"
           cargo_error None false).
  - apply session_start. reflexivity.
  - vm_compute. reflexivity.
Defined.

Lemma region_keys_are_distinct_witness :
  session (posix false) 1 (_sort_messages (posix false) 1 checked_world)
  /\ length (stored_at 1 "/p/src/main.rs"
            (_sort_messages (posix false) 1 checked_world)) = 3%nat
  /\ NoDup (region_key
              <$> stored_at 1 "/p/src/main.rs"
                    (_sort_messages (posix false) 1 checked_world)).
Proof.
  split; [exact session_sorted_checked_world |].
  split; [vm_compute; reflexivity |].
  apply (region_keys_are_distinct (posix false) 1
           (_sort_messages (posix false) 1 checked_world)
           (default new_WindowInfo
              (WINDOW_MESSAGES (_sort_messages (posix false) 1 checked_world)
               !! 1%nat))
           "/p/src/main.rs"
           (stored_at 1 "/p/src/main.rs"
              (_sort_messages (posix false) 1 checked_world))
           session_sorted_checked_world);
    vm_compute; reflexivity.
Defined.
